(** * Skip lists with handle-based deletion (kernel/skip_lists.c)

    A shallow embedding of the BFS skip list: nodes live in a heap indexed
    by addresses, every node carries sixteen [next]/[prev] slots, and the
    routines [skiplist_init], [new_skiplist], [randomLevel],
    [skiplist_insert] and [skiplist_delnode] are transcribed statement by
    statement.  Loops whose trip count is not bounded by a level index take
    a fuel argument and report [Timeout] when it runs out; a read of a
    freed node or of a slot that was never written reports [Fault]. *)

From stdpp Require Import gmap list sorting.
From Stdlib Require Import ZArith Lia.

Set Warnings "-clear-no-such-hyp".

Open Scope Z_scope.

(** ** Data model *)

Definition MaxNumberOfLevels : nat := 16.
Definition MaxLevel : nat := (MaxNumberOfLevels - 1)%nat.

(** The sentinel key [0xFFFFFFFFFFFFFFFF] and the range of [u64]. *)
Definition KEY_MAX : Z := 18446744073709551615.
Definition u64 (z : Z) : Prop := 0 <= z <= KEY_MAX.

(** [keyType] is [u64]; [valueType] is a pointer to a task, of which only
    the bit pattern matters. *)
Abbreviation keyType := Z.
Abbreviation valueType := Z.
Definition NULL : valueType := 0.

(** Addresses of nodes. *)
Abbreviation addr := positive.

(** [struct nodeStructure].  The two arrays are finite maps from a level
    to an address: a slot that was never written has no binding.  The
    levels are [int] in the source and only ever hold 0 to 15; they are
    natural numbers here, and the [do ... while (--k >= 0)] loops descend
    on them. *)
Record nodeStructure : Type := mkNode {
  level : nat;
  key : keyType;
  value : valueType;
  next : gmap nat addr;
  prev : gmap nat addr
}.
Abbreviation skiplist_node := nodeStructure.

(** [struct listStructure]; its [level] field is [lst_level] here. *)
Record listStructure : Type := mkList {
  lst_level : nat;
  header : addr
}.
Abbreviation skiplist := listStructure.

Abbreviation heap := (gmap addr nodeStructure).

(** The memory of nodes together with the list object [l]. *)
Record state : Type := mkState {
  mem : heap;
  lst : listStructure
}.

(** ** Outcomes *)

Inductive result (A : Type) : Type :=
| Ok (a : A)
| Fault
| Timeout.
Arguments Ok {A} a.
Arguments Fault {A}.
Arguments Timeout {A}.

#[global] Instance result_ret : MRet result := fun _ a => Ok a.
#[global] Instance result_bind : MBind result := fun _ _ f r =>
  match r with
  | Ok a => f a
  | Fault => Fault
  | Timeout => Timeout
  end.

Definition of_option {A} (o : option A) : result A :=
  match o with
  | Some a => Ok a
  | None => Fault
  end.

(** ** Memory accesses *)

Definition set_next (n : nodeStructure) (k : nat) (v : addr) : nodeStructure :=
  mkNode (level n) (key n) (value n) (<[k := v]> (next n)) (prev n).
Definition set_prev (n : nodeStructure) (k : nat) (v : addr) : nodeStructure :=
  mkNode (level n) (key n) (value n) (next n) (<[k := v]> (prev n)).

(** [p->next[k]] *)
Definition load_next (h : heap) (p : addr) (k : nat) : result addr :=
  n ← of_option (h !! p); of_option (next n !! k).
(** [p->prev[k]] *)
Definition load_prev (h : heap) (p : addr) (k : nat) : result addr :=
  n ← of_option (h !! p); of_option (prev n !! k).
(** [p->key] *)
Definition load_key (h : heap) (p : addr) : result Z :=
  n ← of_option (h !! p); Ok (key n).
(** [p->level] *)
Definition load_level (h : heap) (p : addr) : result nat :=
  n ← of_option (h !! p); Ok (level n).

(** [p->next[k] = v]; the array has [MaxNumberOfLevels] slots. *)
Definition store_next (h : heap) (p : addr) (k : nat) (v : addr) : result heap :=
  n ← of_option (h !! p);
  if bool_decide (k < MaxNumberOfLevels)%nat then Ok (<[p := set_next n k v]> h)
  else Fault.
(** [p->prev[k] = v] *)
Definition store_prev (h : heap) (p : addr) (k : nat) (v : addr) : result heap :=
  n ← of_option (h !! p);
  if bool_decide (k < MaxNumberOfLevels)%nat then Ok (<[p := set_prev n k v]> h)
  else Fault.

(** [newNode]: the allocator hands out an address [a] that is not in use;
    the block is not initialised.  A slot without a binding stands for
    memory of indeterminate content: reading it is a [Fault], and nothing
    is said about what such a slot holds. *)
Definition newNode (h : heap) (a : addr) : result heap :=
  match h !! a with
  | Some _ => Fault
  | None => Ok (<[a := mkNode 0 0 0 ∅ ∅]> h)
  end.

(** ** skiplist_init and new_skiplist *)

(** [for (i = 0; i < MaxNumberOfLevels; i++) slnode->next[i] = slnode->prev[i] = slnode;]
    with [i] the current index and [cnt] the iterations that remain. *)
Fixpoint init_links (h : heap) (slnode : addr) (i cnt : nat) : result heap :=
  match cnt with
  | O => Ok h
  | S cnt' =>
      h1 ← store_prev h slnode i slnode;
      h2 ← store_next h1 slnode i slnode;
      init_links h2 slnode (S i) cnt'
  end.

Definition set_fields (n : nodeStructure) (lv : nat) (k v : Z) : nodeStructure :=
  mkNode lv k v (next n) (prev n).

(** [q->level = lv; q->key = k; q->value = v;] *)
Definition store_fields (h : heap) (q : addr) (lv : nat) (k v : Z) : result heap :=
  n ← of_option (h !! q); Ok (<[q := set_fields n lv k v]> h).

Definition skiplist_init (h : heap) (a : addr) : result (heap * addr) :=
  h0 ← newNode h a;
  let slnode := a in
  h1 ← store_fields h0 slnode 0%nat KEY_MAX NULL;
  h2 ← init_links h1 slnode 0 MaxNumberOfLevels;
  Ok (h2, slnode).

Definition new_skiplist (h : heap) (slnode : addr) : state :=
  mkState h (mkList 0 slnode).

(** ** randomLevel *)

(** [while (randseed && !(randseed & 3)) { randseed >>= 2; level++; }]
    A [u64] is exhausted after 32 shifts by two, which bounds the loop. *)
Fixpoint randomLevel_loop (fuel : nat) (randseed : Z) (lv : nat) : nat :=
  match fuel with
  | O => lv
  | S fuel' =>
      if negb (randseed =? 0) && (Z.land randseed 3 =? 0)
      then randomLevel_loop fuel' (Z.shiftr randseed 2) (S lv)
      else lv
  end.

Definition randomLevel (randseed : Z) : nat :=
  let lv := randomLevel_loop 32 randseed 0 in
  if bool_decide (MaxLevel < lv)%nat then MaxLevel else lv.

(** ** skiplist_insert *)

(** [while (q = p->next[k], q->key <= key) p = q;] *)
Fixpoint search_level (fuel : nat) (h : heap) (k : nat) (ky : Z) (p : addr)
  : result addr :=
  match fuel with
  | O => Timeout
  | S fuel' =>
      q ← load_next h p k;
      qk ← load_key h q;
      if qk <=? ky then search_level fuel' h k ky q else Ok p
  end.

(** [update[k] = p] on the local array of [MaxNumberOfLevels] pointers. *)
Definition store_update (update : gmap nat addr) (k : nat) (p : addr)
  : result (gmap nat addr) :=
  if bool_decide (k < MaxNumberOfLevels)%nat then Ok (<[k := p]> update) else Fault.

(** [do { while ...; update[k] = p; } while (--k >= 0);] *)
Fixpoint search (fuel : nat) (h : heap) (ky : Z) (k : nat) (p : addr)
    (update : gmap nat addr) : result (gmap nat addr) :=
  p' ← search_level fuel h k ky p;
  update' ← store_update update k p';
  match k with
  | O => Ok update'
  | S k' => search fuel h ky k' p' update'
  end.

(** One pass of the body of the second [do] loop. *)
Definition splice_step (h : heap) (q : addr) (update : gmap nat addr) (k : nat)
  : result heap :=
  p ← of_option (update !! k);
  pn ← load_next h p k;
  h1 ← store_next h q k pn;
  h2 ← store_next h1 p k q;
  h3 ← store_prev h2 q k p;
  qn ← load_next h3 q k;
  store_prev h3 qn k q.

(** [do { p = update[k]; ... } while (--k >= 0);] *)
Fixpoint splice (h : heap) (q : addr) (update : gmap nat addr) (k : nat)
  : result heap :=
  h' ← splice_step h q update k;
  match k with
  | O => Ok h'
  | S k' => splice h' q update k'
  end.

(** [a] is the address the allocator returns for the new node. *)
Definition skiplist_insert (fuel : nat) (slnode : addr) (st : state)
    (ky : keyType) (val : valueType) (randseed : Z) (a : addr)
  : result (state * addr) :=
  let l := lst st in
  update ← search fuel (mem st) ky (lst_level l) slnode ∅;
  let k := randomLevel randseed in
  '(k, l, update) ←
    (if bool_decide (lst_level l < k)%nat then
       let l' := mkList (S (lst_level l)) (header l) in
       update' ← store_update update (lst_level l') slnode;
       Ok (lst_level l', l', update')
     else Ok (k, l, update));
  h0 ← newNode (mem st) a;
  let q := a in
  h1 ← store_fields h0 q k ky val;
  h2 ← splice h1 q update k;
  Ok (mkState h2 l, q).

(** ** skiplist_delnode *)

Definition unlink_step (h : heap) (node : addr) (k : nat) : result heap :=
  np ← load_prev h node k;
  nn ← load_next h node k;
  h1 ← store_next h np k nn;
  nn' ← load_next h1 node k;
  np' ← load_prev h1 node k;
  store_prev h1 nn' k np'.

(** [for (k = 0; k <= m; k++) { ... }] with [cnt] the iterations that remain. *)
Fixpoint unlink (h : heap) (node : addr) (k cnt : nat) : result heap :=
  match cnt with
  | O => Ok h
  | S cnt' =>
      h' ← unlink_step h node k;
      unlink h' node (S k) cnt'
  end.

(** [while (l->header->next[m] == slnode && l->header->prev[m] == slnode && m > 0) m--;] *)
Fixpoint shrink (h : heap) (hdr slnode : addr) (m : nat) : result nat :=
  hn ← load_next h hdr m;
  if bool_decide (hn = slnode) then
    hp ← load_prev h hdr m;
    if bool_decide (hp = slnode) then
      match m with
      | O => Ok m
      | S m' => shrink h hdr slnode m'
      end
    else Ok m
  else Ok m.

Definition skiplist_delnode (slnode : addr) (st : state) (node : addr)
  : result state :=
  let l := lst st in
  m ← load_level (mem st) node;
  h1 ← unlink (mem st) node 0 (S m);
  let h2 := delete node h1 in
  if bool_decide (m = lst_level l) then
    m' ← shrink h2 (header l) slnode m;
    Ok (mkState h2 (mkList m' (header l)))
  else Ok (mkState h2 l).

(** ** Observations used by the statements *)

(** Follow [next[k]] from [p] until the sentinel [s] comes up again, and
    list the nodes met on the way. *)
Fixpoint walk_from (fuel : nat) (h : heap) (s : addr) (k : nat) (p : addr)
  : result (list addr) :=
  match fuel with
  | O => Timeout
  | S fuel' =>
      q ← load_next h p k;
      if bool_decide (q = s) then Ok []
      else r ← walk_from fuel' h s k q; Ok (q :: r)
  end.

Definition walk (fuel : nat) (h : heap) (s : addr) (k : nat) : result (list addr) :=
  walk_from fuel h s k s.

(** The key stored at an address ([KEY_MAX] stands in for a dangling one). *)
Definition key_at (h : heap) (a : addr) : Z :=
  match h !! a with
  | Some n => key n
  | None => KEY_MAX
  end.

(** The test of the loop in [randomLevel]. *)
Definition pair_clear (x : Z) : bool := negb (x =? 0) && (Z.land x 3 =? 0).

(** ** Views of the heap *)

(** [a->next[k]], [a->prev[k]] and the scalar fields of [a], as partial
    functions of the address. *)
Definition nxt (h : heap) (k : nat) (a : addr) : option addr :=
  n ← h !! a; next n !! k.
Definition prv (h : heap) (k : nat) (a : addr) : option addr :=
  n ← h !! a; prev n !! k.
Definition fields (h : heap) (a : addr) : option (nat * Z * Z) :=
  (fun n => (level n, key n, value n)) <$> h !! a.

Definition level_at (h : heap) (a : addr) : nat :=
  match h !! a with
  | Some n => level n
  | None => 0
  end.

(** ** Chains *)

(** [links nx pv x l z]: following [nx] from [x] runs through [l] and ends
    in [z], and [pv] leads back along the same way. *)
Fixpoint links (nx pv : addr -> option addr) (x : addr) (l : list addr) (z : addr)
  : Prop :=
  match l with
  | [] => nx x = Some z /\ pv z = Some x
  | y :: l' => nx x = Some y /\ pv y = Some x /\ links nx pv y l' z
  end.

(** Last node of [s :: l] and first node of [l ++ [s]]. *)
Definition endof (s : addr) (l : list addr) : addr := default s (last l).
Definition startof (s : addr) (l : list addr) : addr := default s (head l).

Definition keys_le (h : heap) (ky : Z) (l : list addr) : Prop :=
  Forall (fun x => key_at h x <= ky) l.
Definition keys_gt (h : heap) (ky : Z) (l : list addr) : Prop :=
  Forall (fun x => ky < key_at h x) l.

(** The node at [a] is allocated and its level is at least [k]. *)
Definition has_level (h : heap) (k : nat) (a : addr) : Prop :=
  exists lv ky v, fields h a = Some (lv, ky, v) /\ (k <= lv)%nat.

(** [c] is the level-[k] chain of the heap: a circular doubly linked list
    through the sentinel [s], holding exactly the nodes of level at least
    [k], in non-decreasing key order. *)
Record chain (h : heap) (s : addr) (k : nat) (c : list addr) : Prop := mkChain {
  chain_nodup : NoDup (s :: c);
  chain_links : links (nxt h k) (prv h k) s c s;
  chain_mem : forall a, a ∈ c <-> a <> s /\ has_level h k a;
  chain_sorted : StronglySorted Z.le (key_at h <$> c)
}.

(** The invariant of a list with sentinel [s]. *)
Record Inv (s : addr) (st : state) : Prop := mkInv {
  inv_header : header (lst st) = s;
  inv_sentinel : fields (mem st) s = Some (0%nat, KEY_MAX, NULL);
  inv_nodes : forall a lv ky v, fields (mem st) a = Some (lv, ky, v) -> a <> s ->
              ky < KEY_MAX /\ (lv <= lst_level (lst st))%nat;
  inv_top : lst_level (lst st) = 0%nat \/
            exists a ky v, a <> s /\ fields (mem st) a = Some (lst_level (lst st), ky, v);
  inv_bound : (lst_level (lst st) <= MaxLevel)%nat;
  inv_slots : forall k x y, nxt (mem st) k x = Some y \/ prv (mem st) k x = Some y ->
              (k < MaxNumberOfLevels)%nat /\ (x = s \/ has_level (mem st) k x);
  inv_chains : forall k, (k < MaxNumberOfLevels)%nat -> exists c, chain (mem st) s k c
}.

(** States a caller can reach: construction, then inserts and deletes of
    linked nodes. *)
Inductive reachable (s : addr) : state -> Prop :=
| reach_new h :
    skiplist_init ∅ s = Ok (h, s) ->
    reachable s (new_skiplist h s)
| reach_insert st fuel ky val randseed a st' q :
    reachable s st ->
    skiplist_insert fuel s st ky val randseed a = Ok (st', q) ->
    reachable s st'
| reach_delnode st node st' :
    reachable s st ->
    node <> s ->
    skiplist_delnode s st node = Ok st' ->
    reachable s st'.

(** The node level [skiplist_insert] settles on, and the height it leaves. *)
Definition insert_level (st : state) (randseed : Z) : nat :=
  if bool_decide (lst_level (lst st) < randomLevel randseed)%nat
  then S (lst_level (lst st)) else randomLevel randseed.
Definition insert_height (st : state) (randseed : Z) : nat :=
  if bool_decide (lst_level (lst st) < randomLevel randseed)%nat
  then S (lst_level (lst st)) else lst_level (lst st).

(** The [update] array as it stands when the new node is allocated. *)
Definition insert_update (fuel : nat) (slnode : addr) (st : state) (ky randseed : Z)
  : result (gmap nat addr) :=
  update ← search fuel (mem st) ky (lst_level (lst st)) slnode ∅;
  if bool_decide (lst_level (lst st) < randomLevel randseed)%nat
  then store_update update (S (lst_level (lst st))) slnode
  else Ok update.

(** The [next] and [prev] views of one level after a node [q] has been
    linked in behind [p], and after a node [d] has been taken out. *)
Definition spliced_nxt (f : addr -> option addr) (p q : addr) : addr -> option addr :=
  fun a => if decide (a = p) then Some q else if decide (a = q) then f p else f a.
Definition spliced_prv (f g : addr -> option addr) (p q : addr) : addr -> option addr :=
  fun a => if decide (Some a = f p) then Some q
           else if decide (a = q) then Some p else g a.
Definition unlinked_nxt (f g : addr -> option addr) (d : addr) : addr -> option addr :=
  fun a => if decide (Some a = g d) then f d else f a.
Definition unlinked_prv (f g : addr -> option addr) (d : addr) : addr -> option addr :=
  fun a => if decide (Some a = f d) then g d else g a.

(** [p] ends a prefix of [c] whose keys are at most [ky]; in [splits] the
    prefix is the longest one. *)
Definition starts (h : heap) (s : addr) (ky : Z) (c : list addr) (p : addr) : Prop :=
  exists l1 l2, c = l1 ++ l2 /\ keys_le h ky l1 /\ p = endof s l1.
Definition splits (h : heap) (s : addr) (ky : Z) (c : list addr) (p : addr) : Prop :=
  exists c1 c2, c = c1 ++ c2 /\ keys_le h ky c1 /\ keys_gt h ky c2 /\ p = endof s c1.

(** What an insert of [(ky, val)] with seed [r] at the fresh address [a]
    leaves behind: [update] holds the recorded predecessors and [h'] is the
    heap after the splice. *)
Record inserted (s : addr) (st : state) (ky val r : Z) (a : addr)
    (update : gmap nat addr) (h' : heap) : Prop := mkInserted {
  ins_rec : forall j, (j <= insert_level st r)%nat -> exists p, update !! j = Some p /\
      forall c, chain (mem st) s j c -> splits (mem st) s ky c p;
  ins_top : (lst_level (lst st) < randomLevel r)%nat ->
      update !! S (lst_level (lst st)) = Some s;
  ins_fields : forall x, fields h' x =
      if decide (x = a) then Some (insert_level st r, ky, val) else fields (mem st) x;
  ins_low : forall j p, (j <= insert_level st r)%nat -> update !! j = Some p ->
      forall x, nxt h' j x = spliced_nxt (nxt (mem st) j) p a x /\
                prv h' j x = spliced_prv (nxt (mem st) j) (prv (mem st) j) p a x;
  ins_high : forall j, (insert_level st r < j)%nat ->
      forall x, nxt h' j x = nxt (mem st) j x /\ prv h' j x = prv (mem st) j x
}.

(** The state an insert returns. *)
Definition insert_state (st : state) (r : Z) (h' : heap) : state :=
  mkState h' (mkList (insert_height st r) (header (lst st))).

(** The heap [h'] that is left when the node [d] of level [m] has been
    unlinked and freed. *)
Record unlinked (st : state) (d : addr) (m : nat) (h' : heap) : Prop := mkUnlinked {
  del_fields : forall x, fields h' x = if decide (x = d) then None else fields (mem st) x;
  del_low : forall j, (j <= m)%nat -> forall x, x <> d ->
      nxt h' j x = unlinked_nxt (nxt (mem st) j) (prv (mem st) j) d x /\
      prv h' j x = unlinked_prv (nxt (mem st) j) (prv (mem st) j) d x;
  del_high : forall j, (m < j)%nat -> forall x, x <> d ->
      nxt h' j x = nxt (mem st) j x /\ prv h' j x = prv (mem st) j x;
  del_dead : forall j, nxt h' j d = None /\ prv h' j d = None
}.

(** The level-[k] chain of the sentinel [s] is empty. *)
Definition self_loop (h : heap) (s : addr) (k : nat) : Prop :=
  nxt h k s = Some s /\ prv h k s = Some s.

(** The height [skiplist_delnode] leaves: unchanged unless the node was on
    the top level, else the highest level in [0, m] that is still occupied. *)
Definition shrunk (st : state) (s : addr) (m : nat) (h' : heap) (L' : nat) : Prop :=
  (m <> lst_level (lst st) -> L' = lst_level (lst st)) /\
  (m = lst_level (lst st) ->
     (L' <= m)%nat /\
     (forall j, (L' < j <= m)%nat -> self_loop h' s j) /\
     (L' = 0%nat \/ ~ self_loop h' s L')).

(** Following [next[k]] from the sentinel comes back to it, past keys
    that never decrease. *)
Definition sorted_circular (s : addr) (st : state) (k : nat) : Prop :=
  exists fuel c, walk fuel (mem st) s k = Ok c /\
    StronglySorted Z.le (key_at (mem st) <$> c).

(** The height equals the largest level among the nodes linked on level 0. *)
Definition height_is_max (s : addr) (st : state) : Prop :=
  exists fuel c, walk fuel (mem st) s 0 = Ok c /\
    lst_level (lst st) = max_list (level_at (mem st) <$> c).

(** ** Sequences of calls *)

(** Insert the items [(key, value, seed, address)] one after the other and
    collect the handles that come back. *)
Fixpoint insert_all (fuel : nat) (slnode : addr) (st : state)
    (items : list (Z * Z * Z * addr)) : result (state * list addr) :=
  match items with
  | [] => Ok (st, [])
  | (ky, val, randseed, a) :: rest =>
      '(st1, q) ← skiplist_insert fuel slnode st ky val randseed a;
      '(st2, qs) ← insert_all fuel slnode st1 rest;
      Ok (st2, q :: qs)
  end.

(** Delete the given handles one after the other. *)
Fixpoint delnode_all (slnode : addr) (st : state) (nodes : list addr) : result state :=
  match nodes with
  | [] => Ok st
  | node :: rest =>
      st1 ← skiplist_delnode slnode st node;
      delnode_all slnode st1 rest
  end.

(** The node at [x] is allocated. *)
Definition live (st : state) (x : addr) : Prop := is_Some (fields (mem st) x).

(** No linked node other than [node] has the level of the list. *)
Definition alone_on_top (s : addr) (st : state) (node : addr) : Prop :=
  forall x, x <> s -> x <> node -> is_Some (fields (mem st) x) ->
    level_at (mem st) x <> lst_level (lst st).

(** The reading of the height rule for deletes under which the height
    drops by exactly one. *)
Definition delnode_top_drops_one (s : addr) : Prop :=
  forall st node st',
    reachable s st -> node <> s -> is_Some (fields (mem st) node) ->
    level_at (mem st) node = lst_level (lst st) ->
    skiplist_delnode s st node = Ok st' ->
    (lst_level (lst st) = S (lst_level (lst st')) <-> alone_on_top s st node) /\
    (~ alone_on_top s st node -> lst_level (lst st') = lst_level (lst st)).

(** On every level the chain of the level above is a subsequence of the
    chain of that level. *)
Definition nested (s : addr) (st : state) : Prop :=
  forall k c c', chain (mem st) s k c -> chain (mem st) s (S k) c' -> sublist c' c.

(** The insert of [(ky, val)] returns and has put its node, on each of
    the node's levels, behind the keys that are at most [ky] and in front of
    the larger ones. *)
Definition insert_places_node (s : addr) (st : state) (ky val randseed : Z)
    (a : addr) : Prop :=
  exists fuel st' q,
    skiplist_insert fuel s st ky val randseed a = Ok (st', q) /\
    forall k, (k <= level_at (mem st') q)%nat ->
      exists c1 c2 f1 f2,
        walk f1 (mem st) s k = Ok (c1 ++ c2) /\
        walk f2 (mem st') s k = Ok (c1 ++ q :: c2) /\
        keys_le (mem st) ky c1 /\ keys_gt (mem st) ky c2.

(** ** Sample states *)

(** A list with sentinel at address 1, and three inserts whose seeds ask
    for many levels: the nodes at 2, 3 and 4 get levels 1, 2 and 3. *)
Definition run_or {A} (d : A) (r : result A) : A :=
  match r with
  | Ok a => a
  | _ => d
  end.

Definition demo_new : state :=
  run_or (new_skiplist ∅ 1) ('(h, s) ← skiplist_init ∅ 1; Ok (new_skiplist h s)).
Definition demo_ins (st : state) (ky val randseed : Z) (a : addr) : state :=
  run_or st ('(st', _) ← skiplist_insert 8 1 st ky val randseed a; Ok st').
Definition demo_del (st : state) (node : addr) : state :=
  run_or st (skiplist_delnode 1 st node).

Definition demo_1 : state := demo_ins demo_new 5 50 256 2.
Definition demo_2 : state := demo_ins demo_1 3 30 256 3.
Definition demo_3 : state := demo_ins demo_2 8 80 256 4.
(** Node 3 leaves; node 4 is then alone on levels 2 and 3. *)
Definition demo_4 : state := demo_del demo_3 3.

(** * Properties *)

(** * Level randomisation *)

Section RandomLevel.

Lemma land_3_mod (r : Z) : Z.land r 3 = r mod 4.
Proof. change 3 with (Z.ones 2). rewrite Z.land_ones by lia. reflexivity. Qed.

Lemma shiftr_2_div (r : Z) : Z.shiftr r 2 = r / 4.
Proof. rewrite Z.shiftr_div_pow2 by lia. reflexivity. Qed.

Lemma randomLevel_loop_zero (fuel lv : nat) : randomLevel_loop fuel 0 lv = lv.
Proof. destruct fuel; reflexivity. Qed.

Lemma pow4_succ (n : nat) : 4 ^ Z.of_nat (S n) = 4 * 4 ^ Z.of_nat n.
Proof. rewrite Nat2Z.inj_succ, Z.pow_succ_r by lia. reflexivity. Qed.

(** The loop leaves after [n] rounds, where [n] counts the clear low pairs
    of a nonzero seed, and more fuel does not change its answer. *)
Lemma randomLevel_loop_rounds (fuel : nat) :
  forall (r : Z) (lv : nat),
    0 <= r < 4 ^ Z.of_nat fuel ->
    exists n : nat,
      (n <= fuel)%nat /\
      (forall i : nat, (i < n)%nat -> pair_clear (Z.shiftr r (2 * Z.of_nat i)) = true) /\
      pair_clear (Z.shiftr r (2 * Z.of_nat n)) = false /\
      (forall extra : nat, randomLevel_loop (fuel + extra) r lv = (lv + n)%nat) /\
      (r <> 0 -> exists m : Z, r = 4 ^ Z.of_nat n * m /\ m mod 4 <> 0).
Proof.
  induction fuel as [|fuel IH]; intros r lv Hr.
  - assert (r = 0) as -> by (simpl in Hr; lia).
    exists 0%nat. repeat split; try lia; try reflexivity.
    intros extra. rewrite randomLevel_loop_zero. lia.
  - destruct (pair_clear r) eqn:Ht.
    + pose proof Ht as Ht'. unfold pair_clear in Ht'.
      apply andb_true_iff in Ht' as [Hnz Hlow].
      apply negb_true_iff, Z.eqb_neq in Hnz. apply Z.eqb_eq in Hlow.
      rewrite land_3_mod in Hlow.
      assert (Hdiv : r = 4 * (r / 4)) by (pose proof (Z.div_mod r 4); lia).
      rewrite pow4_succ in Hr.
      destruct (IH (Z.shiftr r 2) (S lv)) as (n & Hn & Hlt & Hstop & Hrun & Hm).
      { rewrite shiftr_2_div. lia. }
      exists (S n). split; [lia|]. split; [|split; [|split]].
      * intros [|i] Hi; [exact Ht|].
        replace (2 * Z.of_nat (S i)) with (2 + 2 * Z.of_nat i) by lia.
        rewrite <- Z.shiftr_shiftr by lia. apply Hlt. lia.
      * replace (2 * Z.of_nat (S n)) with (2 + 2 * Z.of_nat n) by lia.
        rewrite <- Z.shiftr_shiftr by lia. exact Hstop.
      * intros extra. cbn [Nat.add randomLevel_loop].
        unfold pair_clear in Ht. rewrite Ht, Hrun. lia.
      * intros _. destruct Hm as (m & Hm1 & Hm2).
        { rewrite shiftr_2_div. lia. }
        exists m. split; [|exact Hm2].
        rewrite pow4_succ, <- Z.mul_assoc, <- Hm1, shiftr_2_div. exact Hdiv.
    + exists 0%nat. split; [lia|]. split; [intros i Hi; lia|].
      split; [simpl; rewrite Z.shiftr_0_r; exact Ht|]. split.
      * intros extra. cbn [Nat.add randomLevel_loop].
        unfold pair_clear in Ht. rewrite Ht. lia.
      * intros Hnz. exists r. split; [simpl; lia|].
        unfold pair_clear in Ht. apply andb_false_iff in Ht as [Ht|Ht].
        -- apply negb_false_iff, Z.eqb_eq in Ht. lia.
        -- apply Z.eqb_neq in Ht. rewrite land_3_mod in Ht. exact Ht.
Qed.

Lemma u64_lt_pow4 (r : Z) : u64 r -> 0 <= r < 4 ^ Z.of_nat 32.
Proof. unfold u64, KEY_MAX. intros H. change (4 ^ Z.of_nat 32) with 18446744073709551616. lia. Qed.

Lemma randomLevel_le (r : Z) : (randomLevel r <= MaxLevel)%nat.
Proof. unfold randomLevel. case_bool_decide; lia. Qed.

(** C4: [randomLevel] maps a 64-bit seed to the number of rounds of its
    loop, capped at 15.  The loop runs while the seed is nonzero and its
    two low bits are clear, shifting by two each round; the number of rounds
    does not depend on the fuel, it is the exponent of 4 in a nonzero seed,
    the result lies in [0, 15], seed 0 gives 0 and a nonzero seed with at
    least 30 clear low pairs gives 15. *)
Theorem randomLevel_spec (r : Z) :
  u64 r ->
  (0 <= randomLevel r <= 15)%nat /\
  (exists n : nat,
      (forall i : nat, (i < n)%nat -> pair_clear (Z.shiftr r (2 * Z.of_nat i)) = true) /\
      pair_clear (Z.shiftr r (2 * Z.of_nat n)) = false /\
      (forall fuel : nat, (32 <= fuel)%nat -> randomLevel_loop fuel r 0 = n) /\
      (r <> 0 -> exists m : Z, r = 4 ^ Z.of_nat n * m /\ m mod 4 <> 0) /\
      randomLevel r = Nat.min n 15) /\
  (r = 0 -> randomLevel r = 0%nat) /\
  (r <> 0 -> (exists m : Z, r = 4 ^ 30 * m) -> randomLevel r = 15%nat).
Proof.
  intros Hu.
  destruct (randomLevel_loop_rounds 32 r 0 (u64_lt_pow4 r Hu))
    as (n & Hn & Hlt & Hstop & Hrun & Hm).
  assert (Hrl : randomLevel r = Nat.min n 15).
  { unfold randomLevel. rewrite <- (Nat.add_0_r 32), Hrun.
    unfold MaxLevel, MaxNumberOfLevels. change (16 - 1)%nat with 15%nat.
    case_bool_decide; lia. }
  split; [rewrite Hrl; lia|]. split; [|split].
  - exists n. split; [exact Hlt|]. split; [exact Hstop|]. split; [|split; [exact Hm|exact Hrl]].
    intros fuel Hf. replace fuel with (32 + (fuel - 32))%nat by lia. rewrite Hrun. lia.
  - intros ->. reflexivity.
  - intros Hnz [m' Hm']. destruct (Hm Hnz) as (m & Hm1 & Hm2).
    rewrite Hrl. destruct (decide (15 <= n)%nat) as [|Hsmall]; [lia|]. exfalso.
    assert (Hn30 : (n < 30)%nat) by lia.
    assert (Hpos : 0 < 4 ^ Z.of_nat n) by (apply Z.pow_pos_nonneg; lia).
    assert (Hsplit : 4 ^ 30 = 4 ^ Z.of_nat n * (4 * 4 ^ (29 - Z.of_nat n))).
    { rewrite <- (Z.pow_succ_r 4) by lia. rewrite <- Z.pow_add_r by lia. f_equal. lia. }
    rewrite Hsplit in Hm'. rewrite Hm' in Hm1.
    rewrite <- Z.mul_assoc in Hm1. apply Z.mul_reg_l in Hm1; [|lia].
    apply Hm2. rewrite <- Hm1, <- Z.mul_assoc, Z.mul_comm. apply Z.mod_mul. lia.
Qed.

(** The rule applied to a seed with thirty clear low pairs. *)
Lemma randomLevel_spec_witness :
  u64 (2 ^ 60) /\ randomLevel (2 ^ 60) = 15%nat.
Proof.
  assert (Hu : u64 (2 ^ 60)) by (unfold u64, KEY_MAX; simpl; lia).
  split; [exact Hu|].
  destruct (randomLevel_spec (2 ^ 60) Hu) as (_ & _ & _ & H).
  apply H; [simpl; lia|]. exists 1. reflexivity.
Defined.

End RandomLevel.

Section Access.

Implicit Types (h : heap) (a p q : addr) (k j : nat).

Lemma bind_Ok {A B} (r : result A) (f : A -> result B) (b : B) :
  r ≫= f = Ok b <-> exists x : A, r = Ok x /\ f x = Ok b.
Proof.
  destruct r as [x| |]; simpl; split; intros H; try discriminate; eauto.
  - destruct H as [x' [[= ->] H]]. exact H.
  - destruct H as [x' [[=] _]].
  - destruct H as [x' [[=] _]].
Qed.

Lemma of_option_Ok {A} (o : option A) (a : A) : of_option o = Ok a <-> o = Some a.
Proof. destruct o; simpl; split; intros; simplify_eq; done. Qed.

Lemma live_lookup h a : is_Some (fields h a) <-> is_Some (h !! a).
Proof. unfold fields. rewrite fmap_is_Some. done. Qed.

Lemma nxt_live h k a b : nxt h k a = Some b -> is_Some (fields h a).
Proof.
  unfold nxt. intros H. apply live_lookup.
  destruct (h !! a); [eauto | discriminate].
Qed.

Lemma prv_live h k a b : prv h k a = Some b -> is_Some (fields h a).
Proof.
  unfold prv. intros H. apply live_lookup.
  destruct (h !! a); [eauto | discriminate].
Qed.

Lemma load_next_nxt h p k : load_next h p k = of_option (nxt h k p).
Proof. unfold load_next, nxt. destruct (h !! p); reflexivity. Qed.

Lemma load_prev_prv h p k : load_prev h p k = of_option (prv h k p).
Proof. unfold load_prev, prv. destruct (h !! p); reflexivity. Qed.

Lemma load_key_at h p : is_Some (fields h p) -> load_key h p = Ok (key_at h p).
Proof.
  intros [n Hn]%live_lookup. unfold load_key, key_at. rewrite Hn. reflexivity.
Qed.

Lemma load_level_at h p : is_Some (fields h p) -> load_level h p = Ok (level_at h p).
Proof.
  intros [n Hn]%live_lookup. unfold load_level, level_at. rewrite Hn. reflexivity.
Qed.

Lemma key_at_fields h h' a : fields h' a = fields h a -> key_at h' a = key_at h a.
Proof.
  unfold fields, key_at. destruct (h' !! a), (h !! a); simpl; intros; simplify_eq; done.
Qed.

Lemma level_at_fields h h' a : fields h' a = fields h a -> level_at h' a = level_at h a.
Proof.
  unfold fields, level_at. destruct (h' !! a), (h !! a); simpl; intros; simplify_eq; done.
Qed.

Lemma fields_lookup h a lv ky v :
  fields h a = Some (lv, ky, v) <->
  exists n, h !! a = Some n /\ level n = lv /\ key n = ky /\ value n = v.
Proof.
  unfold fields. split.
  - destruct (h !! a) as [n|]; simpl; [|discriminate]. intros [= <- <- <-]. eauto.
  - intros (n & -> & <- & <- & <-). reflexivity.
Qed.

(** Two heaps with the same views are equal. *)
Lemma heap_ext h h' :
  (forall a, fields h' a = fields h a) ->
  (forall k a, nxt h' k a = nxt h k a) ->
  (forall k a, prv h' k a = prv h k a) ->
  h' = h.
Proof.
  intros Hf Hn Hp. apply map_eq. intros a.
  specialize (Hf a). pose proof (fun k => Hn k a) as Hna.
  pose proof (fun k => Hp k a) as Hpa.
  unfold fields, nxt, prv in *.
  destruct (h' !! a) as [[l1 k1 v1 n1 p1]|], (h !! a) as [[l2 k2 v2 n2 p2]|];
    simpl in *; try discriminate; [|done].
  injection Hf as -> -> ->. f_equal.
  f_equal; apply map_eq; assumption.
Qed.

(** Effect of a store into a [next] slot. *)
Lemma store_next_Ok h p k v :
  is_Some (fields h p) -> (k < MaxNumberOfLevels)%nat ->
  exists h', store_next h p k v = Ok h' /\
    (forall j a, nxt h' j a = if decide (j = k /\ a = p) then Some v else nxt h j a) /\
    (forall j a, prv h' j a = prv h j a) /\
    (forall a, fields h' a = fields h a).
Proof.
  intros [n Hn]%live_lookup Hk. unfold store_next. rewrite Hn. simpl.
  rewrite bool_decide_eq_true_2 by exact Hk.
  eexists. split; [reflexivity|]. split; [|split].
  - intros j a. unfold nxt. destruct (decide (j = k /\ a = p)) as [[-> ->]|Hd].
    + rewrite lookup_insert_eq. simpl. rewrite lookup_insert_eq. done.
    + destruct (decide (a = p)) as [->|Hne].
      * rewrite lookup_insert_eq, Hn. simpl. rewrite lookup_insert_ne; [done|naive_solver].
      * rewrite lookup_insert_ne by done. done.
  - intros j a. unfold prv. destruct (decide (a = p)) as [->|Hne].
    + rewrite lookup_insert_eq, Hn. done.
    + rewrite lookup_insert_ne by done. done.
  - intros a. unfold fields. destruct (decide (a = p)) as [->|Hne].
    + rewrite lookup_insert_eq, Hn. done.
    + rewrite lookup_insert_ne by done. done.
Qed.

Lemma store_prev_Ok h p k v :
  is_Some (fields h p) -> (k < MaxNumberOfLevels)%nat ->
  exists h', store_prev h p k v = Ok h' /\
    (forall j a, prv h' j a = if decide (j = k /\ a = p) then Some v else prv h j a) /\
    (forall j a, nxt h' j a = nxt h j a) /\
    (forall a, fields h' a = fields h a).
Proof.
  intros [n Hn]%live_lookup Hk. unfold store_prev. rewrite Hn. simpl.
  rewrite bool_decide_eq_true_2 by exact Hk.
  eexists. split; [reflexivity|]. split; [|split].
  - intros j a. unfold prv. destruct (decide (j = k /\ a = p)) as [[-> ->]|Hd].
    + rewrite lookup_insert_eq. simpl. rewrite lookup_insert_eq. done.
    + destruct (decide (a = p)) as [->|Hne].
      * rewrite lookup_insert_eq, Hn. simpl. rewrite lookup_insert_ne; [done|naive_solver].
      * rewrite lookup_insert_ne by done. done.
  - intros j a. unfold nxt. destruct (decide (a = p)) as [->|Hne].
    + rewrite lookup_insert_eq, Hn. done.
    + rewrite lookup_insert_ne by done. done.
  - intros a. unfold fields. destruct (decide (a = p)) as [->|Hne].
    + rewrite lookup_insert_eq, Hn. done.
    + rewrite lookup_insert_ne by done. done.
Qed.

(** Allocation followed by the three field stores. *)
Lemma new_fields_Ok h a lv ky v :
  h !! a = None ->
  exists h0 h1, newNode h a = Ok h0 /\ store_fields h0 a lv ky v = Ok h1 /\
    (forall x, fields h1 x = if decide (x = a) then Some (lv, ky, v) else fields h x) /\
    (forall j x, nxt h1 j x = nxt h j x) /\
    (forall j x, prv h1 j x = prv h j x).
Proof.
  intros Hfree. unfold newNode, store_fields. rewrite Hfree.
  eexists. eexists. split; [reflexivity|]. rewrite lookup_insert_eq. simpl.
  rewrite insert_insert_eq. split; [reflexivity|].
  split; [|split]; intros; unfold fields, nxt, prv.
  - case_decide; subst; rewrite ?lookup_insert_eq, ?lookup_insert_ne by done; done.
  - destruct (decide (x = a)) as [->|Hne].
    + rewrite lookup_insert_eq, Hfree. done.
    + rewrite lookup_insert_ne by done. done.
  - destruct (decide (x = a)) as [->|Hne].
    + rewrite lookup_insert_eq, Hfree. done.
    + rewrite lookup_insert_ne by done. done.
Qed.

(** Views of a heap from which a node was freed. *)
Lemma delete_views h d :
  (forall x, fields (delete d h) x = if decide (x = d) then None else fields h x) /\
  (forall j x, nxt (delete d h) j x = if decide (x = d) then None else nxt h j x) /\
  (forall j x, prv (delete d h) j x = if decide (x = d) then None else prv h j x).
Proof.
  split; [|split]; intros; unfold fields, nxt, prv;
    case_decide; subst; rewrite ?lookup_delete_eq, ?lookup_delete_ne by done; done.
Qed.

Lemma fields_None h a : h !! a = None <-> fields h a = None.
Proof. unfold fields. rewrite fmap_None. done. Qed.

Lemma nxt_dead h k a : fields h a = None -> nxt h k a = None.
Proof. intros H%fields_None. unfold nxt. rewrite H. done. Qed.

Lemma prv_dead h k a : fields h a = None -> prv h k a = None.
Proof. intros H%fields_None. unfold prv. rewrite H. done. Qed.

End Access.

Section Links.

Variables nx pv : addr -> option addr.
Implicit Types (x y z p q a : addr) (l c : list addr).

Lemma endof_cons x y l : endof x (y :: l) = endof y l.
Proof.
  unfold endof. destruct l as [|y' l]; [reflexivity|].
  rewrite last_cons. destruct (last (y' :: l)) eqn:E; [reflexivity|].
  apply last_None in E. discriminate.
Qed.

Lemma endof_snoc x l y : endof x (l ++ [y]) = y.
Proof. unfold endof. rewrite last_snoc. reflexivity. Qed.

Lemma endof_elem x l : endof x l ∈ x :: l.
Proof.
  revert x. induction l as [|y l IH]; intros x.
  - left.
  - rewrite endof_cons. right. apply IH.
Qed.

Lemma startof_elem z l : startof z l ∈ l ++ [z].
Proof. destruct l; simpl; left. Qed.

Lemma links_ext nx' pv' x l z :
  (forall a, a ∈ x :: l -> nx' a = nx a) ->
  (forall a, a ∈ l ++ [z] -> pv' a = pv a) ->
  links nx pv x l z -> links nx' pv' x l z.
Proof.
  revert x. induction l as [|y l IH]; intros x Hn Hp; simpl.
  - intros [H1 H2]. rewrite Hn, Hp by set_solver. done.
  - intros (H1 & H2 & H3). rewrite Hn, Hp by set_solver.
    split; [done|]. split; [done|]. apply IH; [| |done].
    + intros a Ha. apply Hn. set_solver.
    + intros a Ha. apply Hp. set_solver.
Qed.

(** The edge that leaves a prefix of the chain. *)
Lemma links_edge x c1 c2 z :
  links nx pv x (c1 ++ c2) z ->
  nx (endof x c1) = Some (startof z c2) /\ pv (startof z c2) = Some (endof x c1).
Proof.
  revert x. induction c1 as [|y c1 IH]; intros x; simpl.
  - destruct c2 as [|n c2]; simpl; naive_solver.
  - intros (_ & _ & H). rewrite endof_cons. apply IH, H.
Qed.

Lemma links_around x c1 d c2 z :
  links nx pv x (c1 ++ d :: c2) z ->
  pv d = Some (endof x c1) /\ nx d = Some (startof z c2).
Proof.
  intros H. split.
  - apply (links_edge x c1 (d :: c2) z) in H. apply H.
  - replace (c1 ++ d :: c2) with ((c1 ++ [d]) ++ c2) in H by (rewrite <- app_assoc; done).
    apply links_edge in H. rewrite endof_snoc in H. apply H.
Qed.

(** Linking [q] in after the prefix [c1]. *)
Lemma links_insert nx' pv' x c1 c2 z q :
  links nx pv x (c1 ++ c2) z ->
  NoDup (x :: c1 ++ c2) -> z ∉ c1 ++ c2 -> q ∉ x :: c1 ++ c2 -> q <> z ->
  (forall a, nx' a = if decide (a = endof x c1) then Some q
                     else if decide (a = q) then Some (startof z c2) else nx a) ->
  (forall a, pv' a = if decide (a = startof z c2) then Some q
                     else if decide (a = q) then Some (endof x c1) else pv a) ->
  links nx' pv' x (c1 ++ q :: c2) z.
Proof.
  revert x. induction c1 as [|y c1 IH]; intros x Hl Hnd Hz Hq Hqz Hnx Hpv.
  - simpl in *. change (endof x []) with x in *.
    assert (Hsq : startof z c2 <> q).
    { pose proof (startof_elem z c2) as He. set_solver. }
    split; [rewrite Hnx, decide_True; done|].
    split; [rewrite Hpv, decide_False, decide_True; done|].
    destruct c2 as [|n c2]; simpl in *.
    + split.
      * rewrite Hnx, decide_False, decide_True; [done..|set_solver].
      * rewrite Hpv, decide_True; done.
    + destruct Hl as (H1 & H2 & H3).
      split; [rewrite Hnx, decide_False, decide_True; [done..|set_solver]|].
      split; [rewrite Hpv, decide_True; done|].
      apply NoDup_cons in Hnd as [Hx Hnd]. apply NoDup_cons in Hnd as [Hn Hnd].
      eapply links_ext; [| |exact H3].
      * intros a Ha. rewrite Hnx, !decide_False; [done|set_solver..].
      * intros a Ha. rewrite Hpv, !decide_False; [done|set_solver..].
  - simpl in *. rewrite endof_cons in Hnx, Hpv.
    destruct Hl as (H1 & H2 & H3).
    apply NoDup_cons in Hnd as [Hx Hnd].
    pose proof (endof_elem y c1) as Hend.
    pose proof (startof_elem z c2) as Hst.
    assert (Hy : y ∉ c1 ++ c2) by (apply NoDup_cons in Hnd; tauto).
    split; [rewrite Hnx, !decide_False; [done|set_solver..]|].
    split; [rewrite Hpv, !decide_False; [done|set_solver..]|].
    apply IH; try done; set_solver.
Qed.

(** Taking [d] out of the chain. *)
Lemma links_delete nx' pv' x c1 d c2 z :
  links nx pv x (c1 ++ d :: c2) z ->
  NoDup (x :: c1 ++ d :: c2) -> z ∉ c1 ++ d :: c2 ->
  (forall a, a <> d ->
     nx' a = if decide (a = endof x c1) then Some (startof z c2) else nx a) ->
  (forall a, a <> d ->
     pv' a = if decide (a = startof z c2) then Some (endof x c1) else pv a) ->
  links nx' pv' x (c1 ++ c2) z.
Proof.
  revert x. induction c1 as [|y c1 IH]; intros x Hl Hnd Hz Hnx Hpv.
  - simpl in *. change (endof x []) with x in *.
    destruct Hl as (H1 & H2 & H3).
    apply NoDup_cons in Hnd as [Hx Hnd]. apply NoDup_cons in Hnd as [Hd Hnd].
    assert (Hxd : x <> d) by set_solver.
    assert (Hzd : z <> d) by set_solver.
    destruct c2 as [|n c2]; simpl in *.
    + split; [rewrite Hnx, decide_True; done|rewrite Hpv, decide_True; done].
    + destruct H3 as (H3 & H4 & H5).
      assert (Hnd' : n <> d) by set_solver.
      split; [rewrite Hnx, decide_True; done|].
      split; [rewrite Hpv, decide_True; done|].
      apply NoDup_cons in Hnd as [Hn Hnd].
      eapply links_ext; [| |exact H5].
      * intros a Ha. rewrite Hnx, decide_False; [done|set_solver..].
      * intros a Ha. rewrite Hpv, decide_False; [done|set_solver..].
  - simpl in *. rewrite endof_cons in Hnx, Hpv.
    destruct Hl as (H1 & H2 & H3).
    apply NoDup_cons in Hnd as [Hx Hnd].
    pose proof (endof_elem y c1) as Hend.
    pose proof (startof_elem z c2) as Hst.
    assert (Hy : y ∉ c1 ++ d :: c2) by (apply NoDup_cons in Hnd; tauto).
    split; [rewrite Hnx, decide_False; [done|set_solver..]|].
    split; [rewrite Hpv, decide_False; [done|set_solver..]|].
    apply IH; try done; set_solver.
Qed.

(** Every node of a chain has its two slots set, and they stay in it. *)
Lemma links_closed x l z a :
  links nx pv x l z -> a ∈ x :: l ->
  exists b, nx a = Some b /\ b ∈ l ++ [z].
Proof.
  revert x. induction l as [|y l IH]; intros x; simpl.
  - intros [H1 _] Ha. assert (a = x) as -> by set_solver. exists z. set_solver.
  - intros (H1 & H2 & H3) Ha. apply elem_of_cons in Ha as [->|Ha].
    + exists y. set_solver.
    + destruct (IH y H3 Ha) as (b & Hb1 & Hb2). exists b. set_solver.
Qed.

End Links.

Section Loops.

Implicit Types (h : heap) (a p q d : addr) (k j : nat).

Lemma splice_step_Ok h q update k p pn :
  update !! k = Some p -> nxt h k p = Some pn ->
  is_Some (fields h q) -> is_Some (fields h pn) ->
  (k < MaxNumberOfLevels)%nat -> q <> p -> q <> pn ->
  exists h', splice_step h q update k = Ok h' /\
    (forall j a, nxt h' j a =
       if decide (j = k) then spliced_nxt (nxt h j) p q a else nxt h j a) /\
    (forall j a, prv h' j a =
       if decide (j = k) then spliced_prv (nxt h j) (prv h j) p q a else prv h j a) /\
    (forall a, fields h' a = fields h a).
Proof.
  intros Hu Hpn Hq Hn Hk Hqp Hqn. unfold splice_step.
  rewrite Hu. simpl. rewrite load_next_nxt, Hpn. simpl.
  destruct (store_next_Ok h q k pn Hq Hk) as (h1 & -> & N1 & P1 & F1). simpl.
  assert (Hp1 : is_Some (fields h1 p)) by (rewrite F1; eapply nxt_live, Hpn).
  destruct (store_next_Ok h1 p k q Hp1 Hk) as (h2 & -> & N2 & P2 & F2). simpl.
  assert (Hq2 : is_Some (fields h2 q)) by (rewrite F2, F1; done).
  destruct (store_prev_Ok h2 q k p Hq2 Hk) as (h3 & -> & P3 & N3 & F3). simpl.
  rewrite load_next_nxt, N3, N2, decide_False, N1, decide_True by naive_solver. simpl.
  assert (Hn3 : is_Some (fields h3 pn)) by (rewrite F3, F2, F1; done).
  destruct (store_prev_Ok h3 pn k q Hn3 Hk) as (h4 & -> & P4 & N4 & F4).
  exists h4. split; [done|]. split; [|split].
  - intros j a. rewrite N4, N3, N2, N1. unfold spliced_nxt.
    destruct (decide (j = k)) as [->|Hjk]; [rewrite Hpn|];
      repeat case_decide; naive_solver.
  - intros j a. rewrite P4, P3, P2, P1. unfold spliced_prv.
    destruct (decide (j = k)) as [->|Hjk]; [rewrite Hpn|];
      repeat case_decide; naive_solver.
  - intros a. rewrite F4, F3, F2, F1. done.
Qed.

Lemma splice_Ok (K : nat) : forall h q update,
  (forall j, (j <= K)%nat -> exists p pn,
      update !! j = Some p /\ nxt h j p = Some pn /\ is_Some (fields h pn) /\
      q <> p /\ q <> pn) ->
  is_Some (fields h q) -> (K < MaxNumberOfLevels)%nat ->
  exists h', splice h q update K = Ok h' /\
    (forall j p, (j <= K)%nat -> update !! j = Some p ->
       forall a, nxt h' j a = spliced_nxt (nxt h j) p q a /\
                 prv h' j a = spliced_prv (nxt h j) (prv h j) p q a) /\
    (forall j, (K < j)%nat -> forall a, nxt h' j a = nxt h j a /\ prv h' j a = prv h j a) /\
    (forall a, fields h' a = fields h a).
Proof.
  induction K as [|K IH]; intros h q update Hpre Hq HK.
  - destruct (Hpre 0%nat) as (p & pn & Hu & Hpn & Hn & Hqp & Hqn); [lia|].
    destruct (splice_step_Ok h q update 0 p pn) as (h' & Hs & N & P & F); try done.
    exists h'. simpl. rewrite Hs. simpl. split; [done|]. split; [|split; [|done]].
    + intros j p' Hj Hu' a. assert (j = 0%nat) as -> by lia.
      rewrite Hu in Hu'. injection Hu' as <-. rewrite N, P, !decide_True by done. done.
    + intros j Hj a. rewrite N, P, !decide_False by lia. done.
  - destruct (Hpre (S K)) as (p & pn & Hu & Hpn & Hn & Hqp & Hqn); [lia|].
    destruct (splice_step_Ok h q update (S K) p pn) as (h1 & Hs & N & P & F); try done.
    destruct (IH h1 q update) as (h' & Hs' & Hlow & Hhigh & F').
    { intros j Hj. destruct (Hpre j) as (p' & pn' & ? & ? & ? & ? & ?); [lia|].
      exists p', pn'. rewrite N, F, decide_False by lia. done. }
    { rewrite F. done. }
    { lia. }
    exists h'. cbn [splice]. rewrite Hs. simpl. rewrite Hs'.
    split; [done|]. split; [|split].
    + intros j p' Hj Hu' a. destruct (decide (j = S K)) as [->|Hne].
      * rewrite Hu in Hu'. injection Hu' as <-.
        destruct (Hhigh (S K) ltac:(lia) a) as [-> ->].
        rewrite N, P, !decide_True by done. done.
      * destruct (Hlow j p' ltac:(lia) Hu' a) as [-> ->].
        assert (HN : forall x, nxt h1 j x = nxt h j x)
          by (intros x; rewrite N, decide_False by done; done).
        assert (HP : forall x, prv h1 j x = prv h j x)
          by (intros x; rewrite P, decide_False by done; done).
        unfold spliced_nxt, spliced_prv. rewrite !HN, !HP. done.
    + intros j Hj a. destruct (Hhigh j ltac:(lia) a) as [-> ->].
      rewrite N, P, !decide_False by lia. done.
    + intros a. rewrite F', F. done.
Qed.

Lemma unlink_step_Ok h d k p n :
  prv h k d = Some p -> nxt h k d = Some n ->
  is_Some (fields h p) -> is_Some (fields h n) -> p <> d ->
  (k < MaxNumberOfLevels)%nat ->
  exists h', unlink_step h d k = Ok h' /\
    (forall j a, nxt h' j a =
       if decide (j = k) then unlinked_nxt (nxt h j) (prv h j) d a else nxt h j a) /\
    (forall j a, prv h' j a =
       if decide (j = k) then unlinked_prv (nxt h j) (prv h j) d a else prv h j a) /\
    (forall a, fields h' a = fields h a).
Proof.
  intros Hp Hn Lp Ln Hpd Hk. unfold unlink_step.
  rewrite load_prev_prv, Hp. simpl. rewrite load_next_nxt, Hn. simpl.
  destruct (store_next_Ok h p k n Lp Hk) as (h1 & -> & N1 & P1 & F1). simpl.
  rewrite load_next_nxt, N1, decide_False, Hn by naive_solver. simpl.
  rewrite load_prev_prv, P1, Hp. simpl.
  assert (Ln1 : is_Some (fields h1 n)) by (rewrite F1; done).
  destruct (store_prev_Ok h1 n k p Ln1 Hk) as (h2 & -> & P2 & N2 & F2).
  exists h2. split; [done|]. split; [|split].
  - intros j a. rewrite N2, N1. unfold unlinked_nxt.
    destruct (decide (j = k)) as [->|Hjk].
    + rewrite Hp, Hn. repeat case_decide; naive_solver.
    + rewrite decide_False by naive_solver. done.
  - intros j a. rewrite P2, P1. unfold unlinked_prv.
    destruct (decide (j = k)) as [->|Hjk].
    + rewrite Hp, Hn. repeat case_decide; naive_solver.
    + rewrite decide_False by naive_solver. done.
  - intros a. rewrite F2, F1. done.
Qed.

Lemma unlink_Ok (cnt : nat) : forall h d k0,
  (forall j, (k0 <= j < k0 + cnt)%nat -> exists p n,
      prv h j d = Some p /\ nxt h j d = Some n /\
      is_Some (fields h p) /\ is_Some (fields h n) /\ p <> d) ->
  (k0 + cnt <= MaxNumberOfLevels)%nat ->
  exists h', unlink h d k0 cnt = Ok h' /\
    (forall j a, nxt h' j a =
       if decide (k0 <= j < k0 + cnt)%nat
       then unlinked_nxt (nxt h j) (prv h j) d a else nxt h j a) /\
    (forall j a, prv h' j a =
       if decide (k0 <= j < k0 + cnt)%nat
       then unlinked_prv (nxt h j) (prv h j) d a else prv h j a) /\
    (forall a, fields h' a = fields h a).
Proof.
  induction cnt as [|cnt IH]; intros h d k0 Hpre Hb.
  - exists h. simpl. split; [done|].
    split; [|split; [|done]]; intros j a; rewrite decide_False by lia; done.
  - destruct (Hpre k0) as (p & n & Hp & Hn & Lp & Ln & Hpd); [lia|].
    destruct (unlink_step_Ok h d k0 p n) as (h1 & Hs & N & P & F); try done; [lia|].
    destruct (IH h1 d (S k0)) as (h' & Hs' & N' & P' & F').
    { intros j Hj. destruct (Hpre j) as (p' & n' & ? & ? & ? & ? & ?); [lia|].
      exists p', n'. rewrite N, P, !F, !decide_False by lia. done. }
    { lia. }
    exists h'. cbn [unlink]. rewrite Hs. simpl. rewrite Hs'.
    split; [done|]. split; [|split].
    + intros j a. rewrite N'. destruct (decide (j = k0)) as [->|Hne].
      * rewrite decide_False, decide_True by lia. rewrite N, decide_True by done. done.
      * destruct (decide (S k0 <= j < S k0 + cnt)%nat).
        -- rewrite decide_True by lia.
           assert (HN : forall x, nxt h1 j x = nxt h j x)
             by (intros x; rewrite N, decide_False by done; done).
           assert (HP : forall x, prv h1 j x = prv h j x)
             by (intros x; rewrite P, decide_False by done; done).
           unfold unlinked_nxt. rewrite !HN, !HP. done.
        -- rewrite decide_False by lia. rewrite N, decide_False by done. done.
    + intros j a. rewrite P'. destruct (decide (j = k0)) as [->|Hne].
      * rewrite decide_False, decide_True by lia. rewrite P, decide_True by done. done.
      * destruct (decide (S k0 <= j < S k0 + cnt)%nat).
        -- rewrite decide_True by lia.
           assert (HN : forall x, nxt h1 j x = nxt h j x)
             by (intros x; rewrite N, decide_False by done; done).
           assert (HP : forall x, prv h1 j x = prv h j x)
             by (intros x; rewrite P, decide_False by done; done).
           unfold unlinked_prv. rewrite !HN, !HP. done.
        -- rewrite decide_False by lia. rewrite P, decide_False by done. done.
    + intros a. rewrite F', F. done.
Qed.

(** The height loop stops at the highest level whose chain is not empty. *)
Lemma shrink_spec h s (m : nat) :
  (forall j, (j <= m)%nat -> is_Some (nxt h j s) /\ is_Some (prv h j s)) ->
  exists m', shrink h s s m = Ok m' /\ (m' <= m)%nat /\
    (forall j, (m' < j <= m)%nat -> nxt h j s = Some s /\ prv h j s = Some s) /\
    (m' = 0%nat \/ ~ (nxt h m' s = Some s /\ prv h m' s = Some s)).
Proof.
  induction m as [|m IH]; intros Hpre.
  - destruct (Hpre 0%nat) as [[x Hx] [y Hy]]; [lia|].
    exists 0%nat. split; [|split; [lia|split; [intros; lia|left; done]]].
    simpl. rewrite load_next_nxt, Hx. simpl. case_bool_decide; [|done].
    rewrite load_prev_prv, Hy. simpl. case_bool_decide; done.
  - destruct (Hpre (S m)) as [[x Hx] [y Hy]]; [lia|].
    cbn [shrink]. rewrite load_next_nxt, Hx. simpl.
    case_bool_decide as Hxs.
    + rewrite load_prev_prv, Hy. simpl. case_bool_decide as Hys.
      * destruct IH as (m' & Hs & Hle & Hemp & Htop).
        { intros j Hj. apply Hpre. lia. }
        exists m'. split; [done|]. split; [lia|]. split; [|done].
        intros j Hj. destruct (decide (j = S m)) as [->|Hne].
        -- subst. done.
        -- apply Hemp. lia.
      * exists (S m). split; [done|]. split; [lia|]. split; [intros; lia|].
        right. rewrite Hy. intros [_ [=]]. done.
    + exists (S m). split; [done|]. split; [lia|]. split; [intros; lia|].
      right. rewrite Hx. intros [[=] _]. done.
Qed.

End Loops.

Section Search.

Implicit Types (h : heap) (s a p q d : addr) (k j : nat) (c l : list addr).

Lemma sorted_keys_app h l1 l2 :
  StronglySorted Z.le (key_at h <$> (l1 ++ l2)) <->
  (forall x y, x ∈ l1 -> y ∈ l2 -> key_at h x <= key_at h y) /\
  StronglySorted Z.le (key_at h <$> l1) /\ StronglySorted Z.le (key_at h <$> l2).
Proof.
  rewrite fmap_app, StronglySorted_app. split.
  - intros (H1 & H2 & H3). split; [|done].
    intros x y Hx Hy. apply H1; apply list_elem_of_fmap; eauto.
  - intros (H1 & H2 & H3). split; [|done].
    intros x y (x' & -> & Hx)%list_elem_of_fmap (y' & -> & Hy)%list_elem_of_fmap.
    apply H1; done.
Qed.

Lemma sorted_keys_cons h x l :
  StronglySorted Z.le (key_at h <$> (x :: l)) <->
  Forall (fun y => key_at h x <= key_at h y) l /\
  StronglySorted Z.le (key_at h <$> l).
Proof.
  rewrite fmap_cons, StronglySorted_cons, Forall_fmap. done.
Qed.

Lemma sorted_keys_tail_gt h ky l1 x l2 :
  StronglySorted Z.le (key_at h <$> (l1 ++ x :: l2)) ->
  ky < key_at h x -> keys_gt h ky (x :: l2).
Proof.
  intros (_ & _ & H)%sorted_keys_app Hx.
  apply sorted_keys_cons in H as [H _].
  constructor; [done|]. eapply Forall_impl; [exact H|]. simpl. intros; lia.
Qed.

Lemma sorted_keys_head_le h l1 x l2 :
  StronglySorted Z.le (key_at h <$> (l1 ++ x :: l2)) ->
  keys_le h (key_at h x) l1.
Proof.
  intros (H & _ & _)%sorted_keys_app. apply Forall_forall.
  intros y Hy. apply H; [done|left].
Qed.

Lemma sorted_keys_insert h ky l1 q l2 :
  StronglySorted Z.le (key_at h <$> (l1 ++ l2)) ->
  keys_le h ky l1 -> keys_gt h ky l2 -> key_at h q = ky ->
  StronglySorted Z.le (key_at h <$> (l1 ++ q :: l2)).
Proof.
  intros (H1 & H2 & H3)%sorted_keys_app Hle Hgt Hq.
  unfold keys_le, keys_gt in *. rewrite Forall_forall in Hle, Hgt.
  apply sorted_keys_app. split; [|split; [done|]].
  - intros x y Hx [->|Hy]%elem_of_cons.
    + rewrite Hq. apply Hle, Hx.
    + apply H1; done.
  - apply sorted_keys_cons. split; [|done].
    apply Forall_forall. intros y Hy. rewrite Hq. specialize (Hgt y Hy). lia.
Qed.

Lemma sorted_keys_delete h l1 d l2 :
  StronglySorted Z.le (key_at h <$> (l1 ++ d :: l2)) ->
  StronglySorted Z.le (key_at h <$> (l1 ++ l2)).
Proof.
  intros (H1 & H2 & H3)%sorted_keys_app. apply sorted_keys_app.
  apply sorted_keys_cons in H3 as [_ H3]. split; [|done].
  intros x y Hx Hy. apply H1; [done|right; done].
Qed.

Lemma sorted_keys_ext h h' l :
  (forall a, a ∈ l -> key_at h' a = key_at h a) ->
  StronglySorted Z.le (key_at h <$> l) -> StronglySorted Z.le (key_at h' <$> l).
Proof.
  intros H Hs. replace (key_at h' <$> l) with (key_at h <$> l); [done|].
  apply list_fmap_ext. intros i x Hx. symmetry. apply H.
  eapply list_elem_of_lookup_2, Hx.
Qed.

Lemma chain_live h s k c a : chain h s k c -> a ∈ c -> is_Some (fields h a).
Proof.
  intros Hc Ha. apply (chain_mem _ _ _ _ Hc) in Ha as (_ & lv & ky & v & Hn & _).
  rewrite Hn. eauto.
Qed.

Lemma sentinel_live h s lv ky v : fields h s = Some (lv, ky, v) -> is_Some (fields h s).
Proof. intros ->. eauto. Qed.

Lemma sentinel_key h s lv ky v : fields h s = Some (lv, ky, v) -> key_at h s = ky.
Proof.
  intros (n & Hn & _ & <- & _)%fields_lookup. unfold key_at. rewrite Hn. done.
Qed.

Lemma fields_key_at h a lv ky v : fields h a = Some (lv, ky, v) -> key_at h a = ky.
Proof.
  intros (n & Hn & _ & <- & _)%fields_lookup. unfold key_at. rewrite Hn. done.
Qed.

(** The inner loop, started at the end of a prefix of small keys, stops at
    the end of the longest such prefix. *)
Lemma search_level_spec h s k ky c :
  chain h s k c -> fields h s = Some (0%nat, KEY_MAX, NULL) -> ky < KEY_MAX ->
  forall l2 l1, c = l1 ++ l2 -> keys_le h ky l1 ->
  exists c1 c2, c = c1 ++ c2 /\ keys_le h ky c1 /\ keys_gt h ky c2 /\
    forall fuel, (length l2 < fuel)%nat ->
      search_level fuel h k ky (endof s l1) = Ok (endof s c1).
Proof.
  intros Hc Hs Hky. induction l2 as [|n b IH]; intros a Hca Hle.
  - exists a, []. split; [done|]. split; [done|]. split; [constructor|].
    intros [|fuel] Hf; [simpl in Hf; lia|]. simpl.
    pose proof (chain_links _ _ _ _ Hc) as Hl. rewrite Hca in Hl.
    apply links_edge in Hl as [Hl _]. change (startof s []) with s in Hl.
    rewrite load_next_nxt, Hl. simpl.
    rewrite load_key_at by (eapply sentinel_live, Hs). simpl.
    rewrite (sentinel_key _ _ _ _ _ Hs).
    destruct (KEY_MAX <=? ky) eqn:E; [apply Z.leb_le in E; lia|done].
  - pose proof (chain_links _ _ _ _ Hc) as Hl. rewrite Hca in Hl.
    apply links_edge in Hl as [Hl _]. change (startof s (n :: b)) with n in Hl.
    assert (Hn : is_Some (fields h n)).
    { eapply chain_live; [exact Hc|]. rewrite Hca. set_solver. }
    destruct (decide (key_at h n <= ky)) as [Hnk|Hnk].
    + destruct (IH (a ++ [n])) as (c1 & c2 & H1 & H2 & H3 & H4).
      { rewrite <- app_assoc. done. }
      { apply Forall_app. split; [done|]. constructor; [done|constructor]. }
      exists c1, c2. split; [done|]. split; [done|]. split; [done|].
      intros [|fuel] Hf; [simpl in Hf; lia|]. simpl.
      rewrite load_next_nxt, Hl. simpl. rewrite load_key_at by done. simpl.
      destruct (key_at h n <=? ky) eqn:E; [|apply Z.leb_gt in E; lia].
      rewrite endof_snoc in H4. apply H4. simpl in Hf. lia.
    + exists a, (n :: b). split; [done|]. split; [done|]. split.
      { eapply sorted_keys_tail_gt; [|lia]. rewrite <- Hca. apply (chain_sorted _ _ _ _ Hc). }
      intros [|fuel] Hf; [simpl in Hf; lia|]. simpl.
      rewrite load_next_nxt, Hl. simpl. rewrite load_key_at by done. simpl.
      destruct (key_at h n <=? ky) eqn:E; [apply Z.leb_le in E; lia|done].
Qed.

Lemma search_level_mono (fuel : nat) : forall fuel' h k ky p r,
  (fuel <= fuel')%nat ->
  search_level fuel h k ky p = Ok r -> search_level fuel' h k ky p = Ok r.
Proof.
  induction fuel as [|fuel IH]; intros fuel' h k ky p r Hf; [discriminate|].
  destruct fuel' as [|fuel']; [lia|]. simpl.
  destruct (load_next h p k) as [q| |]; simpl; try discriminate.
  destruct (load_key h q) as [qk| |]; simpl; try discriminate.
  destruct (qk <=? ky); [|done]. apply IH. lia.
Qed.

Lemma search_mono (k : nat) : forall fuel fuel' h ky p update r,
  (fuel <= fuel')%nat ->
  search fuel h ky k p update = Ok r -> search fuel' h ky k p update = Ok r.
Proof.
  induction k as [|k IH]; intros fuel fuel' h ky p update r Hf; cbn [search].
  - destruct (search_level fuel h 0 ky p) as [p'| |] eqn:E; simpl; try discriminate.
    rewrite (search_level_mono _ _ _ _ _ _ _ Hf E). done.
  - destruct (search_level fuel h (S k) ky p) as [p'| |] eqn:E; simpl; try discriminate.
    rewrite (search_level_mono _ _ _ _ _ _ _ Hf E). simpl.
    destruct (store_update update (S k) p') as [u| |]; simpl; try discriminate.
    apply IH. done.
Qed.

Lemma skiplist_insert_mono fuel fuel' s st ky val r a x :
  (fuel <= fuel')%nat ->
  skiplist_insert fuel s st ky val r a = Ok x ->
  skiplist_insert fuel' s st ky val r a = Ok x.
Proof.
  intros Hf. unfold skiplist_insert.
  destruct (search fuel (mem st) ky (lst_level (lst st)) s ∅) as [u| |] eqn:E;
    simpl; try discriminate.
  rewrite (search_mono _ _ _ _ _ _ _ _ Hf E). done.
Qed.

(** With a key that is not below the sentinel's, the inner loop goes
    round the chain for ever. *)
Lemma search_level_diverges h s k ky c :
  chain h s k c -> fields h s = Some (0%nat, KEY_MAX, NULL) ->
  (forall a lv ka v, fields h a = Some (lv, ka, v) -> ka <= KEY_MAX) -> KEY_MAX <= ky ->
  forall fuel p, p ∈ s :: c -> search_level fuel h k ky p = Timeout.
Proof.
  intros Hc Hs Hkeys Hky. induction fuel as [|fuel IH]; intros p Hp; [done|].
  simpl. destruct (links_closed _ _ _ _ _ _ (chain_links _ _ _ _ Hc) Hp) as (b & Hb1 & Hb2).
  rewrite load_next_nxt, Hb1. simpl.
  assert (Hb : b ∈ s :: c) by set_solver.
  assert (Lb : is_Some (fields h b)).
  { apply elem_of_cons in Hb as [->|Hb]; [eapply sentinel_live, Hs|eapply chain_live; done]. }
  rewrite load_key_at by done. simpl.
  destruct (key_at h b <=? ky) eqn:E; [apply IH, Hb|].
  apply Z.leb_gt in E. destruct Lb as [[[lv kb] vb] Hn].
  rewrite (fields_key_at _ _ _ _ _ Hn) in E. specialize (Hkeys _ _ _ _ Hn). lia.
Qed.

Lemma search_level_total h s k ky p :
  fields h s = Some (0%nat, KEY_MAX, NULL) -> ky < KEY_MAX ->
  (exists c, chain h s k c) ->
  (forall c, chain h s k c -> starts h s ky c p) ->
  exists fuel0 p',
    (forall fuel, (fuel0 <= fuel)%nat -> search_level fuel h k ky p = Ok p') /\
    (forall c, chain h s k c -> splits h s ky c p').
Proof.
  intros Hs Hky [c0 Hc0] Hst.
  destruct (Hst c0 Hc0) as (l1 & l2 & E0 & Hle0 & ->).
  destruct (search_level_spec h s k ky c0 Hc0 Hs Hky l2 l1 E0 Hle0)
    as (c1 & c2 & E1 & Hle1 & Hgt1 & Hrun).
  exists (S (length l2)), (endof s c1). split; [intros fuel Hf; apply Hrun; lia|].
  intros c Hc. destruct (Hst c Hc) as (l1' & l2' & E0' & Hle0' & Hp).
  destruct (search_level_spec h s k ky c Hc Hs Hky l2' l1' E0' Hle0')
    as (c1' & c2' & E1' & Hle1' & Hgt1' & Hrun').
  exists c1', c2'. split; [done|]. split; [done|]. split; [done|].
  specialize (Hrun (S (length l2 + length l2')) ltac:(lia)).
  specialize (Hrun' (S (length l2 + length l2')) ltac:(lia)).
  rewrite <- Hp, Hrun in Hrun'. congruence.
Qed.

(** The node reached on one level is where the search of the level below
    sets out. *)
Lemma search_descend h s k ky p :
  (exists c, chain h s (S k) c) ->
  (forall c, chain h s (S k) c -> splits h s ky c p) ->
  forall c, chain h s k c -> starts h s ky c p.
Proof.
  intros [cS HcS] Hsp c Hc.
  destruct (Hsp cS HcS) as (c1 & c2 & E & Hle & Hgt & ->).
  destruct c1 as [|x c1 _] using rev_ind.
  - exists [], c. split; [done|]. split; [constructor|done].
  - rewrite endof_snoc.
    assert (HxS : x ∈ cS) by (rewrite E; set_solver).
    apply (chain_mem _ _ _ _ HcS) in HxS as (Hxs & lv & kx & vx & Hn & Hlv).
    assert (Hx : x ∈ c).
    { apply (chain_mem _ _ _ _ Hc). split; [done|]. exists lv, kx, vx. split; [done|lia]. }
    apply list_elem_of_split in Hx as (a0 & b0 & ->).
    exists (a0 ++ [x]), b0. split; [rewrite <- app_assoc; done|].
    split; [|rewrite endof_snoc; done].
    apply Forall_app in Hle as [_ Hx]. rewrite Forall_singleton in Hx.
    apply Forall_app. split; [|constructor; [exact Hx|constructor]].
    pose proof (sorted_keys_head_le _ _ _ _ (chain_sorted _ _ _ _ Hc)) as Hh.
    eapply Forall_impl; [exact Hh|]. simpl. intros; lia.
Qed.

Lemma splits_starts h s ky c p : splits h s ky c p -> starts h s ky c p.
Proof. intros (c1 & c2 & ? & ? & ? & ?). exists c1, c2. done. Qed.

(** The outer loop records, on every level from [k] down, the end of the
    longest prefix of keys that are at most [ky]. *)
Lemma search_total h s ky :
  fields h s = Some (0%nat, KEY_MAX, NULL) -> ky < KEY_MAX ->
  (forall k, (k < MaxNumberOfLevels)%nat -> exists c, chain h s k c) ->
  forall k p update, (k < MaxNumberOfLevels)%nat ->
  (forall c, chain h s k c -> starts h s ky c p) ->
  exists fuel0 update',
    (forall fuel, (fuel0 <= fuel)%nat -> search fuel h ky k p update = Ok update') /\
    (forall j, (j <= k)%nat -> exists pj, update' !! j = Some pj /\
        forall c, chain h s j c -> splits h s ky c pj) /\
    (forall j, (k < j)%nat -> update' !! j = update !! j).
Proof.
  intros Hs Hky Hch. induction k as [|k IH]; intros p update Hk Hst.
  - destruct (search_level_total h s 0 ky p Hs Hky (Hch _ Hk) Hst) as (f0 & p' & Hrun & Hsp).
    exists f0, (<[0%nat := p']> update). split; [|split].
    + intros fuel Hf. cbn [search]. rewrite Hrun by done. done.
    + intros j Hj. assert (j = 0%nat) as -> by lia. exists p'.
      rewrite lookup_insert_eq. done.
    + intros j Hj. rewrite lookup_insert_ne by lia. done.
  - destruct (search_level_total h s (S k) ky p Hs Hky (Hch _ Hk) Hst)
      as (f0 & p' & Hrun & Hsp).
    destruct (IH p' (<[S k := p']> update)) as (f1 & update' & Hrun' & Hlow & Hhigh).
    { lia. }
    { apply search_descend; [apply Hch, Hk|done]. }
    exists (f0 + f1)%nat, update'. split; [|split].
    + intros fuel Hf. cbn [search]. rewrite Hrun by lia. simpl.
      unfold store_update. rewrite bool_decide_eq_true_2 by done. simpl.
      apply Hrun'. lia.
    + intros j Hj. destruct (decide (j = S k)) as [->|Hne].
      * exists p'. rewrite Hhigh by lia. rewrite lookup_insert_eq. done.
      * apply Hlow. lia.
    + intros j Hj. rewrite Hhigh by lia. rewrite lookup_insert_ne by lia. done.
Qed.

End Search.

Section Insert.

Implicit Types (h : heap) (s a p q d : addr) (k j : nat) (c l : list addr) (st : state).

Lemma chain_cons_live h s k c a :
  chain h s k c -> is_Some (fields h s) -> a ∈ s :: c -> is_Some (fields h a).
Proof.
  intros Hc Hs [->|Ha]%elem_of_cons; [done|]. eapply chain_live; done.
Qed.

Lemma chain_snoc_live h s k c a :
  chain h s k c -> is_Some (fields h s) -> a ∈ c ++ [s] -> is_Some (fields h a).
Proof.
  intros Hc Hs Ha. eapply chain_cons_live; [done..|]. set_solver.
Qed.

(** No node reaches above the height of the list. *)
Lemma chain_above_empty s st k c :
  Inv s st -> (lst_level (lst st) < k)%nat -> chain (mem st) s k c -> c = [].
Proof.
  intros Hinv Hk Hc. destruct c as [|x c]; [done|]. exfalso.
  assert (Hx : x ∈ x :: c) by left.
  apply (chain_mem _ _ _ _ Hc) in Hx as (Hxs & lv & kx & vx & Hf & Hlv).
  destruct (inv_nodes _ _ Hinv _ _ _ _ Hf Hxs) as [_ Hle]. lia.
Qed.

Lemma insert_level_bound s st r :
  Inv s st -> (insert_level st r <= insert_height st r <= MaxLevel)%nat.
Proof.
  intros Hinv. pose proof (inv_bound _ _ Hinv). pose proof (randomLevel_le r).
  unfold insert_level, insert_height. case_bool_decide; lia.
Qed.

(** The search phase of an insert, with the sentinel recorded on a new
    top level. *)
Lemma insert_update_total s st ky r :
  Inv s st -> ky < KEY_MAX ->
  exists fuel0 update,
    (forall fuel, (fuel0 <= fuel)%nat -> insert_update fuel s st ky r = Ok update) /\
    (forall j, (j <= insert_level st r)%nat -> exists p, update !! j = Some p /\
        forall c, chain (mem st) s j c -> splits (mem st) s ky c p) /\
    (lst_level (lst st) < randomLevel r ->
       update !! S (lst_level (lst st)) = Some s)%nat.
Proof.
  intros Hinv Hky.
  pose proof (inv_bound _ _ Hinv) as Hb. pose proof (randomLevel_le r) as Hr.
  unfold MaxLevel, MaxNumberOfLevels in *.
  destruct (search_total (mem st) s ky (inv_sentinel _ _ Hinv) Hky (inv_chains _ _ Hinv)
              (lst_level (lst st)) s ∅) as (f0 & u0 & Hrun & Hlow & Hhigh).
  { unfold MaxNumberOfLevels. lia. }
  { intros c Hc. exists [], c. split; [done|]. split; [constructor|done]. }
  unfold insert_update, insert_level.
  destruct (decide (lst_level (lst st) < randomLevel r)%nat) as [Hg|Hg].
  - rewrite bool_decide_eq_true_2 by done.
    exists f0, (<[S (lst_level (lst st)) := s]> u0). split; [|split].
    + intros fuel Hf. rewrite Hrun by done. simpl.
      unfold store_update, MaxNumberOfLevels. rewrite bool_decide_eq_true_2 by lia. done.
    + intros j Hj. destruct (decide (j = S (lst_level (lst st)))) as [->|Hne].
      * exists s. rewrite lookup_insert_eq. split; [done|].
        intros c Hc. apply chain_above_empty in Hc as ->; [|done|lia].
        exists [], []. split; [done|]. split; [constructor|]. split; [constructor|done].
      * rewrite lookup_insert_ne by done. apply Hlow. lia.
    + intros _. rewrite lookup_insert_eq. done.
  - rewrite bool_decide_eq_false_2 by done.
    exists f0, u0. split; [|split].
    + intros fuel Hf. rewrite Hrun by done. done.
    + intros j Hj. apply Hlow. lia.
    + intros Hlt. lia.
Qed.

Lemma skiplist_insert_unfold fuel s st ky val r a :
  skiplist_insert fuel s st ky val r a =
  (update ← insert_update fuel s st ky r;
   h0 ← newNode (mem st) a;
   h1 ← store_fields h0 a (insert_level st r) ky val;
   h2 ← splice h1 a update (insert_level st r);
   Ok (mkState h2 (mkList (insert_height st r) (header (lst st))), a)).
Proof.
  unfold skiplist_insert, insert_update, insert_level, insert_height.
  destruct (search fuel (mem st) ky (lst_level (lst st)) s ∅) as [u| |]; simpl; try done.
  case_bool_decide; simpl.
  - destruct (store_update u (S (lst_level (lst st))) s); simpl; done.
  - destruct (lst st); done.
Qed.

(** An insert of a key below the sentinel's runs to completion, and the
    views of the heap it leaves are those of the old heap with the new node
    spliced in on the levels up to its own. *)
Lemma insert_exec s st ky val r a :
  Inv s st -> ky < KEY_MAX -> mem st !! a = None ->
  exists fuel0 update h',
    (forall fuel, (fuel0 <= fuel)%nat -> insert_update fuel s st ky r = Ok update) /\
    (forall fuel, (fuel0 <= fuel)%nat ->
       skiplist_insert fuel s st ky val r a =
       Ok (mkState h' (mkList (insert_height st r) (header (lst st))), a)) /\
    (forall j, (j <= insert_level st r)%nat -> exists p, update !! j = Some p /\
        forall c, chain (mem st) s j c -> splits (mem st) s ky c p) /\
    (lst_level (lst st) < randomLevel r ->
       update !! S (lst_level (lst st)) = Some s)%nat /\
    (forall x, fields h' x =
       if decide (x = a) then Some (insert_level st r, ky, val) else fields (mem st) x) /\
    (forall j p, (j <= insert_level st r)%nat -> update !! j = Some p ->
       forall x, nxt h' j x = spliced_nxt (nxt (mem st) j) p a x /\
                 prv h' j x = spliced_prv (nxt (mem st) j) (prv (mem st) j) p a x) /\
    (forall j, (insert_level st r < j)%nat ->
       forall x, nxt h' j x = nxt (mem st) j x /\ prv h' j x = prv (mem st) j x).
Proof.
  intros Hinv Hky Hfree.
  destruct (insert_update_total s st ky r Hinv Hky) as (f0 & update & Hrun & Hrec & Htop).
  destruct (new_fields_Ok (mem st) a (insert_level st r) ky val Hfree)
    as (h0 & h1 & Hnew & Hst & F1 & N1 & P1).
  pose proof (insert_level_bound s st r Hinv) as Hlb.
  pose proof (sentinel_live _ _ _ _ _ (inv_sentinel _ _ Hinv)) as Ls.
  apply fields_None in Hfree.
  assert (Hlive : forall x, is_Some (fields (mem st) x) -> x <> a).
  { intros x [y Hy] ->. congruence. }
  destruct (splice_Ok (insert_level st r) h1 a update) as (h' & Hsp & Hlow & Hhigh & F').
  { intros j Hj. destruct (Hrec j Hj) as (p & Hp & Hsplit).
    destruct (inv_chains _ _ Hinv j) as [c Hc]; [unfold MaxLevel, MaxNumberOfLevels in *; lia|].
    destruct (Hsplit c Hc) as (c1 & c2 & -> & _ & _ & ->).
    destruct (links_edge _ _ _ _ _ _ (chain_links _ _ _ _ Hc)) as [He _].
    assert (L1 : is_Some (fields (mem st) (endof s c1))).
    { eapply chain_cons_live; [done..|]. pose proof (endof_elem s c1). set_solver. }
    assert (L2 : is_Some (fields (mem st) (startof s c2))).
    { eapply chain_snoc_live; [done..|]. pose proof (startof_elem s c2). set_solver. }
    exists (endof s c1), (startof s c2). rewrite N1, F1.
    rewrite decide_False by (apply Hlive, L2).
    split; [done|]. split; [done|]. split; [done|].
    split; intros E; [apply (Hlive _ L1)|apply (Hlive _ L2)]; done. }
  { rewrite F1, decide_True by done. eauto. }
  { unfold MaxLevel, MaxNumberOfLevels in *. lia. }
  exists f0, update, h'. split; [done|]. split; [|split; [done|split; [done|split; [|split]]]].
  - intros fuel Hf. rewrite skiplist_insert_unfold, Hrun by done. simpl.
    rewrite Hnew. simpl. rewrite Hst. simpl. rewrite Hsp. done.
  - intros x. rewrite F', F1. done.
  - intros j p Hj Hp x. destruct (Hlow j p Hj Hp x) as [-> ->].
    unfold spliced_nxt, spliced_prv. rewrite !N1, !P1. done.
  - intros j Hj x. destruct (Hhigh j Hj x) as [-> ->]. rewrite N1, P1. done.
Qed.

End Insert.

Section InsertInv.

Implicit Types (h : heap) (s a p q d : addr) (k j : nat) (c l : list addr) (st : state).

Lemma insert_exec' s st ky val r a :
  Inv s st -> ky < KEY_MAX -> mem st !! a = None ->
  exists fuel0 update h',
    (forall fuel, (fuel0 <= fuel)%nat -> insert_update fuel s st ky r = Ok update) /\
    (forall fuel, (fuel0 <= fuel)%nat ->
       skiplist_insert fuel s st ky val r a = Ok (insert_state st r h', a)) /\
    inserted s st ky val r a update h'.
Proof.
  intros Hinv Hky Hfree.
  destruct (insert_exec s st ky val r a Hinv Hky Hfree)
    as (f0 & update & h' & H1 & H2 & H3 & H4 & H5 & H6 & H7).
  exists f0, update, h'. split; [done|]. split; [done|]. constructor; done.
Qed.

Section Inserted.

Context (s : addr) (st : state) (ky val r : Z) (a : addr)
        (update : gmap nat addr) (h' : heap).
Hypothesis Hinv : Inv s st.
Hypothesis Hky : ky < KEY_MAX.
Hypothesis Hfree : fields (mem st) a = None.
Hypothesis Hins : inserted s st ky val r a update h'.

Lemma inserted_fresh x : is_Some (fields (mem st) x) -> x <> a.
Proof. intros [y Hy] ->. congruence. Qed.

Lemma inserted_sentinel : a <> s.
Proof.
  intros ->. pose proof (inv_sentinel _ _ Hinv). congruence.
Qed.

Lemma inserted_not_in k c : chain (mem st) s k c -> a ∉ s :: c.
Proof.
  intros Hc Ha. eapply inserted_fresh; [|done].
  eapply chain_cons_live; [done| |done]. eapply sentinel_live, inv_sentinel, Hinv.
Qed.

Lemma inserted_fields_old x : x <> a -> fields h' x = fields (mem st) x.
Proof. intros Hx. rewrite (ins_fields _ _ _ _ _ _ _ _ Hins), decide_False by done. done. Qed.

Lemma inserted_fields_new : fields h' a = Some (insert_level st r, ky, val).
Proof. rewrite (ins_fields _ _ _ _ _ _ _ _ Hins), decide_True by done. done. Qed.

Lemma inserted_has_level j x :
  has_level h' j x <-> (x = a /\ (j <= insert_level st r)%nat) \/ has_level (mem st) j x.
Proof.
  unfold has_level. destruct (decide (x = a)) as [->|Hne].
  - rewrite inserted_fields_new, Hfree. split.
    + intros (lv & k & v & [= <- <- <-] & Hj). left. done.
    + intros [[_ Hj]|(lv & k & v & [=] & _)]. eauto 10.
  - rewrite inserted_fields_old by done. split; [eauto|]. intros [[? _]|H]; done.
Qed.

Lemma inserted_key_old x : x <> a -> key_at h' x = key_at (mem st) x.
Proof. intros Hx. apply key_at_fields, inserted_fields_old, Hx. Qed.

Lemma inserted_key_new : key_at h' a = ky.
Proof. eapply fields_key_at, inserted_fields_new. Qed.

(** On a level above the new node nothing moves. *)
Lemma inserted_chain_high j c :
  (insert_level st r < j)%nat -> chain (mem st) s j c -> chain h' s j c.
Proof.
  intros Hj Hc. pose proof (inserted_not_in j c Hc) as Ha.
  constructor.
  - apply (chain_nodup _ _ _ _ Hc).
  - eapply links_ext; [| |apply (chain_links _ _ _ _ Hc)]; intros x _;
      apply (ins_high _ _ _ _ _ _ _ _ Hins j Hj x).
  - intros x. rewrite inserted_has_level, (chain_mem _ _ _ _ Hc). split; [tauto|].
    intros [Hx [[_ Hle]|H]]; [lia|done].
  - eapply sorted_keys_ext; [|apply (chain_sorted _ _ _ _ Hc)].
    intros x Hx. apply inserted_key_old. set_solver.
Qed.

(** On a level of the new node the chain gains it behind the recorded
    predecessor, after every key that is not larger. *)
Lemma inserted_chain_low j c :
  (j <= insert_level st r)%nat -> chain (mem st) s j c ->
  exists c1 c2, c = c1 ++ c2 /\ keys_le (mem st) ky c1 /\ keys_gt (mem st) ky c2 /\
    update !! j = Some (endof s c1) /\ chain h' s j (c1 ++ a :: c2).
Proof.
  intros Hj Hc. pose proof (inserted_not_in j c Hc) as Ha.
  destruct (ins_rec _ _ _ _ _ _ _ _ Hins j Hj) as (p & Hp & Hsp).
  destruct (Hsp c Hc) as (c1 & c2 & -> & Hle & Hgt & ->).
  exists c1, c2. split; [done|]. split; [done|]. split; [done|]. split; [done|].
  pose proof (chain_nodup _ _ _ _ Hc) as Hnd.
  destruct (links_edge _ _ _ _ _ _ (chain_links _ _ _ _ Hc)) as [He _].
  assert (Hs : s ∉ c1 ++ c2) by (apply NoDup_cons in Hnd; tauto).
  constructor.
  - apply NoDup_cons in Hnd as [Hs' Hnd]. apply NoDup_cons. split; [set_solver|].
    rewrite <- Permutation_middle. apply NoDup_cons. split; [set_solver|done].
  - eapply links_insert; [apply (chain_links _ _ _ _ Hc)|done|done|done| | |].
    + apply inserted_sentinel.
    + intros x. destruct (ins_low _ _ _ _ _ _ _ _ Hins j _ Hj Hp x) as [-> _].
      unfold spliced_nxt. rewrite He. done.
    + intros x. destruct (ins_low _ _ _ _ _ _ _ _ Hins j _ Hj Hp x) as [_ ->].
      unfold spliced_prv. rewrite He. repeat case_decide; naive_solver.
  - intros x. rewrite inserted_has_level.
    pose proof (chain_mem _ _ _ _ Hc x) as Hm. rewrite elem_of_app in Hm.
    rewrite elem_of_app, elem_of_cons. pose proof inserted_sentinel. naive_solver.
  - apply sorted_keys_insert with (ky := ky).
    + eapply sorted_keys_ext; [|apply (chain_sorted _ _ _ _ Hc)].
      intros x Hx. apply inserted_key_old. set_solver.
    + unfold keys_le in *. rewrite Forall_forall in *. intros x Hx.
      rewrite inserted_key_old by set_solver. apply Hle, Hx.
    + unfold keys_gt in *. rewrite Forall_forall in *. intros x Hx.
      rewrite inserted_key_old by set_solver. apply Hgt, Hx.
    + apply inserted_key_new.
Qed.

(** The state after the insert satisfies the invariant again. *)
Lemma inserted_Inv : Inv s (insert_state st r h').
Proof.
  pose proof (insert_level_bound s st r Hinv) as Hlb.
  pose proof inserted_sentinel as Has.
  constructor; simpl.
  - apply (inv_header _ _ Hinv).
  - rewrite inserted_fields_old by done. apply (inv_sentinel _ _ Hinv).
  - intros x lv k v Hx Hxs. destruct (decide (x = a)) as [->|Hne].
    + rewrite inserted_fields_new in Hx. injection Hx as <- <- <-. split; [done|lia].
    + rewrite inserted_fields_old in Hx by done.
      destruct (inv_nodes _ _ Hinv _ _ _ _ Hx Hxs) as [? ?]. split; [done|].
      unfold insert_height. case_bool_decide; lia.
  - pose proof inserted_fields_new as Hnew.
    unfold insert_height in *. unfold insert_level in *. case_bool_decide.
    + right. exists a, ky, val. split; [done|]. exact Hnew.
    + destruct (inv_top _ _ Hinv) as [?|(x & k & v & Hxs & Hx)]; [left; done|].
      right. exists x, k, v. split; [done|].
      rewrite inserted_fields_old; [done|]. apply inserted_fresh. rewrite Hx. eauto.
  - lia.
  - intros j x y Hxy. destruct (decide (j <= insert_level st r)%nat) as [Hj|Hj].
    + split; [unfold MaxLevel, MaxNumberOfLevels in *; lia|].
      destruct (inv_chains _ _ Hinv j) as [c Hc];
        [unfold MaxLevel, MaxNumberOfLevels in *; lia|].
      destruct (inserted_chain_low j c Hj Hc) as (c1 & c2 & -> & _ & _ & Hu & Hc').
      destruct (decide (x = s)) as [|Hxs]; [left; done|right].
      destruct (decide (x ∈ c1 ++ a :: c2)) as [Hin|Hout].
      { apply (chain_mem _ _ _ _ Hc') in Hin. tauto. }
      exfalso.
      destruct (links_edge _ _ _ _ _ _ (chain_links _ _ _ _ Hc)) as [He _].
      pose proof (endof_elem s c1) as H1. pose proof (startof_elem s c2) as H2.
      destruct (ins_low _ _ _ _ _ _ _ _ Hins j _ Hj Hu x) as [Hn Hp].
      unfold spliced_nxt, spliced_prv in *. rewrite He in *.
      assert (Hold : nxt (mem st) j x = Some y \/ prv (mem st) j x = Some y).
      { destruct Hxy as [Hxy|Hxy]; [rewrite Hn in Hxy|rewrite Hp in Hxy];
          repeat case_decide; simplify_eq; set_solver. }
      apply (inv_slots _ _ Hinv) in Hold as [_ [?|Hlv]]; [done|].
      apply Hout. assert (x ∈ c1 ++ c2) by (apply (chain_mem _ _ _ _ Hc); done).
      set_solver.
    + destruct (ins_high _ _ _ _ _ _ _ _ Hins j ltac:(lia) x) as [Hn Hp].
      rewrite Hn, Hp in Hxy. apply (inv_slots _ _ Hinv) in Hxy as [? [?|Hlv]].
      * split; [done|left; done].
      * split; [done|right]. apply inserted_has_level. right. done.
  - intros j Hj. destruct (inv_chains _ _ Hinv j Hj) as [c Hc].
    destruct (decide (j <= insert_level st r)%nat) as [Hle|Hgt].
    + destruct (inserted_chain_low j c Hle Hc) as (c1 & c2 & _ & _ & _ & _ & Hc').
      eauto.
    + exists c. apply inserted_chain_high; [lia|done].
Qed.

End Inserted.
End InsertInv.

Lemma result_bind_Ok {A B} (x : A) (f : A -> result B) : Ok x ≫= f = f x.
Proof. reflexivity. Qed.

Section Delete.

Implicit Types (h : heap) (s a p q d : addr) (k j : nat) (c l : list addr) (st : state).

Lemma skiplist_insert_diverges s st fuel ky val r a :
  Inv s st -> KEY_MAX <= ky -> skiplist_insert fuel s st ky val r a = Timeout.
Proof.
  intros Hinv Hky.
  destruct (inv_chains _ _ Hinv (lst_level (lst st))) as [c Hc].
  { pose proof (inv_bound _ _ Hinv). unfold MaxLevel, MaxNumberOfLevels in *. lia. }
  assert (Hd : search_level fuel (mem st) (lst_level (lst st)) ky s = Timeout).
  { eapply search_level_diverges; [done|apply (inv_sentinel _ _ Hinv)| |done|left].
    intros x lv kx v Hx. destruct (decide (x = s)) as [->|Hne].
    - rewrite (inv_sentinel _ _ Hinv) in Hx. injection Hx as <- <- <-. lia.
    - destruct (inv_nodes _ _ Hinv _ _ _ _ Hx Hne). lia. }
  unfold skiplist_insert. destruct (lst_level (lst st)); cbn [search]; rewrite Hd; done.
Qed.

Lemma insert_update_mono fuel fuel' s st ky r u :
  (fuel <= fuel')%nat ->
  insert_update fuel s st ky r = Ok u -> insert_update fuel' s st ky r = Ok u.
Proof.
  intros Hf. unfold insert_update.
  destruct (search fuel (mem st) ky (lst_level (lst st)) s ∅) as [u0| |] eqn:E;
    simpl; try discriminate.
  rewrite (search_mono _ _ _ _ _ _ _ _ Hf E). done.
Qed.

(** Whatever fuel made an insert return, it returned the state described
    by [inserted]. *)
Lemma insert_Ok_inserted s st fuel ky val r a st' q :
  Inv s st -> skiplist_insert fuel s st ky val r a = Ok (st', q) ->
  ky < KEY_MAX /\ mem st !! a = None /\ q = a /\
  exists update h', insert_update fuel s st ky r = Ok update /\
    st' = insert_state st r h' /\ inserted s st ky val r a update h'.
Proof.
  intros Hinv Hrun.
  assert (Hky : ky < KEY_MAX).
  { destruct (decide (ky < KEY_MAX)) as [|Hge]; [done|].
    rewrite skiplist_insert_diverges in Hrun by (done || lia). discriminate. }
  pose proof Hrun as Hrun0. rewrite skiplist_insert_unfold in Hrun0.
  destruct (insert_update fuel s st ky r) as [u| |] eqn:Eu; simpl in Hrun0; try discriminate.
  assert (Hfree : mem st !! a = None).
  { unfold newNode in Hrun0. destruct (mem st !! a); [discriminate|done]. }
  destruct (insert_exec' s st ky val r a Hinv Hky Hfree) as (f0 & update & h' & Hu & Hr & Hins).
  specialize (Hu (fuel + f0)%nat ltac:(lia)). specialize (Hr (fuel + f0)%nat ltac:(lia)).
  rewrite (skiplist_insert_mono fuel (fuel + f0) _ _ _ _ _ _ _ ltac:(lia) Hrun) in Hr.
  rewrite (insert_update_mono fuel (fuel + f0) _ _ _ _ _ ltac:(lia) Eu) in Hu.
  injection Hr as -> ->. injection Hu as ->.
  split; [done|]. split; [done|]. split; [done|]. eauto.
Qed.

Lemma insert_Ok_Inv s st fuel ky val r a st' q :
  Inv s st -> skiplist_insert fuel s st ky val r a = Ok (st', q) -> Inv s st'.
Proof.
  intros Hinv Hrun.
  destruct (insert_Ok_inserted _ _ _ _ _ _ _ _ _ Hinv Hrun)
    as (Hky & Hfree & -> & update & h' & _ & -> & Hins).
  eapply inserted_Inv; [done..| |done]. apply fields_None, Hfree.
Qed.

(** The unlink loop of a delete, and the free. *)
Lemma unlink_exec s st d m kd vd :
  Inv s st -> d <> s -> fields (mem st) d = Some (m, kd, vd) ->
  exists h1, unlink (mem st) d 0 (S m) = Ok h1 /\ unlinked st d m (delete d h1).
Proof.
  intros Hinv Hds Hd.
  pose proof (sentinel_live _ _ _ _ _ (inv_sentinel _ _ Hinv)) as Ls.
  destruct (inv_nodes _ _ Hinv _ _ _ _ Hd Hds) as [_ Hm].
  pose proof (inv_bound _ _ Hinv) as Hb. unfold MaxLevel, MaxNumberOfLevels in Hb.
  destruct (unlink_Ok (S m) (mem st) d 0) as (h1 & Hrun & N & P & F).
  { intros j Hj. destruct (inv_chains _ _ Hinv j) as [c Hc];
      [unfold MaxNumberOfLevels; lia|].
    assert (Hin : d ∈ c).
    { apply (chain_mem _ _ _ _ Hc). split; [done|]. exists m, kd, vd. split; [done|lia]. }
    apply list_elem_of_split in Hin as (c1 & c2 & ->).
    destruct (links_around _ _ _ _ _ _ _ (chain_links _ _ _ _ Hc)) as [Hp Hn].
    pose proof (endof_elem s c1) as H1. pose proof (startof_elem s c2) as H2.
    pose proof (chain_nodup _ _ _ _ Hc) as Hnd.
    exists (endof s c1), (startof s c2). split; [done|]. split; [done|].
    split; [eapply chain_cons_live; [done..|set_solver]|].
    split; [eapply chain_snoc_live; [done..|set_solver]|].
    intros E. rewrite E in H1. apply NoDup_cons in Hnd as [Hs Hnd].
    apply NoDup_app in Hnd as (_ & Hnd & _).
    apply elem_of_cons in H1 as [?|H1]; [done|]. apply (Hnd _ H1). left. }
  { unfold MaxNumberOfLevels. lia. }
  exists h1. split; [done|].
  destruct (delete_views h1 d) as (F' & N' & P').
  constructor.
  - intros x. rewrite F'. case_decide; [done|apply F].
  - intros j Hj x Hx. rewrite N', P'.
    rewrite !(decide_False (P := x = d)) by done. rewrite N, P.
    rewrite !(decide_True (P := (0 <= j < 0 + S m)%nat)) by lia. done.
  - intros j Hj x Hx. rewrite N', P'.
    rewrite !(decide_False (P := x = d)) by done. rewrite N, P.
    rewrite !(decide_False (P := (0 <= j < 0 + S m)%nat)) by lia. done.
  - intros j. rewrite N', P', !decide_True by done. done.
Qed.

Section Unlinked.

Context (s : addr) (st : state) (d : addr) (m : nat) (kd vd : Z) (h' : heap).
Hypothesis Hinv : Inv s st.
Hypothesis Hds : d <> s.
Hypothesis Hd : fields (mem st) d = Some (m, kd, vd).
Hypothesis Hun : unlinked st d m h'.

Lemma unlinked_fields_old x : x <> d -> fields h' x = fields (mem st) x.
Proof. intros Hx. rewrite (del_fields _ _ _ _ Hun), decide_False by done. done. Qed.

Lemma unlinked_fields_gone : fields h' d = None.
Proof. rewrite (del_fields _ _ _ _ Hun), decide_True by done. done. Qed.

Lemma unlinked_has_level j x :
  has_level h' j x <-> x <> d /\ has_level (mem st) j x.
Proof.
  unfold has_level. destruct (decide (x = d)) as [->|Hne].
  - rewrite unlinked_fields_gone. split; [|tauto].
    intros (lv & k & v & [=] & _).
  - rewrite unlinked_fields_old by done. tauto.
Qed.

Lemma unlinked_key_old x : x <> d -> key_at h' x = key_at (mem st) x.
Proof. intros Hx. apply key_at_fields, unlinked_fields_old, Hx. Qed.

Lemma unlinked_in_chain j c :
  (j <= m)%nat -> chain (mem st) s j c -> d ∈ c.
Proof.
  intros Hj Hc. apply (chain_mem _ _ _ _ Hc). split; [done|].
  exists m, kd, vd. split; [done|lia].
Qed.

Lemma unlinked_not_in_chain j c :
  (m < j)%nat -> chain (mem st) s j c -> d ∉ s :: c.
Proof.
  intros Hj Hc [?|Hin]%elem_of_cons; [done|].
  apply (chain_mem _ _ _ _ Hc) in Hin as (_ & lv & k & v & Hf & Hlv).
  rewrite Hd in Hf. injection Hf as <- <- <-. lia.
Qed.

Lemma unlinked_chain_high j c :
  (m < j)%nat -> chain (mem st) s j c -> chain h' s j c.
Proof.
  intros Hj Hc. pose proof (unlinked_not_in_chain j c Hj Hc) as Hout.
  constructor.
  - apply (chain_nodup _ _ _ _ Hc).
  - eapply links_ext; [| |apply (chain_links _ _ _ _ Hc)]; intros x Hx;
      apply (del_high _ _ _ _ Hun j Hj x); set_solver.
  - intros x. rewrite unlinked_has_level, (chain_mem _ _ _ _ Hc). split; [|tauto].
    intros [Hxs Hlv]. split; [done|]. split; [|done].
    intros ->. apply Hout. right. apply (chain_mem _ _ _ _ Hc). done.
  - eapply sorted_keys_ext; [|apply (chain_sorted _ _ _ _ Hc)].
    intros x Hx. apply unlinked_key_old. set_solver.
Qed.

Lemma unlinked_chain_low j c :
  (j <= m)%nat -> chain (mem st) s j c ->
  exists c1 c2, c = c1 ++ d :: c2 /\ chain h' s j (c1 ++ c2).
Proof.
  intros Hj Hc. pose proof (unlinked_in_chain j c Hj Hc) as Hin.
  apply list_elem_of_split in Hin as (c1 & c2 & ->). exists c1, c2. split; [done|].
  pose proof (chain_nodup _ _ _ _ Hc) as Hnd.
  destruct (links_around _ _ _ _ _ _ _ (chain_links _ _ _ _ Hc)) as [Hp Hn].
  assert (Hs : s ∉ c1 ++ d :: c2) by (apply NoDup_cons in Hnd; tauto).
  assert (Hd' : d ∉ c1 ++ c2).
  { apply NoDup_cons in Hnd as [_ Hnd]. rewrite <- Permutation_middle in Hnd.
    apply NoDup_cons in Hnd. tauto. }
  constructor.
  - apply NoDup_cons in Hnd as [Hs' Hnd]. rewrite <- Permutation_middle in Hnd.
    apply NoDup_cons in Hnd as [_ Hnd]. apply NoDup_cons. split; [set_solver|done].
  - eapply links_delete; [apply (chain_links _ _ _ _ Hc)|done|done| |].
    + intros x Hx. destruct (del_low _ _ _ _ Hun j Hj x Hx) as [-> _].
      unfold unlinked_nxt. rewrite Hp, Hn. repeat case_decide; naive_solver.
    + intros x Hx. destruct (del_low _ _ _ _ Hun j Hj x Hx) as [_ ->].
      unfold unlinked_prv. rewrite Hp, Hn. repeat case_decide; naive_solver.
  - intros x. rewrite unlinked_has_level.
    pose proof (chain_mem _ _ _ _ Hc x) as Hm.
    rewrite elem_of_app, elem_of_cons in Hm. rewrite elem_of_app.
    rewrite elem_of_app in Hd'. split.
    + intros Hx. assert (x <> d) by (intros ->; tauto). tauto.
    + tauto.
  - eapply sorted_keys_ext; [|eapply sorted_keys_delete, (chain_sorted _ _ _ _ Hc)].
    intros x Hx. apply unlinked_key_old. intros ->. done.
Qed.

Lemma unlinked_chains j :
  (j < MaxNumberOfLevels)%nat -> exists c, chain h' s j c.
Proof.
  intros Hj. destruct (inv_chains _ _ Hinv j Hj) as [c Hc].
  destruct (decide (j <= m)%nat) as [Hle|Hgt].
  - destruct (unlinked_chain_low j c Hle Hc) as (c1 & c2 & _ & Hc'). eauto.
  - exists c. apply unlinked_chain_high; [lia|done].
Qed.

End Unlinked.

(** In a chain the sentinel points to itself exactly when no node is linked. *)
Lemma chain_self_loop h s k c : chain h s k c -> self_loop h s k <-> c = [].
Proof.
  intros Hc. pose proof (chain_links _ _ _ _ Hc) as Hl.
  pose proof (chain_nodup _ _ _ _ Hc) as Hnd. unfold self_loop. split.
  - intros [Hn _]. destruct c as [|x c]; [done|]. simpl in Hl.
    destruct Hl as [Hl _]. rewrite Hl in Hn. injection Hn as ->.
    apply NoDup_cons in Hnd as [Hs _]. set_solver.
  - intros ->. apply Hl.
Qed.

Lemma chain_sentinel_slots h s k c :
  chain h s k c -> is_Some (nxt h k s) /\ is_Some (prv h k s).
Proof.
  intros Hc. pose proof (chain_links _ _ _ _ Hc) as Hl.
  destruct (links_edge _ _ s [] c s Hl) as [H1 _].
  rewrite <- (app_nil_r c) in Hl.
  destruct (links_edge _ _ s c [] s Hl) as [_ H2].
  change (endof s []) with s in H1. change (startof s []) with s in H2.
  rewrite H1, H2. eauto.
Qed.

(** A delete of a linked node runs to completion. *)
Lemma delnode_exec s st d m kd vd :
  Inv s st -> d <> s -> fields (mem st) d = Some (m, kd, vd) ->
  exists h' L',
    skiplist_delnode s st d = Ok (mkState h' (mkList L' (header (lst st)))) /\
    unlinked st d m h' /\ shrunk st s m h' L'.
Proof.
  intros Hinv Hds Hd.
  destruct (unlink_exec s st d m kd vd Hinv Hds Hd) as (h1 & Hrun & Hun).
  destruct (inv_nodes _ _ Hinv _ _ _ _ Hd Hds) as [_ Hm].
  pose proof (inv_bound _ _ Hinv) as Hb. unfold MaxLevel, MaxNumberOfLevels in Hb.
  assert (Hlv : level_at (mem st) d = m).
  { apply fields_lookup in Hd as (n & Hn & <- & _). unfold level_at. rewrite Hn. done. }
  unfold skiplist_delnode.
  rewrite load_level_at by (rewrite Hd; eauto).
  rewrite Hlv, result_bind_Ok. cbv beta. rewrite Hrun, result_bind_Ok. cbv beta.
  destruct (decide (m = lst_level (lst st))) as [Hml|Hml].
  - rewrite bool_decide_eq_true_2 by done. rewrite (inv_header _ _ Hinv).
    destruct (shrink_spec (delete d h1) s m) as (m' & Hs & Hle & Hemp & Htop).
    { intros j Hj. destruct (unlinked_chains s st d m kd vd _ Hinv Hds Hd Hun j) as [c Hc].
      - unfold MaxNumberOfLevels. lia.
      - eapply chain_sentinel_slots, Hc. }
    rewrite Hs. simpl. exists (delete d h1), m'. split; [done|]. split; [done|].
    split; [done|]. intros _. done.
  - rewrite bool_decide_eq_false_2 by done.
    exists (delete d h1), (lst_level (lst st)). split; [destruct (lst st); done|].
    split; [done|]. split; [done|]. intros ?. done.
Qed.

(** The state after the delete satisfies the invariant again. *)
Lemma delnode_Inv s st d m kd vd h' L' :
  Inv s st -> d <> s -> fields (mem st) d = Some (m, kd, vd) ->
  unlinked st d m h' -> shrunk st s m h' L' ->
  Inv s (mkState h' (mkList L' (header (lst st)))).
Proof.
  intros Hinv Hds Hd Hun [Hkeep Hshr].
  destruct (inv_nodes _ _ Hinv _ _ _ _ Hd Hds) as [_ Hm].
  pose proof (inv_bound _ _ Hinv) as Hb. unfold MaxLevel, MaxNumberOfLevels in Hb.
  pose proof (unlinked_chains s st d m kd vd h' Hinv Hds Hd Hun) as Hch.
  assert (Hnodes : forall x lv (kx vx : Z), fields h' x = Some (lv, kx, vx) -> x <> s ->
                     kx < KEY_MAX /\ (lv <= L')%nat).
  { intros x lv k v Hx Hxs.
    assert (Hxd : x <> d).
    { intros ->. rewrite (unlinked_fields_gone st d m h' Hun) in Hx. discriminate. }
    pose proof Hx as Hx'. rewrite (unlinked_fields_old st d m h' Hun) in Hx' by done.
    destruct (inv_nodes _ _ Hinv _ _ _ _ Hx' Hxs) as [Hk Hlv]. split; [done|].
    destruct (decide (m = lst_level (lst st))) as [Hml|Hml]; [|rewrite Hkeep by done; done].
    destruct (Hshr Hml) as (_ & Hemp & _).
    destruct (decide (lv <= L')%nat) as [|Hgt]; [done|exfalso].
    destruct (Hch lv) as [c Hc]; [unfold MaxNumberOfLevels; lia|].
    assert (Hin : x ∈ c).
    { apply (chain_mem _ _ _ _ Hc). split; [done|]. exists lv, k, v. done. }
    apply (chain_self_loop _ _ _ _ Hc) in Hemp as ->; [|lia]. set_solver. }
  constructor; simpl.
  - apply (inv_header _ _ Hinv).
  - rewrite (unlinked_fields_old st d m h' Hun) by done. apply (inv_sentinel _ _ Hinv).
  - exact Hnodes.
  - destruct (decide (m = lst_level (lst st))) as [Hml|Hml].
    + destruct (Hshr Hml) as (Hle & _ & [?|Htop]); [left; done|right].
      destruct (Hch L') as [c Hc]; [unfold MaxNumberOfLevels; lia|].
      destruct c as [|x c]; [exfalso; apply Htop, (chain_self_loop _ _ _ _ Hc); done|].
      assert (Hin : x ∈ x :: c) by left.
      apply (chain_mem _ _ _ _ Hc) in Hin as (Hxs & lv & k & v & Hx & Hlv).
      destruct (Hnodes _ _ _ _ Hx Hxs) as [_ Hlv'].
      assert (lv = L') as -> by lia. eauto.
    + rewrite Hkeep by done. destruct (inv_top _ _ Hinv) as [?|(x & k & v & Hxs & Hx)]; [lia|].
      right. exists x, k, v. split; [done|].
      rewrite (unlinked_fields_old st d m h' Hun); [done|].
      intros ->. rewrite Hd in Hx. injection Hx as ? _ _. done.
  - destruct (decide (m = lst_level (lst st))) as [Hml|Hml].
    + destruct (Hshr Hml) as (Hle & _). unfold MaxLevel, MaxNumberOfLevels. lia.
    + rewrite Hkeep by done. unfold MaxLevel, MaxNumberOfLevels. lia.
  - intros j x y Hxy.
    assert (Hxd : x <> d).
    { intros ->. destruct (del_dead _ _ _ _ Hun j) as [H1 H2].
      rewrite H1, H2 in Hxy. naive_solver. }
    destruct (decide (j <= m)%nat) as [Hj|Hj].
    + split; [unfold MaxNumberOfLevels; lia|].
      destruct (inv_chains _ _ Hinv j) as [c Hc]; [unfold MaxNumberOfLevels; lia|].
      destruct (unlinked_chain_low s st d m kd vd h' Hinv Hds Hd Hun j c Hj Hc)
        as (c1 & c2 & -> & Hc').
      destruct (decide (x = s)) as [|Hxs]; [left; done|right].
      destruct (decide (x ∈ c1 ++ c2)) as [Hin|Hout].
      { apply (chain_mem _ _ _ _ Hc') in Hin. tauto. }
      exfalso.
      destruct (links_around _ _ _ _ _ _ _ (chain_links _ _ _ _ Hc)) as [Hp Hn].
      pose proof (endof_elem s c1) as H1. pose proof (startof_elem s c2) as H2.
      destruct (del_low _ _ _ _ Hun j Hj x Hxd) as [En Ep].
      unfold unlinked_nxt, unlinked_prv in *. rewrite Hp, Hn in *.
      assert (Hold : nxt (mem st) j x = Some y \/ prv (mem st) j x = Some y).
      { destruct Hxy as [Hxy|Hxy]; [rewrite En in Hxy|rewrite Ep in Hxy];
          repeat case_decide; simplify_eq; set_solver. }
      apply (inv_slots _ _ Hinv) in Hold as [_ [?|Hlv]]; [done|].
      apply Hout. assert (x ∈ c1 ++ d :: c2) by (apply (chain_mem _ _ _ _ Hc); done).
      set_solver.
    + destruct (del_high _ _ _ _ Hun j ltac:(lia) x Hxd) as [En Ep].
      rewrite En, Ep in Hxy. apply (inv_slots _ _ Hinv) in Hxy as [? [?|Hlv]].
      * split; [done|left; done].
      * split; [done|right]. apply (unlinked_has_level st d m h' Hun). done.
  - exact Hch.
Qed.

(** A delete that returned was handed a live node. *)
Lemma delnode_Ok_live s st d st' :
  skiplist_delnode s st d = Ok st' -> exists m kd vd, fields (mem st) d = Some (m, kd, vd).
Proof.
  unfold skiplist_delnode, load_level, fields.
  destruct (mem st !! d) as [n|]; simpl; [eauto|discriminate].
Qed.

Lemma delnode_Ok_Inv s st d st' :
  Inv s st -> d <> s -> skiplist_delnode s st d = Ok st' -> Inv s st'.
Proof.
  intros Hinv Hds Hrun.
  destruct (delnode_Ok_live _ _ _ _ Hrun) as (m & kd & vd & Hd).
  destruct (delnode_exec s st d m kd vd Hinv Hds Hd) as (h' & L' & Hrun' & Hun & Hsh).
  rewrite Hrun in Hrun'. injection Hrun' as ->.
  eapply delnode_Inv; done.
Qed.

End Delete.

Section Init.

Implicit Types (h : heap) (s a p q d : addr) (k j : nat) (c l : list addr) (st : state).

Lemma init_links_Ok (cnt : nat) : forall h s i,
  is_Some (fields h s) -> (i + cnt <= MaxNumberOfLevels)%nat ->
  exists h', init_links h s i cnt = Ok h' /\
    (forall j a, nxt h' j a =
       if decide (a = s /\ (i <= j < i + cnt)%nat) then Some s else nxt h j a) /\
    (forall j a, prv h' j a =
       if decide (a = s /\ (i <= j < i + cnt)%nat) then Some s else prv h j a) /\
    (forall a, fields h' a = fields h a).
Proof.
  induction cnt as [|cnt IH]; intros h s i Ls Hb.
  - exists h. split; [done|].
    split; [|split; [|done]]; intros j a; rewrite decide_False by lia; done.
  - cbn [init_links].
    destruct (store_prev_Ok h s i s Ls) as (h1 & -> & P1 & N1 & F1); [lia|].
    rewrite result_bind_Ok. cbv beta.
    assert (Ls1 : is_Some (fields h1 s)) by (rewrite F1; done).
    destruct (store_next_Ok h1 s i s Ls1) as (h2 & -> & N2 & P2 & F2); [lia|].
    rewrite result_bind_Ok. cbv beta.
    assert (Ls2 : is_Some (fields h2 s)) by (rewrite F2; done).
    destruct (IH h2 s (S i) Ls2) as (h' & -> & N' & P' & F'); [lia|].
    exists h'. split; [done|]. split; [|split].
    + intros j a. rewrite N', N2, N1. repeat case_decide; naive_solver lia.
    + intros j a. rewrite P', P2, P1. repeat case_decide; naive_solver lia.
    + intros a. rewrite F', F2, F1. done.
Qed.

(** Construction of the sentinel in an empty memory. *)
Lemma skiplist_init_Ok s :
  exists h, skiplist_init ∅ s = Ok (h, s) /\
    (forall x, fields h x = if decide (x = s) then Some (0%nat, KEY_MAX, NULL) else None) /\
    (forall j x, nxt h j x =
       if decide (x = s /\ (j < MaxNumberOfLevels)%nat) then Some s else None) /\
    (forall j x, prv h j x =
       if decide (x = s /\ (j < MaxNumberOfLevels)%nat) then Some s else None).
Proof.
  destruct (new_fields_Ok ∅ s 0 KEY_MAX NULL (lookup_empty s))
    as (h0 & h1 & Hnew & Hst & F1 & N1 & P1).
  destruct (init_links_Ok MaxNumberOfLevels h1 s 0) as (h & Hrun & N & P & F).
  { rewrite F1, decide_True by done. eauto. }
  { lia. }
  exists h. unfold skiplist_init. rewrite Hnew, result_bind_Ok. cbv beta.
  rewrite Hst, result_bind_Ok. cbv beta. rewrite Hrun. split; [done|].
  split; [|split].
  - intros x. rewrite F, F1. case_decide; [done|]. unfold fields. rewrite lookup_empty. done.
  - intros j x. rewrite N, N1. unfold nxt at 1. rewrite lookup_empty. simpl.
    repeat case_decide; naive_solver lia.
  - intros j x. rewrite P, P1. unfold prv at 1. rewrite lookup_empty. simpl.
    repeat case_decide; naive_solver lia.
Qed.

Lemma new_skiplist_Inv s h :
  skiplist_init ∅ s = Ok (h, s) -> Inv s (new_skiplist h s).
Proof.
  intros Hrun. destruct (skiplist_init_Ok s) as (h0 & Hrun0 & F & N & P).
  rewrite Hrun in Hrun0. injection Hrun0 as <-.
  constructor; simpl.
  - done.
  - rewrite F, decide_True by done. done.
  - intros x lv kx vx Hx Hxs. rewrite F, decide_False in Hx by done. discriminate.
  - left. done.
  - lia.
  - intros j x y Hxy. rewrite N, P in Hxy. case_decide; naive_solver.
  - intros j Hj. exists []. constructor.
    + apply NoDup_singleton.
    + simpl. rewrite N, P, !decide_True by done. done.
    + intros x. split; [set_solver|]. intros (Hxs & lv & kx & vx & Hx & _).
      rewrite F, decide_False in Hx by done. discriminate.
    + constructor.
Qed.

Theorem reachable_Inv s st : reachable s st -> Inv s st.
Proof.
  induction 1 as [h Hrun|st fuel ky val r a st' q _ IH Hrun|st d st' _ IH Hds Hrun].
  - apply new_skiplist_Inv, Hrun.
  - eapply insert_Ok_Inv; done.
  - eapply delnode_Ok_Inv; done.
Qed.

End Init.

Section Walk.

Implicit Types (h : heap) (s a p q d : addr) (k j : nat) (c l : list addr) (st : state).

Lemma walk_from_links h s k : forall l p fuel,
  links (nxt h k) (prv h k) p l s -> s ∉ l -> (length l < fuel)%nat ->
  walk_from fuel h s k p = Ok l.
Proof.
  induction l as [|y l IH]; intros p fuel Hl Hs Hf.
  - destruct fuel as [|fuel]; [simpl in Hf; lia|]. simpl in *.
    destruct Hl as [Hl _]. rewrite load_next_nxt, Hl. simpl.
    rewrite bool_decide_eq_true_2 by done. done.
  - destruct fuel as [|fuel]; [simpl in Hf; lia|]. simpl in *.
    destruct Hl as (Hl & _ & Hl'). rewrite load_next_nxt, Hl. simpl.
    rewrite bool_decide_eq_false_2 by set_solver.
    rewrite (IH y fuel Hl'); [done|set_solver|lia].
Qed.

(** The walk of a level returns its chain. *)
Lemma walk_chain h s k c fuel :
  chain h s k c -> (length c < fuel)%nat -> walk fuel h s k = Ok c.
Proof.
  intros Hc Hf. apply walk_from_links; [apply (chain_links _ _ _ _ Hc)| |done].
  pose proof (chain_nodup _ _ _ _ Hc) as Hnd. apply NoDup_cons in Hnd. tauto.
Qed.

Lemma Inv_sorted_circular s st k :
  Inv s st -> (k < MaxNumberOfLevels)%nat -> sorted_circular s st k.
Proof.
  intros Hinv Hk. destruct (inv_chains _ _ Hinv k Hk) as [c Hc].
  exists (S (length c)), c. split; [apply walk_chain; [done|lia]|].
  apply (chain_sorted _ _ _ _ Hc).
Qed.

Lemma Inv_level_lt s st k :
  Inv s st -> (k <= lst_level (lst st))%nat -> (k < MaxNumberOfLevels)%nat.
Proof.
  intros Hinv Hk. pose proof (inv_bound _ _ Hinv).
  unfold MaxLevel, MaxNumberOfLevels in *. lia.
Qed.

Lemma demo_new_reachable : reachable 1 demo_new.
Proof. apply (reach_new 1 (mem demo_new)). vm_compute. reflexivity. Qed.

Lemma demo_1_reachable : reachable 1 demo_1.
Proof.
  eapply (reach_insert 1 demo_new 8 5 50 256 2 demo_1 2); [apply demo_new_reachable|].
  vm_compute. reflexivity.
Qed.

Lemma demo_2_reachable : reachable 1 demo_2.
Proof.
  eapply (reach_insert 1 demo_1 8 3 30 256 3 demo_2 3); [apply demo_1_reachable|].
  vm_compute. reflexivity.
Qed.

Lemma demo_3_reachable : reachable 1 demo_3.
Proof.
  eapply (reach_insert 1 demo_2 8 8 80 256 4 demo_3 4); [apply demo_2_reachable|].
  vm_compute. reflexivity.
Qed.

Lemma demo_4_reachable : reachable 1 demo_4.
Proof.
  eapply (reach_delnode 1 demo_3 3 demo_4); [apply demo_3_reachable|done|].
  vm_compute. reflexivity.
Qed.

(** C1: in every state reached from a fresh list by inserts and deletes,
    and on every level [k <= list.level], following [next[k]] from the
    sentinel returns to the sentinel and the keys met on the way never
    decrease; the states that an insert or a delete of a linked node
    returns have the same property. *)
Theorem circular_sorted_chains (s : addr) (st : state) :
  reachable s st ->
  (forall k, (k <= lst_level (lst st))%nat -> sorted_circular s st k) /\
  (forall fuel ky val randseed a st' q,
      skiplist_insert fuel s st ky val randseed a = Ok (st', q) ->
      forall k, (k <= lst_level (lst st'))%nat -> sorted_circular s st' k) /\
  (forall node st', node <> s ->
      skiplist_delnode s st node = Ok st' ->
      forall k, (k <= lst_level (lst st'))%nat -> sorted_circular s st' k).
Proof.
  intros Hr. pose proof (reachable_Inv s st Hr) as Hinv. split; [|split].
  - intros k Hk. eapply Inv_sorted_circular, Inv_level_lt; done.
  - intros fuel ky val r a st' q Hrun k Hk.
    pose proof (insert_Ok_Inv _ _ _ _ _ _ _ _ _ Hinv Hrun) as Hinv'.
    eapply Inv_sorted_circular, Inv_level_lt; done.
  - intros d st' Hds Hrun k Hk.
    pose proof (delnode_Ok_Inv _ _ _ _ Hinv Hds Hrun) as Hinv'.
    eapply Inv_sorted_circular, Inv_level_lt; done.
Qed.

Lemma circular_sorted_chains_witness :
  reachable 1 demo_3 /\ sorted_circular 1 demo_3 2.
Proof.
  split; [apply demo_3_reachable|].
  apply (proj1 (circular_sorted_chains 1 demo_3 demo_3_reachable)).
  vm_compute. lia.
Defined.

Lemma max_list_bound (l : list nat) (n : nat) :
  (forall x, x ∈ l -> (x <= n)%nat) -> (max_list l <= n)%nat.
Proof.
  induction l as [|x l IH]; intros H; simpl; [lia|].
  pose proof (H x ltac:(left)). pose proof (IH ltac:(intros y Hy; apply H; right; done)). lia.
Qed.

Lemma fields_level_at h a lv ky v : fields h a = Some (lv, ky, v) -> level_at h a = lv.
Proof.
  intros (n & Hn & <- & _)%fields_lookup. unfold level_at. rewrite Hn. done.
Qed.

Lemma Inv_height_is_max s st : Inv s st -> height_is_max s st.
Proof.
  intros Hinv. destruct (inv_chains _ _ Hinv 0%nat) as [c Hc]; [unfold MaxNumberOfLevels; lia|].
  exists (S (length c)), c. split; [apply walk_chain; [done|lia]|].
  apply Nat.le_antisymm.
  - destruct (inv_top _ _ Hinv) as [->|(x & kx & vx & Hxs & Hx)]; [lia|].
    apply max_list_elem_of_le, list_elem_of_fmap. exists x.
    split; [symmetry; eapply fields_level_at, Hx|].
    apply (chain_mem _ _ _ _ Hc). split; [done|]. exists (lst_level (lst st)), kx, vx.
    split; [done|lia].
  - apply max_list_bound. intros lv (x & -> & Hx)%list_elem_of_fmap.
    apply (chain_mem _ _ _ _ Hc) in Hx as (Hxs & lv & kx & vx & Hf & _).
    rewrite (fields_level_at _ _ _ _ _ Hf).
    apply (inv_nodes _ _ Hinv _ _ _ _ Hf Hxs).
Qed.

(** C2: in every reachable state [list.level] is the largest level among
    the linked nodes (0 when there is none).  An insert leaves the height
    alone or raises it by exactly one, the latter exactly when the random
    level exceeds the height; the new node then sits on the new top level
    directly behind the sentinel.  A delete never raises the height, and the
    height it leaves is again the largest level of the nodes that remain. *)
Theorem height_is_max_level (s : addr) (st : state) :
  reachable s st ->
  height_is_max s st /\
  (forall fuel ky val randseed a st' q,
      skiplist_insert fuel s st ky val randseed a = Ok (st', q) ->
      height_is_max s st' /\
      lst_level (lst st') = insert_height st randseed /\
      (lst_level (lst st) <= lst_level (lst st') <= S (lst_level (lst st)))%nat /\
      (randomLevel randseed <= lst_level (lst st) ->
         lst_level (lst st') = lst_level (lst st))%nat /\
      ((lst_level (lst st) < randomLevel randseed)%nat ->
         lst_level (lst st') = S (lst_level (lst st)) /\
         level_at (mem st') q = S (lst_level (lst st)) /\
         (exists update, insert_update fuel s st ky randseed = Ok update /\
                         update !! S (lst_level (lst st)) = Some s) /\
         nxt (mem st') (S (lst_level (lst st))) s = Some q /\
         prv (mem st') (S (lst_level (lst st))) q = Some s)) /\
  (forall node st', node <> s ->
      skiplist_delnode s st node = Ok st' ->
      height_is_max s st' /\ (lst_level (lst st') <= lst_level (lst st))%nat).
Proof.
  intros Hr. pose proof (reachable_Inv s st Hr) as Hinv. split; [|split].
  - apply Inv_height_is_max, Hinv.
  - intros fuel ky val r a st' q Hrun.
    pose proof (insert_Ok_Inv _ _ _ _ _ _ _ _ _ Hinv Hrun) as Hinv'.
    destruct (insert_Ok_inserted _ _ _ _ _ _ _ _ _ Hinv Hrun)
      as (Hky & Hfree & -> & update & h' & Hu & -> & Hins).
    apply fields_None in Hfree.
    split; [apply Inv_height_is_max, Hinv'|]. split; [done|]. simpl.
    split; [unfold insert_height; case_bool_decide; lia|].
    split; [intros Hle; unfold insert_height; rewrite bool_decide_eq_false_2 by lia; done|].
    intros Hlt.
    assert (HK : insert_level st r = S (lst_level (lst st))).
    { unfold insert_level. rewrite bool_decide_eq_true_2 by done. done. }
    pose proof (ins_top _ _ _ _ _ _ _ _ Hins Hlt) as Htop.
    split; [unfold insert_height; rewrite bool_decide_eq_true_2 by done; done|].
    split.
    { rewrite <- HK. eapply fields_level_at.
      apply (inserted_fields_new s st ky val r a update h' Hins). }
    split; [eauto|].
    destruct (inv_chains _ _ Hinv (S (lst_level (lst st)))) as [c Hc].
    { pose proof (randomLevel_le r). unfold MaxLevel, MaxNumberOfLevels in *. lia. }
    pose proof Hc as Hc0. apply chain_above_empty in Hc0 as ->; [|done|lia].
    destruct (chain_links _ _ _ _ Hc) as [Hn _].
    destruct (ins_low _ _ _ _ _ _ _ _ Hins (S (lst_level (lst st))) s ltac:(lia) Htop s)
      as [Hs1 _].
    destruct (ins_low _ _ _ _ _ _ _ _ Hins (S (lst_level (lst st))) s ltac:(lia) Htop a)
      as [_ Hs2].
    pose proof (inserted_sentinel s st ky val r a update h' Hinv Hfree Hins) as Has.
    unfold spliced_nxt in Hs1. unfold spliced_prv in Hs2.
    rewrite decide_True in Hs1 by done.
    rewrite Hn, decide_False, decide_True in Hs2 by naive_solver. done.
  - intros d st' Hds Hrun.
    pose proof (delnode_Ok_Inv _ _ _ _ Hinv Hds Hrun) as Hinv'.
    split; [apply Inv_height_is_max, Hinv'|].
    destruct (delnode_Ok_live _ _ _ _ Hrun) as (m & kd & vd & Hd).
    destruct (delnode_exec s st d m kd vd Hinv Hds Hd) as (h' & L' & Hrun' & Hun & Hk & Hs).
    rewrite Hrun in Hrun'. injection Hrun' as ->. simpl.
    destruct (inv_nodes _ _ Hinv _ _ _ _ Hd Hds) as [_ Hm].
    destruct (decide (m = lst_level (lst st))) as [Hml|Hml].
    + destruct (Hs Hml) as (Hle & _). lia.
    + rewrite Hk by done. lia.
Qed.

Lemma height_is_max_level_witness :
  reachable 1 demo_4 /\ height_is_max 1 demo_4.
Proof.
  split; [apply demo_4_reachable|].
  apply (proj1 (height_is_max_level 1 demo_4 demo_4_reachable)).
Defined.

(** C10: the sentinel keeps key [2^64 - 1], level 0 and null value in
    every reachable state; an insert and a delete leave these three fields
    of the sentinel as they found them, whatever they do to its slots. *)
Theorem sentinel_fields_frame (s : addr) (st : state) :
  reachable s st ->
  (exists n, mem st !! s = Some n /\ key n = KEY_MAX /\ level n = 0%nat /\ value n = NULL) /\
  (forall fuel ky val randseed a st' q,
      skiplist_insert fuel s st ky val randseed a = Ok (st', q) ->
      fields (mem st') s = fields (mem st) s) /\
  (forall node st', node <> s ->
      skiplist_delnode s st node = Ok st' ->
      fields (mem st') s = fields (mem st) s).
Proof.
  intros Hr. pose proof (reachable_Inv s st Hr) as Hinv. split; [|split].
  - pose proof (inv_sentinel _ _ Hinv) as Hs.
    apply fields_lookup in Hs as (n & Hn & ? & ? & ?). eauto.
  - intros fuel ky val r a st' q Hrun.
    pose proof (insert_Ok_Inv _ _ _ _ _ _ _ _ _ Hinv Hrun) as Hinv'.
    rewrite (inv_sentinel _ _ Hinv), (inv_sentinel _ _ Hinv'). done.
  - intros d st' Hds Hrun.
    pose proof (delnode_Ok_Inv _ _ _ _ Hinv Hds Hrun) as Hinv'.
    rewrite (inv_sentinel _ _ Hinv), (inv_sentinel _ _ Hinv'). done.
Qed.

Lemma sentinel_fields_frame_witness :
  reachable 1 demo_4 /\
  exists n, mem demo_4 !! 1%positive = Some n /\
    key n = KEY_MAX /\ level n = 0%nat /\ value n = NULL.
Proof.
  split; [apply demo_4_reachable|].
  apply (proj1 (sentinel_fields_frame 1 demo_4 demo_4_reachable)).
Defined.

End Walk.

Section InsertProperties.

Implicit Types (h : heap) (s a p q d : addr) (k j : nat) (c l : list addr) (st : state).

Lemma links_closed_prv (nx pv : addr -> option addr) x l z a :
  links nx pv x l z -> a ∈ l ++ [z] ->
  exists b, pv a = Some b /\ b ∈ x :: l.
Proof.
  revert x. induction l as [|y l IH]; intros x; simpl.
  - intros [_ H2] Ha. assert (a = z) as -> by set_solver. exists x. set_solver.
  - intros (H1 & H2 & H3) Ha. apply elem_of_cons in Ha as [->|Ha].
    + exists x. set_solver.
    + destruct (IH y H3 Ha) as (b & Hb1 & Hb2). exists b. set_solver.
Qed.

(** Where an insert that returned has put its node, and where a second
    insert of the same key puts the next one. *)
Lemma insert_Ok_placement (s : addr) (st : state) :
  reachable s st ->
  forall fuel ky val randseed a st' q,
    skiplist_insert fuel s st ky val randseed a = Ok (st', q) ->
    (forall k, (k <= level_at (mem st') q)%nat ->
       exists c1 c2 f1 f2 update,
         walk f1 (mem st) s k = Ok (c1 ++ c2) /\
         walk f2 (mem st') s k = Ok (c1 ++ q :: c2) /\
         keys_le (mem st) ky c1 /\ keys_gt (mem st) ky c2 /\
         insert_update fuel s st ky randseed = Ok update /\
         update !! k = Some (endof s c1)) /\
    (forall fuel2 val2 randseed2 a2 st2 q2,
       skiplist_insert fuel2 s st' ky val2 randseed2 a2 = Ok (st2, q2) ->
       exists f l1 l2 l3 lv lv2,
         walk f (mem st2) s 0 = Ok (l1 ++ q :: l2 ++ q2 :: l3) /\
         fields (mem st2) q = Some (lv, ky, val) /\
         fields (mem st2) q2 = Some (lv2, ky, val2)).
Proof.
  intros Hr fuel ky val r a st' q Hrun.
  pose proof (reachable_Inv s st Hr) as Hinv.
  pose proof (insert_Ok_Inv _ _ _ _ _ _ _ _ _ Hinv Hrun) as Hinv'.
  destruct (insert_Ok_inserted _ _ _ _ _ _ _ _ _ Hinv Hrun)
    as (Hky & Hfree & -> & update & h' & Hu & -> & Hins).
  apply fields_None in Hfree.
  pose proof (inserted_fields_new _ _ _ _ _ _ _ _ Hins) as Hnew.
  pose proof (insert_level_bound s st r Hinv) as Hlb.
  split.
  - intros k Hk. simpl in Hk. rewrite (fields_level_at _ _ _ _ _ Hnew) in Hk.
    destruct (inv_chains _ _ Hinv k) as [c Hc];
      [unfold MaxLevel, MaxNumberOfLevels in *; lia|].
    destruct (inserted_chain_low _ _ _ _ _ _ _ _ Hinv Hky Hfree Hins k c Hk Hc)
      as (c1 & c2 & -> & Hle & Hgt & Hup & Hc').
    exists c1, c2, (S (length (c1 ++ c2))), (S (length (c1 ++ a :: c2))), update.
    split; [apply walk_chain; [done|lia]|].
    split; [apply walk_chain; [done|lia]|]. done.
  - intros fuel2 val2 r2 a2 st2 q2 Hrun2.
    destruct (insert_Ok_inserted _ _ _ _ _ _ _ _ _ Hinv' Hrun2)
      as (_ & Hfree2 & -> & update2 & h2 & _ & -> & Hins2).
    apply fields_None in Hfree2. simpl in Hfree2.
    destruct (inv_chains _ _ Hinv 0%nat) as [c Hc]; [unfold MaxNumberOfLevels; lia|].
    destruct (inserted_chain_low _ _ _ _ _ _ _ _ Hinv Hky Hfree Hins 0%nat c ltac:(lia) Hc)
      as (c1 & c2 & -> & _ & _ & _ & Hc').
    destruct (inserted_chain_low _ _ _ _ _ _ _ _ Hinv' Hky Hfree2 Hins2 0%nat _ ltac:(lia) Hc')
      as (d1 & d2 & Hsplit & Hle & Hgt & _ & Hc2).
    simpl in *.
    assert (Hne : a <> a2) by (intros ->; congruence).
    assert (Hin : a ∈ d1).
    { assert (Hin : a ∈ d1 ++ d2) by (rewrite <- Hsplit; set_solver).
      apply elem_of_app in Hin as [Hin|Hin]; [done|exfalso].
      unfold keys_gt in Hgt. rewrite Forall_forall in Hgt. specialize (Hgt a Hin).
      rewrite (fields_key_at _ _ _ _ _ Hnew) in Hgt. lia. }
    apply list_elem_of_split in Hin as (l1 & l2 & ->).
    exists (S (length ((l1 ++ a :: l2) ++ a2 :: d2))), l1, l2, d2,
      (insert_level st r), (insert_level (insert_state st r h') r2).
    split; [|split].
    + rewrite <- app_assoc in Hc2. simpl in Hc2. apply walk_chain; [done|].
      rewrite <- app_assoc. simpl. lia.
    + rewrite (inserted_fields_old _ _ _ _ _ _ _ _ Hins2) by done. done.
    + apply (inserted_fields_new _ _ _ _ _ _ _ _ Hins2).
Qed.

(** With the sentinel's own key the insert places nothing: it never
    returns, whatever the fuel. *)
Lemma insert_sentinel_key_places_nothing :
  ~ insert_places_node 1 demo_3 KEY_MAX 7 1 5.
Proof.
  intros (fuel & st' & q & H & _).
  rewrite (skiplist_insert_diverges 1 demo_3 fuel KEY_MAX 7 1 5
             (reachable_Inv 1 demo_3 demo_3_reachable)) in H by lia.
  discriminate.
Qed.

(** C3, as the code has it: in every reachable state an insert of a key
    strictly below the sentinel's key [2^64 - 1] returns and puts the new
    node, on each of its levels, behind every linked node whose key is at
    most the new key and in front of every node whose key is larger; the
    predecessor the search records is the last node of that first part.
    Inserting the same key again returns as well and leaves the first node
    before the second on level 0.  Every run of the insert that returns,
    with whatever fuel, returns this state and this handle. *)
Theorem insert_after_equal_keys (s : addr) (st : state)
    (ky val randseed : Z) (a : addr) :
  reachable s st -> ky < KEY_MAX -> mem st !! a = None ->
  exists fuel st',
    skiplist_insert fuel s st ky val randseed a = Ok (st', a) /\
    insert_places_node s st ky val randseed a /\
    (forall k, (k <= level_at (mem st') a)%nat ->
       exists c1 c2 f1 f2 update,
         walk f1 (mem st) s k = Ok (c1 ++ c2) /\
         walk f2 (mem st') s k = Ok (c1 ++ a :: c2) /\
         keys_le (mem st) ky c1 /\ keys_gt (mem st) ky c2 /\
         insert_update fuel s st ky randseed = Ok update /\
         update !! k = Some (endof s c1)) /\
    (forall val2 randseed2 a2, mem st' !! a2 = None ->
       exists fuel2 st2 f l1 l2 l3 lv lv2,
         skiplist_insert fuel2 s st' ky val2 randseed2 a2 = Ok (st2, a2) /\
         walk f (mem st2) s 0 = Ok (l1 ++ a :: l2 ++ a2 :: l3) /\
         fields (mem st2) a = Some (lv, ky, val) /\
         fields (mem st2) a2 = Some (lv2, ky, val2)) /\
    (forall fuel' st'' q,
       skiplist_insert fuel' s st ky val randseed a = Ok (st'', q) ->
       st'' = st' /\ q = a).
Proof.
  intros Hr Hky Hfree. pose proof (reachable_Inv s st Hr) as Hinv.
  destruct (insert_exec' s st ky val randseed a Hinv Hky Hfree)
    as (f0 & update & h' & _ & Hrun & _).
  pose proof (Hrun f0 ltac:(lia)) as Hrun0.
  destruct (insert_Ok_placement s st Hr f0 ky val randseed a _ _ Hrun0) as [Hlev Hnext].
  assert (Hr' : reachable s (insert_state st randseed h')) by (eapply reach_insert; done).
  exists f0, (insert_state st randseed h'). split; [done|]. split; [|split; [done|split]].
  - exists f0, (insert_state st randseed h'), a. split; [done|].
    intros k Hk. destruct (Hlev k Hk) as (c1 & c2 & f1 & f2 & u & H1 & H2 & H3 & H4 & _).
    exists c1, c2, f1, f2. done.
  - intros val2 randseed2 a2 Hfree2.
    destruct (insert_exec' s _ ky val2 randseed2 a2 (reachable_Inv _ _ Hr') Hky Hfree2)
      as (f2 & update2 & h2 & _ & Hrun2 & _).
    pose proof (Hrun2 f2 ltac:(lia)) as Hrun2'.
    destruct (Hnext f2 val2 randseed2 a2 _ _ Hrun2') as (f & l1 & l2 & l3 & lv & lv2 & Hw).
    exists f2, (insert_state (insert_state st randseed h') randseed2 h2), f, l1, l2, l3, lv, lv2.
    split; [done|]. exact Hw.
  - intros fuel' st'' q Hrun'.
    pose proof (skiplist_insert_mono fuel' (fuel' + f0) _ _ _ _ _ _ _ ltac:(lia) Hrun') as H2.
    rewrite Hrun in H2 by lia. injection H2 as <- <-. done.
Qed.

Lemma insert_after_equal_keys_witness :
  reachable 1 demo_3 /\ mem demo_3 !! 5%positive = None /\
  exists fuel st',
    skiplist_insert fuel 1 demo_3 10 11 1 5 = Ok (st', 5%positive) /\
    forall val2 randseed2 a2, mem st' !! a2 = None ->
      exists fuel2 st2 f l1 l2 l3 lv lv2,
        skiplist_insert fuel2 1 st' 10 val2 randseed2 a2 = Ok (st2, a2) /\
        walk f (mem st2) 1 0 = Ok (l1 ++ 5%positive :: l2 ++ a2 :: l3) /\
        fields (mem st2) 5 = Some (lv, 10, 11) /\
        fields (mem st2) a2 = Some (lv2, 10, val2).
Proof.
  split; [apply demo_3_reachable|]. split; [vm_compute; reflexivity|].
  destruct (insert_after_equal_keys 1 demo_3 10 11 1 5%positive demo_3_reachable)
    as (fuel & st' & H1 & _ & _ & H2 & _); [unfold KEY_MAX; lia|vm_compute; reflexivity|].
  exists fuel, st'. split; [exact H1|exact H2].
Defined.

Lemma chain_has_elem h s k c x :
  chain h s k c -> x = s \/ has_level h k x -> x ∈ s :: c.
Proof.
  intros Hc [->|Hx]; [left|].
  destruct (decide (x = s)) as [->|Hxs]; [left|right].
  apply (chain_mem _ _ _ _ Hc). done.
Qed.

(** C8: the node an insert returns carries the key and the value that
    were passed and a level in [0, 15].  On each level up to its own it
    stands between the recorded predecessor and the node that followed that
    predecessor before, with all four pointers set; it lies on the chains
    of exactly those levels, and on every level above its own its slots were
    never written and no slot of any node points to it. *)
Theorem insert_links_node (s : addr) (st : state) :
  reachable s st ->
  forall fuel ky val randseed a st' q,
    skiplist_insert fuel s st ky val randseed a = Ok (st', q) ->
    exists lv update,
      fields (mem st') q = Some (lv, ky, val) /\ (0 <= lv <= 15)%nat /\
      insert_update fuel s st ky randseed = Ok update /\
      (forall k, (k <= lv)%nat -> exists p pn,
         update !! k = Some p /\ nxt (mem st) k p = Some pn /\
         nxt (mem st') k p = Some q /\ prv (mem st') k q = Some p /\
         nxt (mem st') k q = Some pn /\ prv (mem st') k pn = Some q) /\
      (forall k, (k < MaxNumberOfLevels)%nat -> exists f c,
         walk f (mem st') s k = Ok c /\ (q ∈ c <-> (k <= lv)%nat)) /\
      (forall k, (lv < k)%nat ->
         nxt (mem st') k q = None /\ prv (mem st') k q = None /\
         forall x, nxt (mem st') k x <> Some q /\ prv (mem st') k x <> Some q).
Proof.
  intros Hr fuel ky val r a st' q Hrun.
  pose proof (reachable_Inv s st Hr) as Hinv.
  pose proof (insert_Ok_Inv _ _ _ _ _ _ _ _ _ Hinv Hrun) as Hinv'.
  destruct (insert_Ok_inserted _ _ _ _ _ _ _ _ _ Hinv Hrun)
    as (Hky & Hfree & -> & update & h' & Hu & -> & Hins).
  apply fields_None in Hfree.
  pose proof (inserted_fields_new _ _ _ _ _ _ _ _ Hins) as Hnew.
  pose proof (insert_level_bound s st r Hinv) as Hlb.
  pose proof (inserted_sentinel _ _ _ _ _ _ _ _ Hinv Hfree Hins) as Has.
  assert (Hmem : forall k c, chain h' s k c -> a ∈ c <-> (k <= insert_level st r)%nat).
  { intros k c Hc. rewrite (chain_mem _ _ _ _ Hc). unfold has_level. rewrite Hnew.
    split; [intros (_ & lv & kx & vx & [= <- <- <-] & Hk); done|].
    intros Hk. split; [done|]. eauto 10. }
  exists (insert_level st r), update. simpl.
  split; [done|]. split; [unfold MaxLevel, MaxNumberOfLevels in *; lia|].
  split; [done|]. split; [|split].
  - intros k Hk.
    destruct (inv_chains _ _ Hinv k) as [c Hc];
      [unfold MaxLevel, MaxNumberOfLevels in *; lia|].
    destruct (inserted_chain_low _ _ _ _ _ _ _ _ Hinv Hky Hfree Hins k c Hk Hc)
      as (c1 & c2 & -> & _ & _ & Hup & Hc').
    exists (endof s c1), (startof s c2). split; [done|].
    destruct (links_edge _ _ _ _ _ _ (chain_links _ _ _ _ Hc)) as [He _].
    pose proof (chain_links _ _ _ _ Hc') as Hl'.
    destruct (links_around _ _ _ _ _ _ _ Hl') as [Hp Hn].
    destruct (links_edge _ _ s c1 (a :: c2) s Hl') as [Hpn _].
    replace (c1 ++ a :: c2) with ((c1 ++ [a]) ++ c2) in Hl' by (rewrite <- app_assoc; done).
    destruct (links_edge _ _ s (c1 ++ [a]) c2 s Hl') as [_ Hnp].
    rewrite endof_snoc in Hnp. done.
  - intros k Hk. destruct (inv_chains _ _ Hinv' k Hk) as [c Hc]. simpl in Hc.
    exists (S (length c)), c. split; [apply walk_chain; [done|lia]|]. apply Hmem, Hc.
  - intros k Hk.
    destruct (ins_high _ _ _ _ _ _ _ _ Hins k Hk a) as [-> ->].
    split; [apply nxt_dead, Hfree|]. split; [apply prv_dead, Hfree|].
    intros x. split; intros Hx.
    + destruct (inv_slots _ _ Hinv' k x a (or_introl Hx)) as [Hk16 Hlv]. simpl in Hlv.
      destruct (inv_chains _ _ Hinv' k Hk16) as [c Hc]. simpl in Hc.
      pose proof (chain_has_elem _ _ _ _ _ Hc Hlv) as Hin.
      destruct (links_closed _ _ _ _ _ _ (chain_links _ _ _ _ Hc) Hin) as (b & Hb & Hbin).
      rewrite Hx in Hb. injection Hb as <-.
      assert (Hac : a ∈ c) by set_solver. apply (Hmem _ _ Hc) in Hac. lia.
    + destruct (inv_slots _ _ Hinv' k x a (or_intror Hx)) as [Hk16 Hlv]. simpl in Hlv.
      destruct (inv_chains _ _ Hinv' k Hk16) as [c Hc]. simpl in Hc.
      pose proof (chain_has_elem _ _ _ _ _ Hc Hlv) as Hin.
      assert (Hin' : x ∈ c ++ [s]) by set_solver.
      destruct (links_closed_prv _ _ _ _ _ _ (chain_links _ _ _ _ Hc) Hin') as (b & Hb & Hbin).
      rewrite Hx in Hb. injection Hb as <-.
      assert (Hac : a ∈ c) by set_solver. apply (Hmem _ _ Hc) in Hac. lia.
Qed.

Lemma insert_links_node_witness :
  reachable 1 demo_2 /\
  exists lv update,
    fields (mem demo_3) 4 = Some (lv, 8, 80) /\ (0 <= lv <= 15)%nat /\
    insert_update 8 1 demo_2 8 256 = Ok update /\
    (forall k, (k <= lv)%nat -> exists p pn,
       update !! k = Some p /\ nxt (mem demo_2) k p = Some pn /\
       nxt (mem demo_3) k p = Some 4%positive /\ prv (mem demo_3) k 4 = Some p /\
       nxt (mem demo_3) k 4 = Some pn /\ prv (mem demo_3) k pn = Some 4%positive) /\
    (forall k, (k < MaxNumberOfLevels)%nat -> exists f c,
       walk f (mem demo_3) 1 k = Ok c /\ (4%positive ∈ c <-> (k <= lv)%nat)) /\
    (forall k, (lv < k)%nat ->
       nxt (mem demo_3) k 4 = None /\ prv (mem demo_3) k 4 = None /\
       forall x, nxt (mem demo_3) k x <> Some 4%positive /\
                 prv (mem demo_3) k x <> Some 4%positive).
Proof.
  split; [apply demo_2_reachable|].
  apply (insert_links_node 1 demo_2 demo_2_reachable 8%nat 8 80 256 4%positive demo_3 4%positive).
  vm_compute. reflexivity.
Defined.

End InsertProperties.

Section Roundtrip.

Implicit Types (h : heap) (s a p q d : addr) (k j : nat) (c l : list addr) (st : state).

(** Unlinking the node that was just spliced in gives back the old heap. *)
Lemma inserted_unlinked_heap s st ky val r a update h' h'' :
  Inv s st -> ky < KEY_MAX -> fields (mem st) a = None ->
  inserted s st ky val r a update h' ->
  unlinked (insert_state st r h') a (insert_level st r) h'' ->
  h'' = mem st.
Proof.
  intros Hinv Hky Hfree Hins Hun.
  pose proof (insert_level_bound s st r Hinv) as Hlb.
  assert (Hlow : forall j, (j <= insert_level st r)%nat -> exists p pn,
             update !! j = Some p /\ nxt (mem st) j p = Some pn /\
             prv (mem st) j pn = Some p /\ p <> a /\ pn <> a).
  { intros j Hj. destruct (inv_chains _ _ Hinv j) as [c Hc];
      [unfold MaxLevel, MaxNumberOfLevels in *; lia|].
    destruct (inserted_chain_low _ _ _ _ _ _ _ _ Hinv Hky Hfree Hins j c Hj Hc)
      as (c1 & c2 & -> & _ & _ & Hup & _).
    destruct (links_edge _ _ _ _ _ _ (chain_links _ _ _ _ Hc)) as [He1 He2].
    exists (endof s c1), (startof s c2). split; [done|]. split; [done|]. split; [done|].
    split.
    - intros E. apply nxt_live in He1. rewrite E, Hfree in He1. destruct He1 as [? [=]].
    - intros E. apply prv_live in He2. rewrite E, Hfree in He2. destruct He2 as [? [=]]. }
  apply heap_ext.
  - intros x. rewrite (del_fields _ _ _ _ Hun). simpl. case_decide as Hx.
    + subst. done.
    + apply (inserted_fields_old _ _ _ _ _ _ _ _ Hins), Hx.
  - intros j x. destruct (decide (x = a)) as [->|Hx].
    { destruct (del_dead _ _ _ _ Hun j) as [-> _]. symmetry. apply nxt_dead, Hfree. }
    destruct (decide (j <= insert_level st r)%nat) as [Hj|Hj].
    + destruct (Hlow j Hj) as (p & pn & Hup & Hn & Hp & Hpa & Hna).
      destruct (del_low _ _ _ _ Hun j Hj x Hx) as [-> _]. simpl.
      unfold unlinked_nxt.
      destruct (ins_low _ _ _ _ _ _ _ _ Hins j p Hj Hup a) as [-> ->].
      destruct (ins_low _ _ _ _ _ _ _ _ Hins j p Hj Hup x) as [-> _].
      unfold spliced_nxt, spliced_prv. rewrite Hn.
      repeat case_decide; naive_solver.
    + destruct (del_high _ _ _ _ Hun j ltac:(lia) x Hx) as [-> _]. simpl.
      apply (ins_high _ _ _ _ _ _ _ _ Hins j ltac:(lia) x).
  - intros j x. destruct (decide (x = a)) as [->|Hx].
    { destruct (del_dead _ _ _ _ Hun j) as [_ ->]. symmetry. apply prv_dead, Hfree. }
    destruct (decide (j <= insert_level st r)%nat) as [Hj|Hj].
    + destruct (Hlow j Hj) as (p & pn & Hup & Hn & Hp & Hpa & Hna).
      destruct (del_low _ _ _ _ Hun j Hj x Hx) as [_ ->]. simpl.
      unfold unlinked_prv.
      destruct (ins_low _ _ _ _ _ _ _ _ Hins j p Hj Hup a) as [-> ->].
      destruct (ins_low _ _ _ _ _ _ _ _ Hins j p Hj Hup x) as [_ ->].
      unfold spliced_nxt, spliced_prv. rewrite Hn.
      repeat case_decide; naive_solver.
    + destruct (del_high _ _ _ _ Hun j ltac:(lia) x Hx) as [_ ->]. simpl.
      apply (ins_high _ _ _ _ _ _ _ _ Hins j ltac:(lia) x).
Qed.

(** The top level of a list that is higher than 0 is occupied. *)
Lemma Inv_top_occupied s st :
  Inv s st -> lst_level (lst st) <> 0%nat -> ~ self_loop (mem st) s (lst_level (lst st)).
Proof.
  intros Hinv Hnz Hloop.
  destruct (inv_top _ _ Hinv) as [?|(x & kx & vx & Hxs & Hx)]; [done|].
  destruct (inv_chains _ _ Hinv (lst_level (lst st))) as [c Hc].
  { pose proof (inv_bound _ _ Hinv). unfold MaxLevel, MaxNumberOfLevels in *. lia. }
  apply (chain_self_loop _ _ _ _ Hc) in Hloop as ->.
  assert (Hin : x ∈ []); [|set_solver].
  apply (chain_mem _ _ _ _ Hc). split; [done|]. exists (lst_level (lst st)), kx, vx. done.
Qed.

Lemma Inv_above_loop s st k :
  Inv s st -> (lst_level (lst st) < k < MaxNumberOfLevels)%nat -> self_loop (mem st) s k.
Proof.
  intros Hinv Hk. destruct (inv_chains _ _ Hinv k) as [c Hc]; [lia|].
  apply (chain_self_loop _ _ _ _ Hc). eapply chain_above_empty; [done| |done]. lia.
Qed.

Lemma insert_delnode_exec s st ky val r a update h' :
  Inv s st -> ky < KEY_MAX -> fields (mem st) a = None ->
  inserted s st ky val r a update h' ->
  skiplist_delnode s (insert_state st r h') a = Ok st.
Proof.
  intros Hinv Hky Hfree Hins.
  pose proof (inserted_Inv _ _ _ _ _ _ _ _ Hinv Hky Hfree Hins) as Hinv'.
  pose proof (inserted_fields_new _ _ _ _ _ _ _ _ Hins) as Hnew.
  pose proof (inserted_sentinel _ _ _ _ _ _ _ _ Hinv Hfree Hins) as Has.
  pose proof (insert_level_bound s st r Hinv) as Hlb.
  destruct (delnode_exec s (insert_state st r h') a (insert_level st r) ky val Hinv' Has Hnew)
    as (h'' & L'' & Hrun & Hun & Hkeep & Hshr).
  rewrite Hrun. f_equal.
  rewrite (inserted_unlinked_heap _ _ _ _ _ _ _ _ _ Hinv Hky Hfree Hins Hun) in *.
  simpl in *. destruct st as [h [L hd]]. simpl in *. f_equal. f_equal.
  unfold insert_level, insert_height in *. simpl in *.
  pose proof (Inv_top_occupied _ _ Hinv) as Hocc. simpl in Hocc.
  case_bool_decide as Hg.
  - destruct (Hshr eq_refl) as (Hle & Hemp & Htop).
    destruct (decide (L'' = S L)) as [->|Hne].
    { destruct Htop as [?|Htop]; [done|]. exfalso. apply Htop.
      apply (Inv_above_loop s _ (S L) Hinv). simpl.
      unfold MaxLevel, MaxNumberOfLevels in *. lia. }
    destruct (decide (L'' = L)) as [|Hne']; [done|exfalso].
    apply Hocc; [lia|]. apply Hemp. lia.
  - destruct (decide (randomLevel r = L)) as [Hr|Hr]; [|apply Hkeep, Hr].
    destruct (Hshr Hr) as (Hle & Hemp & Htop).
    destruct (decide (L'' = L)) as [|Hne']; [done|exfalso].
    apply Hocc; [lia|]. apply Hemp. lia.
Qed.

(** C9: in a state that satisfies the invariant, an insert of a key
    below the sentinel's at a free address returns, and deleting the handle
    it returned gives back the state from before the insert: every slot of
    every node, the sentinel's slots and the height.  The insert returns the
    same state whatever fuel lets it finish. *)
Theorem insert_then_delnode_restores (s : addr) (st : state)
    (ky val randseed : Z) (a : addr) :
  Inv s st -> ky < KEY_MAX -> mem st !! a = None ->
  exists fuel st',
    skiplist_insert fuel s st ky val randseed a = Ok (st', a) /\
    skiplist_delnode s st' a = Ok st /\
    (forall fuel2 st2 q2,
        skiplist_insert fuel2 s st ky val randseed a = Ok (st2, q2) ->
        st2 = st' /\ q2 = a).
Proof.
  intros Hinv Hky Hfree.
  destruct (insert_exec' s st ky val randseed a Hinv Hky Hfree)
    as (f0 & update & h' & _ & Hrun & Hins).
  exists f0, (insert_state st randseed h'). split; [apply Hrun; lia|].
  split; [eapply insert_delnode_exec; [done..|apply fields_None, Hfree|done]|].
  intros fuel2 st2 q2 Hrun2.
  pose proof (skiplist_insert_mono fuel2 (fuel2 + f0) _ _ _ _ _ _ _ ltac:(lia) Hrun2) as H2.
  rewrite Hrun in H2 by lia. injection H2 as <- <-. done.
Qed.

Lemma demo_3_Inv : Inv 1 demo_3.
Proof. apply reachable_Inv, demo_3_reachable. Qed.

Lemma insert_then_delnode_restores_witness :
  Inv 1 demo_3 /\
  exists fuel st',
    skiplist_insert fuel 1 demo_3 4 40 16 5 = Ok (st', 5%positive) /\
    skiplist_delnode 1 st' 5 = Ok demo_3.
Proof.
  split; [apply demo_3_Inv|].
  destruct (insert_then_delnode_restores 1 demo_3 4 40 16 5%positive demo_3_Inv)
    as (fuel & st' & H1 & H2 & _); [unfold KEY_MAX; lia|vm_compute; reflexivity|].
  exists fuel, st'. split; [exact H1|exact H2].
Defined.

End Roundtrip.

Section Termination.

Implicit Types (h : heap) (s a p q d : addr) (k j : nat) (c l : list addr) (st : state).

Lemma demo_new_Inv : Inv 1 demo_new.
Proof. apply reachable_Inv, demo_new_reachable. Qed.

(** The search for the sentinel's own key in a fresh list never leaves
    the loop: no amount of fuel lets the insert return. *)
Lemma insert_sentinel_key_diverges :
  ~ exists fuel st' q,
      skiplist_insert fuel 1 demo_new KEY_MAX 7 1 2 = Ok (st', q).
Proof.
  intros (fuel & st' & q & H).
  rewrite (skiplist_insert_diverges 1 demo_new fuel KEY_MAX 7 1 2 demo_new_Inv) in H
    by lia.
  discriminate.
Qed.

(** C5, as the code has it: in every reachable state an insert of a key
    strictly below the sentinel's key [2^64 - 1] at a free address runs to
    completion and returns that address as the handle, whatever the value
    and the seed and whether or not the key is already present; with a key
    that is not below the sentinel's the search loop never terminates. *)
Theorem insert_terminates_below_sentinel (s : addr) (st : state)
    (ky val randseed : Z) (a : addr) :
  reachable s st -> mem st !! a = None ->
  (ky < KEY_MAX ->
     exists fuel st', forall fuel', (fuel <= fuel')%nat ->
       skiplist_insert fuel' s st ky val randseed a = Ok (st', a)) /\
  (KEY_MAX <= ky ->
     forall fuel, skiplist_insert fuel s st ky val randseed a = Timeout).
Proof.
  intros Hr Hfree. pose proof (reachable_Inv s st Hr) as Hinv. split.
  - intros Hky.
    destruct (insert_exec' s st ky val randseed a Hinv Hky Hfree)
      as (f0 & update & h' & _ & Hrun & _).
    exists f0, (insert_state st randseed h'). exact Hrun.
  - intros Hky fuel. apply skiplist_insert_diverges; done.
Qed.

Lemma insert_terminates_below_sentinel_witness :
  reachable 1 demo_3 /\ mem demo_3 !! 5%positive = None /\
  exists fuel st', forall fuel', (fuel <= fuel')%nat ->
    skiplist_insert fuel' 1 demo_3 5 51 0 5 = Ok (st', 5%positive).
Proof.
  split; [apply demo_3_reachable|]. split; [vm_compute; reflexivity|].
  apply (insert_terminates_below_sentinel 1 demo_3 5 51 0 5%positive demo_3_reachable).
  - vm_compute. reflexivity.
  - unfold KEY_MAX. lia.
Defined.

(** In the sample state the node at 4 is alone on level 3, and when it
    goes the height falls from 3 to 1. *)
Lemma delnode_top_drops_two : ~ delnode_top_drops_one 1.
Proof.
  intros H.
  assert (Hall : map_Forall (fun x n => x = 1%positive \/ x = 4%positive \/ level n <> 3%nat)
                   (mem demo_4)).
  { apply (bool_decide_unpack _). vm_compute. exact I. }
  destruct (H demo_4 4%positive (demo_del demo_4 4) demo_4_reachable) as [[_ H1] _].
  - done.
  - vm_compute. eauto.
  - vm_compute. reflexivity.
  - vm_compute. reflexivity.
  - assert (Hlv : (3 = S (lst_level (lst (demo_del demo_4 4))))%nat); [|vm_compute in Hlv; lia].
    apply H1. intros x Hxs Hx4 [n Hn]%live_lookup.
    destruct (Hall x n Hn) as [E|[E|Hl]];
      [exact (False_ind _ (Hxs E))|exact (False_ind _ (Hx4 E))|].
    unfold level_at. rewrite Hn. exact Hl.
Qed.

End Termination.

Section DeleteProperties.

Implicit Types (h : heap) (s a p q d : addr) (k j : nat) (c l : list addr) (st : state).

(** C6, as the code has it: deleting a node whose level is the height of
    the list lowers the height exactly when the height is above 0 and no
    other linked node has that level; the height then falls to the largest
    level among the nodes that remain, which can be more than one below.
    In every other case the height stays as it was. *)
Theorem delnode_top_level (s : addr) (st : state) (node : addr) (kd vd : Z) :
  reachable s st -> node <> s ->
  fields (mem st) node = Some (lst_level (lst st), kd, vd) ->
  exists st',
    skiplist_delnode s st node = Ok st' /\
    (lst_level (lst st') <= lst_level (lst st))%nat /\
    height_is_max s st' /\
    ((lst_level (lst st') < lst_level (lst st))%nat <->
     (0 < lst_level (lst st))%nat /\ alone_on_top s st node) /\
    (~ ((0 < lst_level (lst st))%nat /\ alone_on_top s st node) ->
     lst_level (lst st') = lst_level (lst st)).
Proof.
  intros Hr Hds Hd. pose proof (reachable_Inv s st Hr) as Hinv.
  destruct (delnode_exec s st node _ kd vd Hinv Hds Hd) as (h' & L' & Hrun & Hun & Hsh).
  pose proof (delnode_Inv _ _ _ _ _ _ _ _ Hinv Hds Hd Hun Hsh) as Hinv'.
  exists (mkState h' (mkList L' (header (lst st)))). simpl.
  destruct Hsh as [_ Hsh]. destruct (Hsh eq_refl) as (Hle & _ & _).
  assert (Hiff : (L' < lst_level (lst st))%nat <->
                 (0 < lst_level (lst st))%nat /\ alone_on_top s st node).
  { split.
    - intros Hlt. split; [lia|]. intros x Hxs Hxn [[[lv kx] vx] Hx] Hlv.
      rewrite (fields_level_at _ _ _ _ _ Hx) in Hlv. subst lv.
      rewrite <- (unlinked_fields_old _ _ _ _ Hun x Hxn) in Hx.
      destruct (inv_nodes _ _ Hinv' _ _ _ _ Hx Hxs) as [_ Hb]. simpl in Hb. lia.
    - intros [Hpos Halone].
      destruct (inv_top _ _ Hinv') as [H0|(x & kx & vx & Hxs & Hx)]; simpl in *; [lia|].
      assert (Hxn : x <> node).
      { intros ->. rewrite (unlinked_fields_gone _ _ _ _ Hun) in Hx. discriminate. }
      rewrite (unlinked_fields_old _ _ _ _ Hun x Hxn) in Hx.
      specialize (Halone x Hxs Hxn ltac:(rewrite Hx; eauto)).
      rewrite (fields_level_at _ _ _ _ _ Hx) in Halone. lia. }
  split; [done|]. split; [done|]. split; [apply Inv_height_is_max, Hinv'|].
  split; [done|]. intros Hn. rewrite <- Hiff in Hn. lia.
Qed.

Lemma delnode_top_level_witness :
  reachable 1 demo_4 /\
  exists st',
    skiplist_delnode 1 demo_4 4 = Ok st' /\
    (lst_level (lst st') <= lst_level (lst demo_4))%nat /\
    height_is_max 1 st' /\
    ((lst_level (lst st') < lst_level (lst demo_4))%nat <->
     (0 < lst_level (lst demo_4))%nat /\ alone_on_top 1 demo_4 4) /\
    (~ ((0 < lst_level (lst demo_4))%nat /\ alone_on_top 1 demo_4 4) ->
     lst_level (lst st') = lst_level (lst demo_4)).
Proof.
  split; [apply demo_4_reachable|].
  apply (delnode_top_level 1 demo_4 4%positive 8 80 demo_4_reachable).
  - discriminate.
  - vm_compute. reflexivity.
Defined.

Lemma insert_all_mono fuel fuel' s items : forall st x,
  (fuel <= fuel')%nat ->
  insert_all fuel s st items = Ok x -> insert_all fuel' s st items = Ok x.
Proof.
  induction items as [|[[[ky val] r] a] rest IH]; intros st x Hf; [done|].
  cbn [insert_all].
  destruct (skiplist_insert fuel s st ky val r a) as [[st1 q]| |] eqn:E;
    simpl; try discriminate.
  rewrite (skiplist_insert_mono _ _ _ _ _ _ _ _ _ Hf E). simpl.
  destruct (insert_all fuel s st1 rest) as [[st2 qs]| |] eqn:E2; simpl; try discriminate.
  rewrite (IH _ _ Hf E2). done.
Qed.

Lemma insert_all_spec fuel s items : forall st st' handles,
  Inv s st -> insert_all fuel s st items = Ok (st', handles) ->
  Inv s st' /\ NoDup handles /\
  (forall x, live st' x <-> live st x \/ x ∈ handles) /\
  (forall x, x ∈ handles -> ~ live st x).
Proof.
  induction items as [|[[[ky val] r] a] rest IH]; intros st st' handles Hinv Hrun.
  - injection Hrun as <- <-. split; [done|]. split; [constructor|].
    split; [set_solver|set_solver].
  - cbn [insert_all] in Hrun.
    destruct (skiplist_insert fuel s st ky val r a) as [[st1 q]| |] eqn:E;
      simpl in Hrun; try discriminate.
    destruct (insert_all fuel s st1 rest) as [[st2 qs]| |] eqn:E2;
      simpl in Hrun; try discriminate.
    injection Hrun as <- <-.
    pose proof (insert_Ok_Inv _ _ _ _ _ _ _ _ _ Hinv E) as Hinv1.
    destruct (insert_Ok_inserted _ _ _ _ _ _ _ _ _ Hinv E)
      as (Hky & Hfree & -> & update & h' & _ & -> & Hins).
    apply fields_None in Hfree.
    destruct (IH _ _ _ Hinv1 E2) as (Hinv2 & Hnd & Hlive & Hnew).
    assert (Hl1 : forall x, live (insert_state st r h') x <-> live st x \/ x = a).
    { intros x. unfold live. simpl. rewrite (ins_fields _ _ _ _ _ _ _ _ Hins).
      case_decide; [subst; split; eauto|]. split; [eauto|]. intros [?|?]; done. }
    split; [done|]. split; [|split].
    + constructor; [|done]. intros Ha. apply (Hnew _ Ha), Hl1. right. done.
    + intros x. rewrite Hlive, Hl1, elem_of_cons. tauto.
    + intros x [->|Hx]%elem_of_cons.
      * unfold live. rewrite Hfree. intros [? [=]].
      * intros Hl. apply (Hnew _ Hx), Hl1. left. done.
Qed.

Lemma insert_all_total s items : forall st,
  Inv s st ->
  Forall (fun it => it.1.1.1 < KEY_MAX) items ->
  NoDup (snd <$> items) ->
  (forall x, x ∈ (snd <$> items) -> ~ live st x) ->
  exists fuel st', insert_all fuel s st items = Ok (st', snd <$> items).
Proof.
  induction items as [|[[[ky val] r] a] rest IH]; intros st Hinv Hkeys Hnd Hfresh.
  - exists 0%nat, st. done.
  - apply Forall_cons in Hkeys as [Hky Hkeys]. simpl in Hky.
    cbn [fmap list_fmap snd] in *. apply NoDup_cons in Hnd as [Ha Hnd].
    assert (Hfree : mem st !! a = None).
    { apply fields_None. destruct (fields (mem st) a) eqn:E; [|done].
      exfalso. apply (Hfresh a); [left|]. unfold live. rewrite E. eauto. }
    destruct (insert_exec' s st ky val r a Hinv Hky Hfree) as (f0 & update & h' & _ & Hrun & Hins).
    pose proof (inserted_Inv _ _ _ _ _ _ _ _ Hinv Hky (proj1 (fields_None _ _) Hfree) Hins)
      as Hinv1.
    destruct (IH (insert_state st r h') Hinv1 Hkeys Hnd) as (f1 & st' & Hrun').
    { intros x Hx Hl. unfold live in Hl. simpl in Hl.
      rewrite (ins_fields _ _ _ _ _ _ _ _ Hins) in Hl. case_decide.
      - subst. done.
      - apply (Hfresh x); [right; done|done]. }
    exists (f0 + f1)%nat, st'. cbn [insert_all]. rewrite Hrun by lia. simpl.
    rewrite (insert_all_mono f1 (f0 + f1) _ _ _ _ ltac:(lia) Hrun'). done.
Qed.

Lemma delnode_all_spec s nodes : forall st,
  Inv s st -> NoDup nodes -> s ∉ nodes -> (forall x, x ∈ nodes -> live st x) ->
  exists st', delnode_all s st nodes = Ok st' /\ Inv s st' /\
    (forall x, live st' x <-> live st x /\ x ∉ nodes).
Proof.
  induction nodes as [|d rest IH]; intros st Hinv Hnd Hs Hlive.
  - exists st. split; [done|]. split; [done|]. set_solver.
  - apply NoDup_cons in Hnd as [Hd Hnd].
    assert (Hds : d <> s) by set_solver.
    destruct (Hlive d ltac:(left)) as [[[m kd] vd] Hf].
    destruct (delnode_exec s st d m kd vd Hinv Hds Hf) as (h' & L' & Hrun & Hun & Hsh).
    pose proof (delnode_Inv _ _ _ _ _ _ _ _ Hinv Hds Hf Hun Hsh) as Hinv'.
    assert (Hl1 : forall x, live (mkState h' (mkList L' (header (lst st)))) x <->
                            live st x /\ x <> d).
    { intros x. unfold live. simpl. rewrite (del_fields _ _ _ _ Hun).
      case_decide; [subst; split; [intros [? [=]]|tauto]|tauto]. }
    destruct (IH _ Hinv' Hnd) as (st' & Hrun' & Hinv'' & Hl2).
    { set_solver. }
    { intros x Hx. apply Hl1. split; [apply Hlive; right; done|]. intros ->. done. }
    exists st'. cbn [delnode_all]. rewrite Hrun. simpl. split; [done|]. split; [done|].
    intros x. rewrite Hl2, Hl1, elem_of_cons. tauto.
Qed.

(** A state in which only the sentinel is allocated is the fresh list. *)
Lemma Inv_only_sentinel s st h0 :
  Inv s st -> (forall x, live st x -> x = s) ->
  skiplist_init ∅ s = Ok (h0, s) -> st = new_skiplist h0 s.
Proof.
  intros Hinv Honly Hinit.
  destruct (skiplist_init_Ok s) as (h0' & Hinit' & F0 & N0 & P0).
  rewrite Hinit in Hinit'. injection Hinit' as <-.
  assert (Hdead : forall x, x <> s -> fields (mem st) x = None).
  { intros x Hx. destruct (fields (mem st) x) eqn:E; [|done].
    exfalso. apply Hx, Honly. unfold live. rewrite E. eauto. }
  assert (Hloop : forall j, (j < MaxNumberOfLevels)%nat -> self_loop (mem st) s j).
  { intros j Hj. destruct (inv_chains _ _ Hinv j Hj) as [c Hc].
    apply (chain_self_loop _ _ _ _ Hc). destruct c as [|x c]; [done|exfalso].
    assert (Hx : x ∈ x :: c) by left.
    apply (chain_mem _ _ _ _ Hc) in Hx as (Hxs & lv & kx & vx & Hf & _).
    rewrite Hdead in Hf by done. discriminate. }
  assert (Hmem : mem st = h0).
  { apply heap_ext.
    - intros x. rewrite F0. case_decide as Hx.
      + subst. apply (inv_sentinel _ _ Hinv).
      + apply Hdead, Hx.
    - intros j x. rewrite N0. case_decide as Hx.
      + destruct Hx as [-> Hj]. apply (Hloop j Hj).
      + destruct (nxt (mem st) j x) as [y|] eqn:E; [exfalso|done].
        destruct (inv_slots _ _ Hinv j x y (or_introl E)) as [Hj [->|Hlv]]; [tauto|].
        destruct (decide (x = s)) as [->|Hxs]; [tauto|].
        destruct Hlv as (lv & kx & vx & Hf & _). rewrite Hdead in Hf by done. discriminate.
    - intros j x. rewrite P0. case_decide as Hx.
      + destruct Hx as [-> Hj]. apply (Hloop j Hj).
      + destruct (prv (mem st) j x) as [y|] eqn:E; [exfalso|done].
        destruct (inv_slots _ _ Hinv j x y (or_intror E)) as [Hj [->|Hlv]]; [tauto|].
        destruct (decide (x = s)) as [->|Hxs]; [tauto|].
        destruct Hlv as (lv & kx & vx & Hf & _). rewrite Hdead in Hf by done. discriminate. }
  assert (Hlevel : lst_level (lst st) = 0%nat).
  { destruct (inv_top _ _ Hinv) as [?|(x & kx & vx & Hxs & Hx)]; [done|].
    rewrite Hdead in Hx by done. discriminate. }
  pose proof (inv_header _ _ Hinv) as Hhd.
  destruct st as [h [L hd]]. simpl in *. subst. done.
Qed.

(** C7: from a fresh list, whatever items were inserted, deleting the
    returned handles in any order gives back the fresh list itself: height 0
    and, on each of the 16 levels, the sentinel's [next] and [prev] pointing
    at the sentinel.  The inserts themselves go through for keys below the
    sentinel's at distinct free addresses. *)
Theorem insert_all_delnode_all_empty (s : addr) (h0 : heap) :
  skiplist_init ∅ s = Ok (h0, s) ->
  (forall fuel items st handles nodes,
      insert_all fuel s (new_skiplist h0 s) items = Ok (st, handles) ->
      nodes ≡ₚ handles ->
      delnode_all s st nodes = Ok (new_skiplist h0 s)) /\
  lst_level (lst (new_skiplist h0 s)) = 0%nat /\
  (forall k, (k < MaxNumberOfLevels)%nat ->
      nxt (mem (new_skiplist h0 s)) k s = Some s /\
      prv (mem (new_skiplist h0 s)) k s = Some s) /\
  (forall items,
      Forall (fun it => it.1.1.1 < KEY_MAX) items ->
      NoDup (snd <$> items) -> s ∉ snd <$> items ->
      exists fuel st,
        insert_all fuel s (new_skiplist h0 s) items = Ok (st, snd <$> items)).
Proof.
  intros Hinit. pose proof (new_skiplist_Inv s h0 Hinit) as Hinv0.
  destruct (skiplist_init_Ok s) as (h0' & Hinit' & F0 & N0 & P0).
  rewrite Hinit in Hinit'. injection Hinit' as <-.
  assert (Hlive0 : forall x, live (new_skiplist h0 s) x <-> x = s).
  { intros x. unfold live. simpl. rewrite F0. case_decide; [subst; split; eauto|].
    split; [intros [? [=]]|done]. }
  split; [|split; [done|split]].
  - intros fuel items st handles nodes Hrun Hperm.
    destruct (insert_all_spec _ _ _ _ _ _ Hinv0 Hrun) as (Hinv & Hnd & Hlive & Hnew).
    destruct (delnode_all_spec s nodes st Hinv) as (st' & Hrun' & Hinv' & Hlive').
    { rewrite Hperm. done. }
    { rewrite Hperm. intros Hs. apply (Hnew _ Hs), Hlive0. done. }
    { intros x Hx. apply Hlive. right. rewrite <- Hperm. done. }
    rewrite Hrun'. f_equal. apply (Inv_only_sentinel s st' h0 Hinv'); [|done].
    intros x Hx. apply Hlive' in Hx as [Hx Hout]. apply Hlive in Hx as [Hx|Hx].
    + apply Hlive0, Hx.
    + exfalso. apply Hout. rewrite Hperm. done.
  - intros k Hk. simpl. rewrite N0, P0, !decide_True by done. done.
  - intros items Hkeys Hnd Hs. apply insert_all_total; [done..|].
    intros x Hx Hl. apply Hlive0 in Hl. subst. done.
Qed.

Lemma insert_all_delnode_all_empty_witness :
  skiplist_init ∅ 1 = Ok (mem demo_new, 1%positive) /\
  delnode_all 1 demo_3 [3; 4; 2]%positive = Ok demo_new.
Proof.
  assert (Hinit : skiplist_init ∅ 1 = Ok (mem demo_new, 1%positive))
    by (vm_compute; reflexivity).
  split; [exact Hinit|].
  apply (proj1 (insert_all_delnode_all_empty 1 (mem demo_new) Hinit) 8%nat
           [(5, 50, 256, 2%positive); (3, 30, 256, 3%positive); (8, 80, 256, 4%positive)]
           demo_3 [2; 3; 4]%positive [3; 4; 2]%positive).
  - vm_compute. reflexivity.
  - apply (bool_decide_unpack _). vm_compute. exact I.
Defined.

End DeleteProperties.

(** * Further properties of the five routines *)

Section Construction.

(** X1: [skiplist_init] in an empty memory, at whatever address the
    allocator picks, returns a sentinel with key [2^64 - 1], level 0 and
    null value whose sixteen [next] and [prev] slots all point to itself
    and nothing beyond them; [new_skiplist] on it gives a list of height 0
    that satisfies the invariant, and every level is an empty chain. *)
Theorem skiplist_init_fresh (s : addr) :
  exists h,
    skiplist_init ∅ s = Ok (h, s) /\
    fields h s = Some (0%nat, KEY_MAX, NULL) /\
    (forall x, x <> s -> h !! x = None) /\
    (forall k, (k < MaxNumberOfLevels)%nat ->
       nxt h k s = Some s /\ prv h k s = Some s /\ walk 1 h s k = Ok []) /\
    (forall k, (MaxNumberOfLevels <= k)%nat -> nxt h k s = None /\ prv h k s = None) /\
    lst_level (lst (new_skiplist h s)) = 0%nat /\
    header (lst (new_skiplist h s)) = s /\
    Inv s (new_skiplist h s).
Proof.
  destruct (skiplist_init_Ok s) as (h & Hrun & F & N & P).
  exists h. split; [done|]. split; [rewrite F, decide_True by done; done|].
  split; [|split; [|split; [|split; [done|split; [done|]]]]].
  - intros x Hx. apply fields_None. rewrite F, decide_False by done. done.
  - intros k Hk. rewrite N, P, !decide_True by done. split; [done|]. split; [done|].
    unfold walk. cbn [walk_from]. rewrite load_next_nxt, N, decide_True by done.
    simpl. rewrite bool_decide_eq_true_2 by done. done.
  - intros k Hk. rewrite N, P, !decide_False by (intros [_ ?]; lia). done.
  - apply new_skiplist_Inv, Hrun.
Qed.

End Construction.

Section Observations.

Implicit Types (h : heap) (s a p q d : addr) (k j : nat) (c l : list addr) (st : state).

Lemma live_has_level st x : live st x <-> has_level (mem st) 0 x.
Proof.
  unfold live, has_level. split.
  - intros [[[lv kx] vx] Hx]. exists lv, kx, vx. split; [done|lia].
  - intros (lv & kx & vx & Hx & _). rewrite Hx. eauto.
Qed.

(** X2: in every reachable state the caller's read of [header->next[0]]
    succeeds and yields a node whose key is the smallest among all
    allocated nodes; it yields the sentinel exactly when no node is
    linked. *)
Theorem header_next_is_min (s : addr) (st : state) :
  reachable s st ->
  exists q,
    load_next (mem st) (header (lst st)) 0 = Ok q /\
    live st q /\
    (forall x, live st x -> key_at (mem st) q <= key_at (mem st) x) /\
    (q = s <-> forall x, live st x -> x = s).
Proof.
  intros Hr. pose proof (reachable_Inv s st Hr) as Hinv.
  pose proof (inv_sentinel _ _ Hinv) as Hs.
  pose proof (sentinel_live _ _ _ _ _ Hs) as Ls.
  destruct (inv_chains _ _ Hinv 0%nat) as [c Hc]; [unfold MaxNumberOfLevels; lia|].
  pose proof (chain_links _ _ _ _ Hc) as Hl.
  assert (Hmem : forall x, x ∈ c <-> x <> s /\ live st x).
  { intros x. rewrite (chain_mem _ _ _ _ Hc), live_has_level. done. }
  rewrite (inv_header _ _ Hinv), load_next_nxt.
  destruct c as [|y c].
  - destruct Hl as [Hn _]. exists s. rewrite Hn. split; [done|]. split; [done|].
    assert (Honly : forall x, live st x -> x = s).
    { intros x Hx. destruct (decide (x = s)) as [|Hne]; [done|].
      assert (x ∈ []) by (apply Hmem; done). set_solver. }
    split; [|done]. intros x Hx. rewrite (Honly x Hx). lia.
  - destruct Hl as (Hn & _ & _). exists y. rewrite Hn. split; [done|].
    assert (Hy : y ∈ y :: c) by left. apply Hmem in Hy as [Hys Ly].
    split; [done|]. split.
    + intros x Hx. destruct (decide (x = s)) as [->|Hne].
      * rewrite (sentinel_key _ _ _ _ _ Hs). destruct Ly as [[[lv ky] vy] Hf].
        rewrite (fields_key_at _ _ _ _ _ Hf).
        destruct (inv_nodes _ _ Hinv _ _ _ _ Hf Hys). lia.
      * assert (Hin : x ∈ y :: c) by (apply Hmem; done).
        apply elem_of_cons in Hin as [->|Hin]; [lia|].
        pose proof (chain_sorted _ _ _ _ Hc) as Hsort.
        apply sorted_keys_cons in Hsort as [Hall _].
        rewrite Forall_forall in Hall. apply Hall, Hin.
    + split; [done|]. intros Honly. apply Honly, Ly.
Qed.

Lemma header_next_is_min_witness :
  reachable 1 demo_3 /\
  exists q,
    load_next (mem demo_3) (header (lst demo_3)) 0 = Ok q /\
    live demo_3 q /\
    (forall x, live demo_3 x -> key_at (mem demo_3) q <= key_at (mem demo_3) x) /\
    (q = 1%positive <-> forall x, live demo_3 x -> x = 1%positive).
Proof.
  split; [apply demo_3_reachable|].
  apply (header_next_is_min 1 demo_3 demo_3_reachable).
Defined.

(** X3: in every reachable state the walk of level [k] returns, without
    repetition, exactly the allocated nodes other than the sentinel whose
    level is at least [k]: on level 0 all of them, above the height none,
    and every node met on a level is also met on each level below. *)
Theorem walk_visits_level (s : addr) (st : state) (k : nat) :
  reachable s st -> (k < MaxNumberOfLevels)%nat ->
  exists fuel c,
    walk fuel (mem st) s k = Ok c /\ NoDup c /\
    (forall x, x ∈ c <-> x <> s /\ live st x /\ (k <= level_at (mem st) x)%nat) /\
    ((lst_level (lst st) < k)%nat -> c = []) /\
    (forall j, (j <= k)%nat -> exists fuel' c',
        walk fuel' (mem st) s j = Ok c' /\ forall x, x ∈ c -> x ∈ c').
Proof.
  intros Hr Hk. pose proof (reachable_Inv s st Hr) as Hinv.
  destruct (inv_chains _ _ Hinv k Hk) as [c Hc].
  assert (Hlv : forall j x, has_level (mem st) j x <->
                  live st x /\ (j <= level_at (mem st) x)%nat).
  { intros j x. unfold has_level, live. split.
    - intros (lv & kx & vx & Hx & Hj). rewrite (fields_level_at _ _ _ _ _ Hx), Hx. eauto.
    - intros [[[[lv kx] vx] Hx] Hj]. rewrite (fields_level_at _ _ _ _ _ Hx) in Hj. eauto 10. }
  exists (S (length c)), c. split; [apply walk_chain; [done|lia]|].
  split; [pose proof (chain_nodup _ _ _ _ Hc) as Hnd; apply NoDup_cons in Hnd; tauto|].
  split; [intros x; rewrite (chain_mem _ _ _ _ Hc), Hlv; done|].
  split; [intros Hgt; eapply chain_above_empty; done|].
  intros j Hj. destruct (inv_chains _ _ Hinv j ltac:(lia)) as [c' Hc'].
  exists (S (length c')), c'. split; [apply walk_chain; [done|lia]|].
  intros x Hx. apply (chain_mem _ _ _ _ Hc) in Hx as [Hxs Hx].
  apply (chain_mem _ _ _ _ Hc'). split; [done|].
  destruct Hx as (lv & kx & vx & Hx & Hle). exists lv, kx, vx. split; [done|lia].
Qed.

Lemma walk_visits_level_witness :
  reachable 1 demo_3 /\
  exists fuel c,
    walk fuel (mem demo_3) 1 2 = Ok c /\ NoDup c /\
    (forall x, x ∈ c <-> x <> 1%positive /\ live demo_3 x /\
                         (2 <= level_at (mem demo_3) x)%nat) /\
    ((lst_level (lst demo_3) < 2)%nat -> c = []) /\
    (forall j, (j <= 2)%nat -> exists fuel' c',
        walk fuel' (mem demo_3) 1 j = Ok c' /\ forall x, x ∈ c -> x ∈ c').
Proof.
  split; [apply demo_3_reachable|].
  apply (walk_visits_level 1 demo_3 2 demo_3_reachable).
  unfold MaxNumberOfLevels. lia.
Defined.

(** X4: an insert allocates exactly its handle and a delete frees exactly
    its handle; the level, key and value of every other node, linked or
    not, are the same before and after, so a node's level never changes
    while it is linked. *)
Theorem node_fields_frame (s : addr) (st : state) :
  reachable s st ->
  (forall fuel ky val randseed a st' q,
      skiplist_insert fuel s st ky val randseed a = Ok (st', q) ->
      ~ live st q /\ live st' q /\
      forall x, x <> q -> fields (mem st') x = fields (mem st) x) /\
  (forall node st', node <> s ->
      skiplist_delnode s st node = Ok st' ->
      live st node /\ ~ live st' node /\
      forall x, x <> node -> fields (mem st') x = fields (mem st) x).
Proof.
  intros Hr. pose proof (reachable_Inv s st Hr) as Hinv. split.
  - intros fuel ky val r a st' q Hrun.
    destruct (insert_Ok_inserted _ _ _ _ _ _ _ _ _ Hinv Hrun)
      as (Hky & Hfree & -> & update & h' & _ & -> & Hins).
    apply fields_None in Hfree. unfold live. simpl.
    split; [rewrite Hfree; intros [? [=]]|].
    split; [rewrite (inserted_fields_new _ _ _ _ _ _ _ _ Hins); eauto|].
    intros x Hx. apply (inserted_fields_old _ _ _ _ _ _ _ _ Hins), Hx.
  - intros d st' Hds Hrun.
    destruct (delnode_Ok_live _ _ _ _ Hrun) as (m & kd & vd & Hd).
    destruct (delnode_exec s st d m kd vd Hinv Hds Hd) as (h' & L' & Hrun' & Hun & _).
    rewrite Hrun in Hrun'. injection Hrun' as ->. unfold live. simpl.
    split; [rewrite Hd; eauto|].
    split; [rewrite (unlinked_fields_gone _ _ _ _ Hun); intros [? [=]]|].
    intros x Hx. apply (unlinked_fields_old _ _ _ _ Hun), Hx.
Qed.

Lemma node_fields_frame_witness :
  reachable 1 demo_3 /\
  live demo_3 3 /\ ~ live demo_4 3 /\
  forall x, x <> 3%positive -> fields (mem demo_4) x = fields (mem demo_3) x.
Proof.
  split; [apply demo_3_reachable|].
  apply (proj2 (node_fields_frame 1 demo_3 demo_3_reachable) 3%positive demo_4).
  - discriminate.
  - vm_compute. reflexivity.
Defined.

End Observations.

Section LevelDistribution.

(** X5: for a nonzero 64-bit seed and a level [L] of at most 15,
    [randomLevel] returns at least [L] exactly when the seed is a multiple
    of [4^L]; each further level is thus reached by one seed in four of
    those that reached the level below. *)
Theorem randomLevel_ge_iff (r : Z) (L : nat) :
  u64 r -> r <> 0 -> (L <= MaxLevel)%nat ->
  ((L <= randomLevel r)%nat <-> r mod 4 ^ Z.of_nat L = 0).
Proof.
  intros Hu Hnz HL.
  destruct (randomLevel_loop_rounds 32 r 0 (u64_lt_pow4 r Hu))
    as (n & Hn & _ & _ & Hrun & Hm).
  destruct (Hm Hnz) as (m & Hr & Hm4).
  assert (Hrl : randomLevel r = Nat.min n 15).
  { unfold randomLevel. rewrite <- (Nat.add_0_r 32), Hrun.
    unfold MaxLevel, MaxNumberOfLevels. change (16 - 1)%nat with 15%nat.
    case_bool_decide; lia. }
  unfold MaxLevel, MaxNumberOfLevels in HL. change (16 - 1)%nat with 15%nat in HL.
  assert (Hpos : forall i : nat, 0 < 4 ^ Z.of_nat i) by (intros i; apply Z.pow_pos_nonneg; lia).
  rewrite Hrl. split.
  - intros Hle. assert (HLn : (L <= n)%nat) by lia.
    rewrite Hr. replace (Z.of_nat n) with (Z.of_nat L + Z.of_nat (n - L)) by lia.
    rewrite Z.pow_add_r by lia. rewrite <- Z.mul_assoc, Z.mul_comm.
    apply Z.mod_mul. pose proof (Hpos L). lia.
  - intros Hmod. destruct (decide (L <= n)%nat) as [|Hgt]; [lia|exfalso].
    apply Z.mod_divide in Hmod; [|pose proof (Hpos L); lia].
    destruct Hmod as [t Ht].
    replace (Z.of_nat L) with (Z.of_nat n + (1 + Z.of_nat (L - n - 1))) in Ht by lia.
    rewrite Z.pow_add_r, Z.pow_add_r in Ht by lia.
    rewrite Hr in Ht.
    assert (Hm' : m = t * 4 ^ Z.of_nat (L - n - 1) * 4).
    { apply (Z.mul_reg_l _ _ (4 ^ Z.of_nat n)); [pose proof (Hpos n); lia|].
      rewrite Ht. change (4 ^ 1) with 4. ring. }
    apply Hm4. rewrite Hm'. apply Z.mod_mul. lia.
Qed.

Lemma randomLevel_ge_iff_witness :
  u64 768 /\ ((4 <= randomLevel 768)%nat <-> 768 mod 4 ^ Z.of_nat 4 = 0).
Proof.
  assert (Hu : u64 768) by (unfold u64, KEY_MAX; lia).
  split; [exact Hu|].
  apply (randomLevel_ge_iff 768 4 Hu); [lia|].
  unfold MaxLevel, MaxNumberOfLevels. lia.
Defined.

End LevelDistribution.

Section Removal.

Implicit Types (h : heap) (s a p q d : addr) (k j : nat) (c l : list addr) (st : state).

Lemma filter_ne_absent d l : d ∉ l -> filter (fun x => x <> d) l = l.
Proof.
  induction l as [|x l IH]; intros Hd; [done|].
  rewrite filter_cons_True by set_solver. rewrite IH by set_solver. done.
Qed.

Lemma filter_ne_split d c1 c2 :
  NoDup (c1 ++ d :: c2) -> filter (fun x => x <> d) (c1 ++ d :: c2) = c1 ++ c2.
Proof.
  intros Hnd. rewrite <- Permutation_middle in Hnd.
  apply NoDup_cons in Hnd as [Hd _]. apply not_elem_of_app in Hd as [H1 H2].
  rewrite filter_app, filter_cons_False by (intros H; apply H; done).
  rewrite !filter_ne_absent by done. done.
Qed.

Lemma filter_ne_comm d1 d2 l :
  filter (fun x => x <> d1) (filter (fun x => x <> d2) l) =
  filter (fun x => x <> d2) (filter (fun x => x <> d1) l).
Proof.
  induction l as [|x l IH]; [done|].
  rewrite !(filter_cons _ x). repeat case_decide; rewrite ?(filter_cons _ x);
    repeat case_decide; try done; rewrite IH; done.
Qed.

(** After a delete every level holds its old chain without the node. *)
Lemma unlinked_chain_filter s st d m kd vd h' k c :
  Inv s st -> d <> s -> fields (mem st) d = Some (m, kd, vd) -> unlinked st d m h' ->
  chain (mem st) s k c -> chain h' s k (filter (fun x => x <> d) c).
Proof.
  intros Hinv Hds Hd Hun Hc. destruct (decide (k <= m)%nat) as [Hk|Hk].
  - destruct (unlinked_chain_low _ _ _ _ _ _ _ Hinv Hds Hd Hun k c Hk Hc)
      as (c1 & c2 & -> & Hc').
    rewrite filter_ne_split; [done|].
    pose proof (chain_nodup _ _ _ _ Hc) as Hnd. apply NoDup_cons in Hnd. tauto.
  - rewrite filter_ne_absent.
    + eapply unlinked_chain_high; [done..| |done]. lia.
    + pose proof (unlinked_not_in_chain _ _ _ _ _ _ Hds Hd k c ltac:(lia) Hc). set_solver.
Qed.

(** X6: in every reachable state the delete of any linked node runs to
    completion, whatever its level; on each level the node was on, the walk
    afterwards is the old walk with that one node taken out and the others
    in their old order, and on the levels above its own the walk is the
    same as before. *)
Theorem delnode_removes_node (s : addr) (st : state) (node : addr) :
  reachable s st -> node <> s -> live st node ->
  exists st',
    skiplist_delnode s st node = Ok st' /\
    forall k, (k < MaxNumberOfLevels)%nat ->
      ((k <= level_at (mem st) node)%nat ->
         exists c1 c2 f1 f2,
           walk f1 (mem st) s k = Ok (c1 ++ node :: c2) /\
           walk f2 (mem st') s k = Ok (c1 ++ c2)) /\
      ((level_at (mem st) node < k)%nat ->
         exists c f1 f2,
           walk f1 (mem st) s k = Ok c /\ walk f2 (mem st') s k = Ok c /\ node ∉ c).
Proof.
  intros Hr Hds [[[m kd] vd] Hd]. pose proof (reachable_Inv s st Hr) as Hinv.
  destruct (delnode_exec s st node m kd vd Hinv Hds Hd) as (h' & L' & Hrun & Hun & _).
  rewrite (fields_level_at _ _ _ _ _ Hd).
  eexists. split; [exact Hrun|]. simpl. intros k Hk.
  destruct (inv_chains _ _ Hinv k Hk) as [c Hc]. split; intros Hkm.
  - destruct (unlinked_chain_low _ _ _ _ _ _ _ Hinv Hds Hd Hun k c Hkm Hc)
      as (c1 & c2 & -> & Hc').
    exists c1, c2, (S (length (c1 ++ node :: c2))), (S (length (c1 ++ c2))).
    split; apply walk_chain; (done || lia).
  - exists c, (S (length c)), (S (length c)).
    split; [apply walk_chain; [done|lia]|]. split.
    + apply walk_chain; [|lia]. eapply unlinked_chain_high; done.
    + pose proof (unlinked_not_in_chain _ _ _ _ _ _ Hds Hd k c Hkm Hc). set_solver.
Qed.

Lemma delnode_removes_node_witness :
  reachable 1 demo_3 /\ live demo_3 3 /\
  exists st',
    skiplist_delnode 1 demo_3 3 = Ok st' /\
    forall k, (k < MaxNumberOfLevels)%nat ->
      ((k <= level_at (mem demo_3) 3)%nat ->
         exists c1 c2 f1 f2,
           walk f1 (mem demo_3) 1 k = Ok (c1 ++ 3%positive :: c2) /\
           walk f2 (mem st') 1 k = Ok (c1 ++ c2)) /\
      ((level_at (mem demo_3) 3 < k)%nat ->
         exists c f1 f2,
           walk f1 (mem demo_3) 1 k = Ok c /\ walk f2 (mem st') 1 k = Ok c /\
           3%positive ∉ c).
Proof.
  assert (Hl : live demo_3 3) by (vm_compute; eauto).
  split; [apply demo_3_reachable|]. split; [exact Hl|].
  apply (delnode_removes_node 1 demo_3 3%positive demo_3_reachable); [discriminate|exact Hl].
Defined.

(** X7: the only slots of other nodes that a call writes are those of
    the two neighbours, on the levels of the handle: an insert redirects
    [next[k]] of the recorded predecessor and [prev[k]] of the node that
    followed it, a delete redirects [next[k]] of the node's predecessor to
    its successor and [prev[k]] of the successor to the predecessor.  Every
    other slot of every other node keeps its content. *)
Theorem neighbour_slots_frame (s : addr) (st : state) :
  reachable s st ->
  (forall fuel ky val randseed a st' q,
      skiplist_insert fuel s st ky val randseed a = Ok (st', q) ->
      exists update, insert_update fuel s st ky randseed = Ok update /\
        forall k x, x <> q ->
          (nxt (mem st') k x = nxt (mem st) k x \/
           (k <= level_at (mem st') q)%nat /\ update !! k = Some x /\
           nxt (mem st') k x = Some q) /\
          (prv (mem st') k x = prv (mem st) k x \/
           (k <= level_at (mem st') q)%nat /\
           (exists p, update !! k = Some p /\ nxt (mem st) k p = Some x) /\
           prv (mem st') k x = Some q)) /\
  (forall node st', node <> s ->
      skiplist_delnode s st node = Ok st' ->
      forall k x, x <> node ->
        (nxt (mem st') k x = nxt (mem st) k x \/
         (k <= level_at (mem st) node)%nat /\ prv (mem st) k node = Some x /\
         nxt (mem st') k x = nxt (mem st) k node) /\
        (prv (mem st') k x = prv (mem st) k x \/
         (k <= level_at (mem st) node)%nat /\ nxt (mem st) k node = Some x /\
         prv (mem st') k x = prv (mem st) k node)).
Proof.
  intros Hr. pose proof (reachable_Inv s st Hr) as Hinv. split.
  - intros fuel ky val r a st' q Hrun.
    destruct (insert_Ok_inserted _ _ _ _ _ _ _ _ _ Hinv Hrun)
      as (Hky & Hfree & -> & update & h' & Hu & -> & Hins).
    exists update. split; [done|]. simpl. intros k x Hx.
    rewrite (fields_level_at _ _ _ _ _ (inserted_fields_new _ _ _ _ _ _ _ _ Hins)).
    destruct (decide (k <= insert_level st r)%nat) as [Hk|Hk].
    + destruct (ins_rec _ _ _ _ _ _ _ _ Hins k Hk) as (p & Hp & _).
      destruct (ins_low _ _ _ _ _ _ _ _ Hins k p Hk Hp x) as [-> ->].
      unfold spliced_nxt, spliced_prv. split.
      * case_decide; [subst; right; done|]. rewrite decide_False by done. left. done.
      * case_decide as E; [right; split; [done|]; split; [eauto|done]|].
        rewrite decide_False by done. left. done.
    + destruct (ins_high _ _ _ _ _ _ _ _ Hins k ltac:(lia) x) as [-> ->].
      split; left; done.
  - intros d st' Hds Hrun k x Hx.
    destruct (delnode_Ok_live _ _ _ _ Hrun) as (m & kd & vd & Hd).
    destruct (delnode_exec s st d m kd vd Hinv Hds Hd) as (h' & L' & Hrun' & Hun & _).
    rewrite Hrun in Hrun'. injection Hrun' as ->. simpl.
    rewrite (fields_level_at _ _ _ _ _ Hd).
    destruct (decide (k <= m)%nat) as [Hk|Hk].
    + destruct (del_low _ _ _ _ Hun k Hk x Hx) as [-> ->].
      unfold unlinked_nxt, unlinked_prv. split.
      * case_decide as E; [right|left; done]. done.
      * case_decide as E; [right|left; done]. done.
    + destruct (del_high _ _ _ _ Hun k ltac:(lia) x Hx) as [-> ->].
      split; left; done.
Qed.

Lemma neighbour_slots_frame_witness :
  reachable 1 demo_3 /\
  forall k x, x <> 3%positive ->
    (nxt (mem demo_4) k x = nxt (mem demo_3) k x \/
     (k <= level_at (mem demo_3) 3)%nat /\ prv (mem demo_3) k 3 = Some x /\
     nxt (mem demo_4) k x = nxt (mem demo_3) k 3) /\
    (prv (mem demo_4) k x = prv (mem demo_3) k x \/
     (k <= level_at (mem demo_3) 3)%nat /\ nxt (mem demo_3) k 3 = Some x /\
     prv (mem demo_4) k x = prv (mem demo_3) k 3).
Proof.
  split; [apply demo_3_reachable|].
  apply (proj2 (neighbour_slots_frame 1 demo_3 demo_3_reachable) 3%positive demo_4).
  - discriminate.
  - vm_compute. reflexivity.
Defined.

End Removal.

Section SearchCost.

Implicit Types (h : heap) (s a p q d : addr) (k j : nat) (c l : list addr) (st : state).

Lemma chain_length_lt_size h s k c :
  chain h s k c -> is_Some (fields h s) -> (length c < size h)%nat.
Proof.
  intros Hc Ls.
  assert (Hsub : s :: c ⊆+ elements (dom h : gset addr)).
  { apply NoDup_submseteq; [apply (chain_nodup _ _ _ _ Hc)|].
    intros x Hx. apply elem_of_elements, elem_of_dom, live_lookup.
    eapply chain_cons_live; done. }
  apply submseteq_length in Hsub. simpl in Hsub.
  rewrite <- (size_dom (D := gset addr)).
  change (size (dom h)) with (length (elements (dom h : gset addr))). lia.
Qed.

Lemma search_level_bounded h s k ky p c fuel :
  chain h s k c -> fields h s = Some (0%nat, KEY_MAX, NULL) -> ky < KEY_MAX ->
  starts h s ky c p -> (length c < fuel)%nat ->
  exists p', search_level fuel h k ky p = Ok p'.
Proof.
  intros Hc Hs Hky (l1 & l2 & E & Hle & ->) Hf.
  destruct (search_level_spec h s k ky c Hc Hs Hky l2 l1 E Hle) as (c1 & c2 & _ & _ & _ & Hrun).
  exists (endof s c1). apply Hrun. rewrite E, length_app in Hf. lia.
Qed.

Lemma search_bounded h s ky fuel :
  fields h s = Some (0%nat, KEY_MAX, NULL) -> ky < KEY_MAX ->
  (forall k, (k < MaxNumberOfLevels)%nat -> exists c, chain h s k c) ->
  (forall k c, chain h s k c -> (length c < fuel)%nat) ->
  forall k p update, (k < MaxNumberOfLevels)%nat ->
  (forall c, chain h s k c -> starts h s ky c p) ->
  exists update', search fuel h ky k p update = Ok update'.
Proof.
  intros Hs Hky Hch Hlen. induction k as [|k IH]; intros p update Hk Hst.
  - destruct (Hch _ Hk) as [c Hc].
    destruct (search_level_bounded h s 0 ky p c fuel Hc Hs Hky (Hst c Hc) (Hlen _ _ Hc))
      as [p' Hrun].
    cbn [search]. rewrite Hrun. simpl. eauto.
  - destruct (Hch _ Hk) as [c Hc].
    destruct (search_level_bounded h s (S k) ky p c fuel Hc Hs Hky (Hst c Hc) (Hlen _ _ Hc))
      as [p' Hrun].
    destruct (search_level_total h s (S k) ky p Hs Hky (Hch _ Hk) Hst) as (f0 & p0 & Hrun0 & Hsp).
    pose proof (search_level_mono fuel (fuel + f0) _ _ _ _ _ ltac:(lia) Hrun) as Hrun'.
    rewrite Hrun0 in Hrun' by lia. injection Hrun' as <-.
    cbn [search]. rewrite Hrun, result_bind_Ok. cbv beta.
    unfold store_update. rewrite bool_decide_eq_true_2 by done.
    rewrite result_bind_Ok. cbv beta.
    apply IH; [lia|]. apply search_descend; [apply Hch, Hk|done].
Qed.

(** X8: in every reachable state an insert of a key below the
    sentinel's needs, on each level, fewer rounds of its search loop than
    there are allocated nodes, the sentinel counted: with that much fuel it
    returns. *)
Theorem insert_fuel_bound (s : addr) (st : state) (ky val randseed : Z) (a : addr) :
  reachable s st -> ky < KEY_MAX -> mem st !! a = None ->
  exists st',
    skiplist_insert (size (mem st)) s st ky val randseed a = Ok (st', a).
Proof.
  intros Hr Hky Hfree. pose proof (reachable_Inv s st Hr) as Hinv.
  pose proof (inv_sentinel _ _ Hinv) as Hs.
  pose proof (inv_bound _ _ Hinv) as Hb. unfold MaxLevel, MaxNumberOfLevels in Hb.
  destruct (search_bounded (mem st) s ky (size (mem st)) Hs Hky (inv_chains _ _ Hinv)
              ltac:(intros k c Hc; eapply chain_length_lt_size;
                    [exact Hc|eapply sentinel_live, Hs])
              (lst_level (lst st)) s ∅) as [u0 Hsearch].
  { unfold MaxNumberOfLevels. lia. }
  { intros c Hc. exists [], c. split; [done|]. split; [constructor|done]. }
  destruct (insert_exec' s st ky val randseed a Hinv Hky Hfree)
    as (f0 & update & h' & Hu & Hrun & _).
  set (F := (size (mem st) + f0)%nat).
  specialize (Hu F ltac:(unfold F; lia)). specialize (Hrun F ltac:(unfold F; lia)).
  assert (Hu' : insert_update (size (mem st)) s st ky randseed = Ok update).
  { pose proof (search_mono _ (size (mem st)) F _ _ _ _ _ ltac:(unfold F; lia) Hsearch)
      as HsF.
    unfold insert_update in *. rewrite HsF in Hu. rewrite Hsearch. exact Hu. }
  exists (insert_state st randseed h').
  rewrite skiplist_insert_unfold, Hu'. rewrite skiplist_insert_unfold, Hu in Hrun. exact Hrun.
Qed.

Lemma insert_fuel_bound_witness :
  reachable 1 demo_3 /\
  exists st', skiplist_insert (size (mem demo_3)) 1 demo_3 9 90 0 7 = Ok (st', 7%positive).
Proof.
  split; [apply demo_3_reachable|].
  apply (insert_fuel_bound 1 demo_3 9 90 0 7%positive demo_3_reachable).
  - unfold KEY_MAX. lia.
  - vm_compute. reflexivity.
Defined.

End SearchCost.

Section Canonical.

Implicit Types (h : heap) (s a p q d : addr) (k j : nat) (c l : list addr) (st : state).

Lemma links_agree_nxt (nx pv nx' pv' : addr -> option addr) x l z a :
  links nx pv x l z -> links nx' pv' x l z -> a ∈ x :: l -> nx a = nx' a.
Proof.
  revert x. induction l as [|y l IH]; intros x; simpl.
  - intros [H1 _] [H1' _] Ha. assert (a = x) as -> by set_solver. congruence.
  - intros (H1 & _ & H3) (H1' & _ & H3') [->|Ha]%elem_of_cons; [congruence|].
    apply (IH y H3 H3' Ha).
Qed.

Lemma links_agree_prv (nx pv nx' pv' : addr -> option addr) x l z a :
  links nx pv x l z -> links nx' pv' x l z -> a ∈ l ++ [z] -> pv a = pv' a.
Proof.
  revert x. induction l as [|y l IH]; intros x; simpl.
  - intros [_ H2] [_ H2'] Ha. assert (a = z) as -> by set_solver. congruence.
  - intros (_ & H2 & H3) (_ & H2' & H3') [->|Ha]%elem_of_cons; [congruence|].
    apply (IH y H3 H3' Ha).
Qed.

Lemma has_level_fields h h' k x :
  fields h' x = fields h x -> has_level h' k x <-> has_level h k x.
Proof. unfold has_level. intros ->. done. Qed.

(** Two states that satisfy the invariant, allocate the same nodes with
    the same fields and have the same chains are the same state. *)
Lemma Inv_state_ext s st1 st2 :
  Inv s st1 -> Inv s st2 ->
  (forall x, fields (mem st2) x = fields (mem st1) x) ->
  (forall k, (k < MaxNumberOfLevels)%nat ->
     exists c, chain (mem st1) s k c /\ chain (mem st2) s k c) ->
  st2 = st1.
Proof.
  intros H1 H2 Hf Hch.
  assert (Hmem : mem st2 = mem st1).
  { apply heap_ext; [done| |].
    - intros k x.
      assert (Hagree : (k < MaxNumberOfLevels)%nat -> x = s \/ has_level (mem st1) k x ->
                       nxt (mem st2) k x = nxt (mem st1) k x).
      { intros Hk Hx. destruct (Hch k Hk) as (c & Hc1 & Hc2). symmetry.
        eapply links_agree_nxt;
          [apply (chain_links _ _ _ _ Hc1)|apply (chain_links _ _ _ _ Hc2)|].
        apply (chain_has_elem _ _ _ _ _ Hc1 Hx). }
      destruct (nxt (mem st1) k x) as [y|] eqn:E1.
      { destruct (inv_slots _ _ H1 k x y (or_introl E1)) as [Hk Hx]. apply Hagree; done. }
      destruct (nxt (mem st2) k x) as [y|] eqn:E2; [|done].
      destruct (inv_slots _ _ H2 k x y (or_introl E2)) as [Hk [?|Hl]].
      * apply Hagree; [done|left; done].
      * apply Hagree; [done|right]. apply (has_level_fields _ _ _ _ (Hf x)), Hl.
    - intros k x.
      assert (Hagree : (k < MaxNumberOfLevels)%nat -> x = s \/ has_level (mem st1) k x ->
                       prv (mem st2) k x = prv (mem st1) k x).
      { intros Hk Hx. destruct (Hch k Hk) as (c & Hc1 & Hc2). symmetry.
        eapply links_agree_prv;
          [apply (chain_links _ _ _ _ Hc1)|apply (chain_links _ _ _ _ Hc2)|].
        pose proof (chain_has_elem _ _ _ _ _ Hc1 Hx). set_solver. }
      destruct (prv (mem st1) k x) as [y|] eqn:E1.
      { destruct (inv_slots _ _ H1 k x y (or_intror E1)) as [Hk Hx]. apply Hagree; done. }
      destruct (prv (mem st2) k x) as [y|] eqn:E2; [|done].
      destruct (inv_slots _ _ H2 k x y (or_intror E2)) as [Hk [?|Hl]].
      * apply Hagree; [done|left; done].
      * apply Hagree; [done|right]. apply (has_level_fields _ _ _ _ (Hf x)), Hl. }
  assert (Hle : forall sta stb, Inv s sta -> Inv s stb ->
            (forall x, fields (mem stb) x = fields (mem sta) x) ->
            (lst_level (lst sta) <= lst_level (lst stb))%nat).
  { intros sta stb Ha Hb Hfab.
    destruct (inv_top _ _ Ha) as [->|(x & kx & vx & Hxs & Hx)]; [lia|].
    rewrite <- Hfab in Hx. apply (inv_nodes _ _ Hb _ _ _ _ Hx Hxs). }
  assert (Hlv : lst_level (lst st2) = lst_level (lst st1)).
  { apply Nat.le_antisymm; [apply Hle; [done..|]|apply Hle; done].
    intros x. symmetry. apply Hf. }
  pose proof (inv_header _ _ H1) as Hh1. pose proof (inv_header _ _ H2) as Hh2.
  destruct st1 as [h1 [L1 hd1]], st2 as [h2 [L2 hd2]]. simpl in *. subst. done.
Qed.

(** X9: deletes of two different linked nodes commute: in either order
    both run to completion and they end in the same state, pointer for
    pointer. *)
Theorem delnode_commute (s : addr) (st : state) (d1 d2 : addr) :
  reachable s st -> d1 <> s -> d2 <> s -> d1 <> d2 -> live st d1 -> live st d2 ->
  exists st1 st2 st',
    skiplist_delnode s st d1 = Ok st1 /\ skiplist_delnode s st1 d2 = Ok st' /\
    skiplist_delnode s st d2 = Ok st2 /\ skiplist_delnode s st2 d1 = Ok st'.
Proof.
  intros Hr Hs1 Hs2 Hne [[[m1 k1] v1] Hd1] [[[m2 k2] v2] Hd2].
  pose proof (reachable_Inv s st Hr) as Hinv.
  destruct (delnode_exec s st d1 m1 k1 v1 Hinv Hs1 Hd1) as (h1 & L1 & Hrun1 & Hun1 & Hsh1).
  destruct (delnode_exec s st d2 m2 k2 v2 Hinv Hs2 Hd2) as (h2 & L2 & Hrun2 & Hun2 & Hsh2).
  pose proof (delnode_Inv _ _ _ _ _ _ _ _ Hinv Hs1 Hd1 Hun1 Hsh1) as Hinv1.
  pose proof (delnode_Inv _ _ _ _ _ _ _ _ Hinv Hs2 Hd2 Hun2 Hsh2) as Hinv2.
  set (st1 := mkState h1 (mkList L1 (header (lst st)))) in *.
  set (st2 := mkState h2 (mkList L2 (header (lst st)))) in *.
  assert (Hd2' : fields (mem st1) d2 = Some (m2, k2, v2)).
  { simpl. rewrite (unlinked_fields_old _ _ _ _ Hun1) by done. done. }
  assert (Hd1' : fields (mem st2) d1 = Some (m1, k1, v1)).
  { simpl. rewrite (unlinked_fields_old _ _ _ _ Hun2) by done. done. }
  destruct (delnode_exec s st1 d2 m2 k2 v2 Hinv1 Hs2 Hd2') as (h12 & L12 & Hrun12 & Hun12 & Hsh12).
  destruct (delnode_exec s st2 d1 m1 k1 v1 Hinv2 Hs1 Hd1') as (h21 & L21 & Hrun21 & Hun21 & Hsh21).
  pose proof (delnode_Inv _ _ _ _ _ _ _ _ Hinv1 Hs2 Hd2' Hun12 Hsh12) as Hinv12.
  pose proof (delnode_Inv _ _ _ _ _ _ _ _ Hinv2 Hs1 Hd1' Hun21 Hsh21) as Hinv21.
  exists st1, st2, (mkState h12 (mkList L12 (header (lst st1)))).
  split; [done|]. split; [done|]. split; [done|]. rewrite Hrun21. f_equal.
  apply (Inv_state_ext s _ _ Hinv12 Hinv21).
  - intros x. simpl.
    rewrite (del_fields _ _ _ _ Hun21), (del_fields _ _ _ _ Hun12). simpl.
    rewrite (del_fields _ _ _ _ Hun2), (del_fields _ _ _ _ Hun1).
    repeat case_decide; done.
  - intros k Hk. destruct (inv_chains _ _ Hinv k Hk) as [c Hc].
    exists (filter (fun x => x <> d2) (filter (fun x => x <> d1) c)). split; simpl.
    + eapply (unlinked_chain_filter s st1); [done..|].
      eapply (unlinked_chain_filter s st); done.
    + rewrite <- filter_ne_comm.
      eapply (unlinked_chain_filter s st2); [done..|].
      eapply (unlinked_chain_filter s st); done.
Qed.

Lemma delnode_commute_witness :
  reachable 1 demo_3 /\
  exists st1 st2 st',
    skiplist_delnode 1 demo_3 4 = Ok st1 /\ skiplist_delnode 1 st1 2 = Ok st' /\
    skiplist_delnode 1 demo_3 2 = Ok st2 /\ skiplist_delnode 1 st2 4 = Ok st'.
Proof.
  split; [apply demo_3_reachable|].
  apply (delnode_commute 1 demo_3 4%positive 2%positive demo_3_reachable);
    try discriminate; vm_compute; eauto.
Defined.

End Canonical.

Section Nesting.

Implicit Types (h : heap) (s a p q d : addr) (k j : nat) (c l : list addr) (st : state).

Lemma links_unique (nx pv : addr -> option addr) z : forall l l' x,
  links nx pv x l z -> links nx pv x l' z -> z ∉ l -> z ∉ l' -> l = l'.
Proof.
  induction l as [|y l IH]; intros [|y' l'] x; simpl; [done| | |].
  - intros [H1 _] (H2 & _) _ Hz. rewrite H1 in H2. injection H2 as <-. set_solver.
  - intros (H1 & _) [H2 _] Hz _. rewrite H1 in H2. injection H2 as <-. set_solver.
  - intros (H1 & _ & H3) (H1' & _ & H3') Hz Hz'.
    rewrite H1 in H1'. injection H1' as <-. f_equal.
    apply (IH l' y H3 H3'); set_solver.
Qed.

(** A level has one chain only. *)
Lemma chain_unique h s k c c' : chain h s k c -> chain h s k c' -> c = c'.
Proof.
  intros Hc Hc'.
  pose proof (chain_nodup _ _ _ _ Hc) as Hnd. pose proof (chain_nodup _ _ _ _ Hc') as Hnd'.
  apply NoDup_cons in Hnd as [Hs _]. apply NoDup_cons in Hnd' as [Hs' _].
  eapply links_unique; [apply (chain_links _ _ _ _ Hc)|apply (chain_links _ _ _ _ Hc')|done..].
Qed.

Lemma sublist_filter_mono (P : addr -> Prop) `{!forall x, Decision (P x)} l1 l2 :
  sublist l1 l2 -> sublist (filter P l1) (filter P l2).
Proof.
  induction 1 as [|x l1 l2 _ IH|x l1 l2 _ IH]; [done| |].
  - rewrite !(filter_cons _ x). case_decide; [constructor; done|done].
  - rewrite (filter_cons _ x). case_decide; [constructor; done|done].
Qed.

Lemma filter_Forall_all (P : addr -> Prop) `{!forall x, Decision (P x)} l :
  Forall P l -> filter P l = l.
Proof.
  induction 1 as [|x l Hx _ IH]; [done|]. rewrite filter_cons_True by done. rewrite IH. done.
Qed.

Lemma filter_Forall_none (P : addr -> Prop) `{!forall x, Decision (P x)} l :
  Forall (fun x => ~ P x) l -> filter P l = [].
Proof.
  induction 1 as [|x l Hx _ IH]; [done|]. rewrite filter_cons_False by done. done.
Qed.

(** A subsequence splits along a split of the keys. *)
Lemma sublist_split_keys h ky c1 c2 c1' c2' :
  sublist (c1' ++ c2') (c1 ++ c2) ->
  keys_le h ky c1 -> keys_gt h ky c2 -> keys_le h ky c1' -> keys_gt h ky c2' ->
  sublist c1' c1 /\ sublist c2' c2.
Proof.
  unfold keys_le, keys_gt. intros Hsub H1 H2 H1' H2'.
  assert (Hno : forall l, Forall (fun x => ky < key_at h x) l ->
                          Forall (fun x => ~ key_at h x <= ky) l).
  { intros l Hl. eapply Forall_impl; [exact Hl|]. simpl. intros; lia. }
  assert (Hno' : forall l, Forall (fun x => key_at h x <= ky) l ->
                           Forall (fun x => ~ ky < key_at h x) l).
  { intros l Hl. eapply Forall_impl; [exact Hl|]. simpl. intros; lia. }
  split.
  - apply (sublist_filter_mono (fun x => key_at h x <= ky)) in Hsub.
    rewrite !filter_app in Hsub.
    rewrite (filter_Forall_all _ c1), (filter_Forall_all _ c1') in Hsub by done.
    rewrite (filter_Forall_none _ c2), (filter_Forall_none _ c2') in Hsub by (apply Hno; done).
    rewrite !app_nil_r in Hsub. done.
  - apply (sublist_filter_mono (fun x => ky < key_at h x)) in Hsub.
    rewrite !filter_app in Hsub.
    rewrite (filter_Forall_all _ c2), (filter_Forall_all _ c2') in Hsub by done.
    rewrite (filter_Forall_none _ c1), (filter_Forall_none _ c1') in Hsub by (apply Hno'; done).
    done.
Qed.

Lemma insert_Ok_nested s st fuel ky val r a st' q :
  Inv s st -> nested s st ->
  skiplist_insert fuel s st ky val r a = Ok (st', q) -> nested s st'.
Proof.
  intros Hinv Hnest Hrun.
  pose proof (insert_Ok_Inv _ _ _ _ _ _ _ _ _ Hinv Hrun) as Hinv'.
  destruct (insert_Ok_inserted _ _ _ _ _ _ _ _ _ Hinv Hrun)
    as (Hky & Hfree & -> & update & h' & _ & -> & Hins).
  apply fields_None in Hfree.
  intros k c c' Hc Hc'. simpl in Hc, Hc'.
  assert (Hk : (S k < MaxNumberOfLevels)%nat).
  { destruct (decide (S k < MaxNumberOfLevels)%nat) as [|Hge]; [done|exfalso].
    destruct (links_edge _ _ s [] c' s (chain_links _ _ _ _ Hc')) as [Hn _].
    destruct (inv_slots _ _ Hinv' (S k) s _ (or_introl Hn)). done. }
  destruct (inv_chains _ _ Hinv k ltac:(lia)) as [c0 Hc0].
  destruct (inv_chains _ _ Hinv (S k) Hk) as [c0' Hc0'].
  pose proof (Hnest k c0 c0' Hc0 Hc0') as Hsub.
  destruct (decide (S k <= insert_level st r)%nat) as [Hlow|Hhigh].
  - destruct (inserted_chain_low _ _ _ _ _ _ _ _ Hinv Hky Hfree Hins k c0 ltac:(lia) Hc0)
      as (c1 & c2 & -> & H1 & H2 & _ & Hn).
    destruct (inserted_chain_low _ _ _ _ _ _ _ _ Hinv Hky Hfree Hins (S k) c0' Hlow Hc0')
      as (c1' & c2' & -> & H1' & H2' & _ & Hn').
    rewrite (chain_unique _ _ _ _ _ Hc Hn), (chain_unique _ _ _ _ _ Hc' Hn').
    destruct (sublist_split_keys _ _ _ _ _ _ Hsub H1 H2 H1' H2') as [Ha Hb].
    apply sublist_app; [done|]. constructor. done.
  - pose proof (inserted_chain_high _ _ _ _ _ _ _ _ Hinv Hky Hfree Hins (S k) c0'
                  ltac:(lia) Hc0') as Hn'.
    rewrite (chain_unique _ _ _ _ _ Hc' Hn').
    destruct (decide (k <= insert_level st r)%nat) as [Hk0|Hk0].
    + destruct (inserted_chain_low _ _ _ _ _ _ _ _ Hinv Hky Hfree Hins k c0 Hk0 Hc0)
        as (c1 & c2 & -> & _ & _ & _ & Hn).
      rewrite (chain_unique _ _ _ _ _ Hc Hn).
      apply sublist_app_r in Hsub as (l1 & l2 & -> & Ha & Hb).
      apply sublist_app; [done|]. apply sublist_cons. done.
    + pose proof (inserted_chain_high _ _ _ _ _ _ _ _ Hinv Hky Hfree Hins k c0
                    ltac:(lia) Hc0) as Hn.
      rewrite (chain_unique _ _ _ _ _ Hc Hn). done.
Qed.

Lemma delnode_Ok_nested s st d st' :
  Inv s st -> nested s st -> d <> s ->
  skiplist_delnode s st d = Ok st' -> nested s st'.
Proof.
  intros Hinv Hnest Hds Hrun.
  pose proof (delnode_Ok_Inv _ _ _ _ Hinv Hds Hrun) as Hinv'.
  destruct (delnode_Ok_live _ _ _ _ Hrun) as (m & kd & vd & Hd).
  destruct (delnode_exec s st d m kd vd Hinv Hds Hd) as (h' & L' & Hrun' & Hun & _).
  rewrite Hrun in Hrun'. injection Hrun' as ->.
  intros k c c' Hc Hc'. simpl in Hc, Hc'.
  assert (Hk : (S k < MaxNumberOfLevels)%nat).
  { destruct (decide (S k < MaxNumberOfLevels)%nat) as [|Hge]; [done|exfalso].
    destruct (links_edge _ _ s [] c' s (chain_links _ _ _ _ Hc')) as [Hn _].
    destruct (inv_slots _ _ Hinv' (S k) s _ (or_introl Hn)). done. }
  destruct (inv_chains _ _ Hinv k ltac:(lia)) as [c0 Hc0].
  destruct (inv_chains _ _ Hinv (S k) Hk) as [c0' Hc0'].
  pose proof (unlinked_chain_filter _ _ _ _ _ _ _ _ _ Hinv Hds Hd Hun Hc0) as Hn.
  pose proof (unlinked_chain_filter _ _ _ _ _ _ _ _ _ Hinv Hds Hd Hun Hc0') as Hn'.
  rewrite (chain_unique _ _ _ _ _ Hc Hn), (chain_unique _ _ _ _ _ Hc' Hn').
  apply sublist_filter_mono, (Hnest k c0 c0' Hc0 Hc0').
Qed.

Lemma reachable_nested s st : reachable s st -> nested s st.
Proof.
  induction 1 as [h Hrun|st fuel ky val r a st' q Hr IH Hrun|st d st' Hr IH Hds Hrun].
  - intros k c c' Hc Hc'. pose proof (new_skiplist_Inv s h Hrun) as Hinv.
    apply (chain_above_empty _ _ _ _ Hinv) in Hc' as ->; [|simpl; lia].
    apply sublist_nil_l.
  - eapply insert_Ok_nested; [apply reachable_Inv| |]; done.
  - eapply delnode_Ok_nested; [apply reachable_Inv| | |]; done.
Qed.

(** X10: in every reachable state the nodes met on level [k + 1] are
    met on level [k] too, and in the same order: the walk of the upper
    level is a subsequence of the walk of the level below. *)
Theorem levels_nested (s : addr) (st : state) (k : nat) :
  reachable s st -> (S k < MaxNumberOfLevels)%nat ->
  exists f f' c c',
    walk f (mem st) s k = Ok c /\ walk f' (mem st) s (S k) = Ok c' /\ sublist c' c.
Proof.
  intros Hr Hk. pose proof (reachable_Inv s st Hr) as Hinv.
  destruct (inv_chains _ _ Hinv k ltac:(lia)) as [c Hc].
  destruct (inv_chains _ _ Hinv (S k) Hk) as [c' Hc'].
  exists (S (length c)), (S (length c')), c, c'.
  split; [apply walk_chain; [done|lia]|]. split; [apply walk_chain; [done|lia]|].
  apply (reachable_nested s st Hr k c c' Hc Hc').
Qed.

Lemma levels_nested_witness :
  reachable 1 demo_3 /\
  exists f f' c c',
    walk f (mem demo_3) 1 1 = Ok c /\ walk f' (mem demo_3) 1 2 = Ok c' /\ sublist c' c.
Proof.
  split; [apply demo_3_reachable|].
  apply (levels_nested 1 demo_3 1 demo_3_reachable). unfold MaxNumberOfLevels. lia.
Defined.

(** X11: the slots the code reads never dangle.  In every reachable
    state, on each of the 16 levels for the sentinel and on each level up to
    its own for any other allocated node, [next] and [prev] are set and
    point to allocated nodes that are on that level themselves, and each of
    the two neighbours points back at the node. *)
Theorem linked_slots_are_live (s : addr) (st : state) (k : nat) (x : addr) :
  reachable s st -> live st x -> (k < MaxNumberOfLevels)%nat ->
  (x <> s -> (k <= level_at (mem st) x)%nat) ->
  exists y z,
    nxt (mem st) k x = Some y /\ prv (mem st) k x = Some z /\
    live st y /\ live st z /\
    (y <> s -> (k <= level_at (mem st) y)%nat) /\
    (z <> s -> (k <= level_at (mem st) z)%nat) /\
    prv (mem st) k y = Some x /\ nxt (mem st) k z = Some x.
Proof.
  intros Hr [[[lv kx] vx] Hx] Hk Hlevel. pose proof (reachable_Inv s st Hr) as Hinv.
  pose proof (sentinel_live _ _ _ _ _ (inv_sentinel _ _ Hinv)) as Ls.
  destruct (inv_chains _ _ Hinv k Hk) as [c Hc].
  pose proof (chain_links _ _ _ _ Hc) as Hl.
  assert (Hlv : forall w, w ∈ s :: c -> w <> s -> (k <= level_at (mem st) w)%nat).
  { intros w [->|Hw]%elem_of_cons Hws; [done|].
    apply (chain_mem _ _ _ _ Hc) in Hw as (_ & lw & kw & vw & Hf & Hle).
    rewrite (fields_level_at _ _ _ _ _ Hf). done. }
  assert (Hlive : forall w, w ∈ s :: c -> live st w).
  { intros w Hw. eapply chain_cons_live; done. }
  assert (Hres : forall c1 c2, c = c1 ++ c2 ->
            endof s c1 ∈ s :: c /\ startof s c2 ∈ s :: c).
  { intros c1 c2 ->. pose proof (endof_elem s c1). pose proof (startof_elem s c2).
    set_solver. }
  destruct (decide (x = s)) as [->|Hxs].
  - destruct (links_edge _ _ s [] c s Hl) as [Hn Hp].
    pose proof Hl as Hl'. rewrite <- (app_nil_r c) in Hl'.
    destruct (links_edge _ _ s c [] s Hl') as [Hn' Hp'].
    change (endof s []) with s in *. change (startof s []) with s in *.
    destruct (Hres [] c eq_refl) as [_ Hy].
    destruct (Hres c [] (eq_sym (app_nil_r c))) as [Hz _].
    exists (startof s c), (endof s c).
    split; [done|]. split; [done|]. split; [apply Hlive, Hy|]. split; [apply Hlive, Hz|].
    split; [apply Hlv, Hy|]. split; [apply Hlv, Hz|]. done.
  - assert (Hin : x ∈ c).
    { apply (chain_mem _ _ _ _ Hc). split; [done|]. exists lv, kx, vx. split; [done|].
      rewrite <- (fields_level_at _ _ _ _ _ Hx). apply Hlevel, Hxs. }
    apply list_elem_of_split in Hin as (c1 & c2 & E). rewrite E in Hl.
    destruct (links_around _ _ _ _ _ _ _ Hl) as [Hp Hn].
    destruct (links_edge _ _ s c1 (x :: c2) s Hl) as [Hzn _].
    pose proof Hl as Hl'.
    replace (c1 ++ x :: c2) with ((c1 ++ [x]) ++ c2) in Hl' by (rewrite <- app_assoc; done).
    destruct (links_edge _ _ s (c1 ++ [x]) c2 s Hl') as [_ Hyp].
    rewrite endof_snoc in Hyp. change (startof s (x :: c2)) with x in Hzn.
    destruct (Hres c1 (x :: c2) E) as [Hz _].
    assert (E' : c = (c1 ++ [x]) ++ c2) by (rewrite <- app_assoc; done).
    destruct (Hres (c1 ++ [x]) c2 E') as [_ Hy].
    exists (startof s c2), (endof s c1).
    split; [done|]. split; [done|]. split; [apply Hlive, Hy|]. split; [apply Hlive, Hz|].
    split; [apply Hlv, Hy|]. split; [apply Hlv, Hz|]. done.
Qed.

Lemma linked_slots_are_live_witness :
  reachable 1 demo_3 /\ live demo_3 4 /\
  exists y z,
    nxt (mem demo_3) 2 4 = Some y /\ prv (mem demo_3) 2 4 = Some z /\
    live demo_3 y /\ live demo_3 z /\
    (y <> 1%positive -> (2 <= level_at (mem demo_3) y)%nat) /\
    (z <> 1%positive -> (2 <= level_at (mem demo_3) z)%nat) /\
    prv (mem demo_3) 2 y = Some 4%positive /\ nxt (mem demo_3) 2 z = Some 4%positive.
Proof.
  assert (Hl : live demo_3 4) by (vm_compute; eauto).
  split; [apply demo_3_reachable|]. split; [exact Hl|].
  apply (linked_slots_are_live 1 demo_3 2 4%positive demo_3_reachable Hl).
  - unfold MaxNumberOfLevels. lia.
  - intros _. vm_compute. lia.
Defined.

End Nesting.
